(** * SullySearchMemory: the associative memory store of sully_engine/memory.py

    A shallow embedding of the class [SullySearchMemory] and the proofs of
    the properties its specification states about it.

    Conventions of the embedding.
    - A Python [str] is a [string] of ASCII text; [lower] is [str.lower]
      and [str_in] the substring test on it.
    - A Python [int] is a [Z]; [len] is the length of a list as a [Z].
    - A Python [dict] is the list of its items in insertion order
      ([dict]); [dict_set k v d] is [d[k] = v].
    - The values the store carries without looking inside them ([result],
      [metadata], the fields of an entry) are values of [pyval], the Python
      values that JSON represents: [json.dump] followed by [json.load]
      gives such a value back as it was ([json_round_trip] below, where
      the Python values that JSON does not keep are added).
    - A method that can raise returns an [outcome A = exn + A]; [inl e] is
      the exception [e] leaving the call.
    - [self] is passed and returned explicitly, together with the files
      the store persists to ([world]); writing a file always succeeds, and
      what is printed is not kept.
    - [datetime.now()] is an argument of the two store methods.
    - The methods take the store by value; the four read methods are
      written a second time on a heap of objects, where what they do to
      the objects of the store can be said.
    - What the runtime decides and the source does not (the order in which
      a set is iterated, the matches of a regular expression, the parsing
      of a date) is a parameter of the methods that depend on it. *)

From Stdlib Require Import ZArith List String Ascii Bool Lia Permutation Sorted.
From Stdlib Require Import Floats.PrimFloat.
From Equations Require Import Equations.
Import ListNotations.

Local Open Scope string_scope.
Local Open Scope list_scope.
Local Open Scope Z_scope.


(* ===================================================================== *)
(** ** Python exceptions and fallible computations *)
(* ===================================================================== *)

Inductive exn : Type :=
| IndexError
| TypeError
| AttributeError
| OverflowError.

Definition outcome (A : Type) : Type := (exn + A)%type.

Definition ret {A} (a : A) : outcome A := inr a.
Definition raise {A} (e : exn) : outcome A := inl e.

Definition bind {A B} (m : outcome A) (k : A -> outcome B) : outcome B :=
  match m with
  | inl e => inl e
  | inr a => k a
  end.

Notation "x <- m ;; k" := (bind m (fun x => k))
  (at level 61, m at next level, right associativity).
Notation "' pat <- m ;; k" := (bind m (fun x => match x with pat => k end))
  (at level 61, pat pattern, m at next level, right associativity).

(** A call fails when an exception escapes it. *)
Definition fails {A} (r : outcome A) : Prop := exists e, r = inl e.

(* ===================================================================== *)
(** ** Strings: [str.lower] and the substring test [needle in haystack] *)
(* ===================================================================== *)

Definition lower_ascii (c : ascii) : ascii :=
  let n := nat_of_ascii c in
  if (Nat.leb 65 n && Nat.leb n 90)%bool then ascii_of_nat (n + 32) else c.

Fixpoint lower (s : string) : string :=
  match s with
  | EmptyString => EmptyString
  | String c rest => String (lower_ascii c) (lower rest)
  end.

(** [str_in needle haystack] is Python's [needle in haystack] on two
    strings: true when [needle] occurs in [haystack] as a contiguous run
    (the empty string occurs in every string). *)
Fixpoint str_in (needle haystack : string) : bool :=
  String.prefix needle haystack ||
  match haystack with
  | EmptyString => false
  | String _ rest => str_in needle rest
  end.

(* ===================================================================== *)
(** ** Python dictionaries, in insertion order *)
(* ===================================================================== *)

Class EqKey (K : Type) : Type := {
  keqb : K -> K -> bool;
  keqb_spec : forall x y, reflect (x = y) (keqb x y)
}.

#[export] Instance EqKey_string : EqKey string :=
  {| keqb := String.eqb; keqb_spec := String.eqb_spec |}.

#[export] Instance EqKey_Z : EqKey Z :=
  {| keqb := Z.eqb; keqb_spec := Z.eqb_spec |}.

Definition dict (K V : Type) : Type := list (K * V).

Section Dict.
Context {K V : Type} `{EqKey K}.

(** [d.get(k)]; [None] stands for a [KeyError] on [d[k]]. *)
Fixpoint dict_get (k : K) (d : dict K V) : option V :=
  match d with
  | [] => None
  | (k', v) :: rest => if keqb k k' then Some v else dict_get k rest
  end.

(** [k in d] *)
Definition dict_mem (k : K) (d : dict K V) : bool :=
  match dict_get k d with Some _ => true | None => false end.

(** [d[k] = v]: a present key keeps its place, a new key goes last. *)
Fixpoint dict_set (k : K) (v : V) (d : dict K V) : dict K V :=
  match d with
  | [] => [(k, v)]
  | (k', v') :: rest =>
      if keqb k k' then (k', v) :: rest else (k', v') :: dict_set k v rest
  end.

(** [del d[k]] *)
Fixpoint dict_del (k : K) (d : dict K V) : dict K V :=
  match d with
  | [] => []
  | (k', v') :: rest =>
      if keqb k k' then rest else (k', v') :: dict_del k rest
  end.

Definition dict_keys (d : dict K V) : list K := map fst d.
Definition dict_len (d : dict K V) : Z := Z.of_nat (List.length d).
End Dict.

(* ===================================================================== *)
(** ** Python lists: indexing and slicing *)
(* ===================================================================== *)

Definition len {A} (l : list A) : Z := Z.of_nat (List.length l).

(** [l[i]]: a negative index counts from the end, an index outside
    [-len(l) .. len(l)-1] raises [IndexError]. *)
Definition py_index {A} (l : list A) (i : Z) : outcome A :=
  let j := if i <? 0 then i + len l else i in
  if j <? 0 then raise IndexError
  else match nth_error l (Z.to_nat j) with
       | Some x => ret x
       | None => raise IndexError
       end.

(** [l[:n]]: the first [n] items, all but the last [-n] when [n] is
    negative. *)
Definition py_slice_to {A} (l : list A) (n : Z) : list A :=
  if n <? 0 then firstn (Z.to_nat (len l + n)) l else firstn (Z.to_nat n) l.

(** [x in l] on a list of ints. *)
Definition int_in (x : Z) (l : list Z) : bool := existsb (Z.eqb x) l.

(* ===================================================================== *)
(** ** Python values *)
(* ===================================================================== *)

#[local] Unset Elimination Schemes.
Inductive pyval : Type :=
| PNone
| PBool (b : bool)
| PInt (n : Z)
| PFloat (f : float)
| PStr (s : string)
| PList (items : list pyval)
| PDict (items : list (string * pyval)).
#[local] Set Elimination Schemes.

(** An entry of the store: a [Dict[str, Any]]. *)
Definition entry : Type := dict string pyval.

(** [Optional[int]] used as a condition: [None] and [0] are false. *)
Definition truthy_limit (limit : option Z) : bool :=
  match limit with
  | Some l => negb (l =? 0)
  | None => false
  end.

(** [limit and n >= limit] *)
Definition limit_reached (limit : option Z) (n : Z) : bool :=
  match limit with
  | Some l => negb (l =? 0) && (l <=? n)
  | None => false
  end.

(* ===================================================================== *)
(** ** Dates and timestamps ([datetime]) *)
(* ===================================================================== *)

(** A [date] is kept as its proleptic Gregorian ordinal
    ([date.toordinal()]): day 1 is 0001-01-01 ([date.min]) and day
    [MAXORDINAL] is 9999-12-31 ([date.max]). *)
Definition MAXORDINAL : Z := 3652059.

Record datetime : Type := {
  dt_date : Z;
  dt_hour : Z;
  dt_minute : Z;
  dt_second : Z;
  dt_microsecond : Z
}.

(** [timedelta(days=n)] *)
Definition timedelta_days (n : Z) : outcome Z :=
  if Z.abs n <=? 999999999 then ret n else raise OverflowError.

(** [d + timedelta(days=n)] on a date *)
Definition date_add (d n : Z) : outcome Z :=
  let r := d + n in
  if (1 <=? r) && (r <=? MAXORDINAL) then ret r else raise OverflowError.

Definition digit (d : Z) : ascii := ascii_of_nat (48 + Z.to_nat d).

(** [n] printed with exactly [width] digits *)
Fixpoint zfill (width : nat) (n : Z) (acc : string) : string :=
  match width with
  | O => acc
  | S w => zfill w (n / 10) (String (digit (n mod 10)) acc)
  end.

(** [n >= 0] printed without padding *)
Fixpoint decimal_digits (fuel : nat) (n : Z) (acc : string) : string :=
  match fuel with
  | O => acc
  | S f =>
      let acc' := String (digit (n mod 10)) acc in
      if n / 10 =? 0 then acc' else decimal_digits f (n / 10) acc'
  end.

Definition decimal (n : Z) : string := decimal_digits 20 n "".

Definition days_before_month (leap : bool) (month : Z) : Z :=
  nth (Z.to_nat month)
      [0; 0; 31; 59; 90; 120; 151; 181; 212; 243; 273; 304; 334] 0
  + (if (2 <? month) && leap then 1 else 0).

Definition days_in_month (leap : bool) (month : Z) : Z :=
  nth (Z.to_nat month) [0; 31; 28; 31; 30; 31; 30; 31; 31; 30; 31; 30; 31] 0
  + (if (month =? 2) && leap then 1 else 0).

(** Year, month and day of an ordinal, as [datetime._ord2ymd] computes
    them. *)
Definition ord2ymd (ordinal : Z) : Z * Z * Z :=
  let n := ordinal - 1 in
  let n400 := n / 146097 in
  let n := n mod 146097 in
  let year := n400 * 400 + 1 in
  let n100 := n / 36524 in
  let n := n mod 36524 in
  let n4 := n / 1461 in
  let n := n mod 1461 in
  let n1 := n / 365 in
  let n := n mod 365 in
  let year := year + n100 * 100 + n4 * 4 + n1 in
  if (n1 =? 4) || (n100 =? 4) then (year - 1, 12, 31)
  else
    let leapyear := (n1 =? 3) && (negb (n4 =? 24) || (n100 =? 3)) in
    let month := Z.shiftr (n + 50) 5 in
    let preceding := days_before_month leapyear month in
    if n <? preceding
    then (year, month - 1,
          n - (preceding - days_in_month leapyear (month - 1)) + 1)
    else (year, month, n - preceding + 1).

(** [d.strftime("%Y-%m-%d")]; the C library prints [%Y] without padding. *)
Definition strftime_Ymd (d : Z) : string :=
  let '(y, m, dd) := ord2ymd d in
  (decimal y ++ "-" ++ zfill 2 m "" ++ "-" ++ zfill 2 dd "")%string.

(** [dt.isoformat()] *)
Definition isoformat (dt : datetime) : string :=
  let '(y, m, dd) := ord2ymd (dt_date dt) in
  (zfill 4 y "" ++ "-" ++ zfill 2 m "" ++ "-" ++ zfill 2 dd "" ++ "T"
   ++ zfill 2 (dt_hour dt) "" ++ ":" ++ zfill 2 (dt_minute dt) "" ++ ":"
   ++ zfill 2 (dt_second dt) ""
   ++ (if Z.eqb (dt_microsecond dt) 0 then ""
       else "." ++ zfill 6 (dt_microsecond dt) ""))%string.

(* ===================================================================== *)
(** ** The store *)
(* ===================================================================== *)

(** The attributes of a [SullySearchMemory] object. *)
Record SullySearchMemory : Type := {
  storage : list entry;
  associations : dict string (list Z);
  temporal_index : dict string (list Z);
  memory_file : option string
}.

(** What [json.load] finds in a memory file. A JSON object is given by
    the three sections [_load_from_file] looks for, each present or not;
    a section that is present has the shape the store keeps in the
    attribute of the same name. Any other content (a text that is not
    JSON, or a JSON array, string, number, boolean or null) is
    [NotAnObject]. *)
Inductive document : Type :=
| JsonObject (doc_storage : option (list entry))
             (doc_associations : option (dict string (list Z)))
             (doc_temporal_index : option (dict string (list Z)))
| NotAnObject.

(** The files on disk, by path. *)
Definition filesystem : Type := dict string document.

Record world : Type := {
  self : SullySearchMemory;
  files : filesystem
}.

(** [Optional[str]] used as a condition: the path when it is neither
    [None] nor empty. *)
Definition truthy_path (p : option string) : option string :=
  match p with
  | Some "" => None
  | Some path => Some path
  | None => None
  end.

Definition export_full_system (s : SullySearchMemory) : document :=
  JsonObject (Some (storage s)) (Some (associations s))
             (Some (temporal_index s)).

(** The body of the [try] of [_load_from_file], on the loaded [data]. On
    anything but an object either the three [in] tests are false or one of
    them (or the subscript after it) raises before any assignment, and the
    handler only prints. *)
Definition restore (data : document) (s : SullySearchMemory)
  : SullySearchMemory :=
  match data with
  | NotAnObject => s
  | JsonObject st assoc ti =>
      let s1 := match st with
                | Some v => {| storage := v;
                               associations := associations s;
                               temporal_index := temporal_index s;
                               memory_file := memory_file s |}
                | None => s
                end in
      let s2 := match assoc with
                | Some v => {| storage := storage s1;
                               associations := v;
                               temporal_index := temporal_index s1;
                               memory_file := memory_file s1 |}
                | None => s1
                end in
      match ti with
      | Some v => {| storage := storage s2;
                     associations := associations s2;
                     temporal_index := v;
                     memory_file := memory_file s2 |}
      | None => s2
      end
  end.

(** [_load_from_file]: every exception of the [try] is caught and
    printed, the method returns [None]. *)
Definition _load_from_file (w : world) : outcome unit * world :=
  match truthy_path (memory_file (self w)) with
  | None => (ret tt, w)
  | Some path =>
      match dict_get path (files w) with
      | None => (ret tt, w)
      | Some data =>
          (ret tt, {| self := restore data (self w); files := files w |})
      end
  end.

Definition _save_to_file (w : world) : world :=
  match truthy_path (memory_file (self w)) with
  | None => w
  | Some path =>
      {| self := self w;
         files := dict_set path (export_full_system (self w)) (files w) |}
  end.

(** [SullySearchMemory(memory_file)]; the constructor loads the file
    when there is one, inside a [try] of its own. *)
Definition __init__ (memory_file : option string) (fs : filesystem) : world :=
  snd (_load_from_file
         {| self := {| storage := []; associations := [];
                       temporal_index := []; memory_file := memory_file |};
            files := fs |}).

Definition clear_memory (w : world) : string * world :=
  ("[Memory system cleared]",
   {| self := {| storage := []; associations := []; temporal_index := [];
                 memory_file := memory_file (self w) |};
      files := match truthy_path (memory_file (self w)) with
               | Some path => dict_del path (files w)
               | None => files w
               end |}).

(** [d[key].append(x)] after [if key not in d: d[key] = []] *)
Definition append_at (key : string) (x : Z) (d : dict string (list Z))
  : dict string (list Z) :=
  let d' := if dict_mem key d then d else dict_set key [] d in
  match dict_get key d' with
  | Some l => dict_set key (l ++ [x]) d'
  | None => d'
  end.

Definition _add_association (concept : string) (memory_index : Z)
  (assoc : dict string (list Z)) : dict string (list Z) :=
  let concept_lower := lower concept in
  let assoc' := if dict_mem concept_lower assoc then assoc
                else dict_set concept_lower [] assoc in
  match dict_get concept_lower assoc' with
  | Some l =>
      if int_in memory_index l then assoc'
      else dict_set concept_lower (l ++ [memory_index]) assoc'
  | None => assoc'
  end.

(** [for concept in concepts: self._add_association(concept, i)] *)
Definition add_associations (concepts : list string) (memory_index : Z)
  (assoc : dict string (list Z)) : dict string (list Z) :=
  fold_left (fun a c => _add_association c memory_index a) concepts assoc.

(* ===================================================================== *)
(** ** Storing *)
(* ===================================================================== *)

Section Runtime.

(** What the Python runtime and its libraries decide: the matches of the
    two regular expressions of [_extract_key_concepts], the order in which
    a [set] of strings is iterated (it changes with the hash seed), the
    order in which the intersection of two sets of ints is iterated, and
    the two date parsers ([None] for a [ValueError]). *)
Variable re_findall_capitalized : string -> list string.
Variable re_findall_phrases : string -> list string.
Variable set_iter : list string -> list string.
Variable set_intersection_iter : list Z -> list Z -> list Z.
Variable fromisoformat : string -> option datetime.
Variable strptime_Ymd : string -> option datetime.

Definition _extract_key_concepts (text : string) : list string :=
  let capitalized := re_findall_capitalized text in
  let phrases := re_findall_phrases (lower text) in
  let all_concepts := set_iter (capitalized ++ phrases) in
  firstn 10 all_concepts.

Definition _index_concepts (memory_index : Z) (query : string)
  (result : pyval) (assoc : dict string (list Z)) : dict string (list Z) :=
  let query_concepts := _extract_key_concepts query in
  let result_concepts :=
    match result with
    | PStr s => _extract_key_concepts s
    | PDict d =>
        match dict_get "response" d with
        | Some (PStr r) => _extract_key_concepts r
        | _ => []
        end
    | _ => []
    end in
  let all_concepts := set_iter (query_concepts ++ result_concepts) in
  add_associations all_concepts memory_index assoc.

Definition store_query (timestamp : datetime) (query : string)
  (result : pyval) (metadata : option (dict string pyval)) (w : world)
  : Z * world :=
  let entry := [("query", PStr query); ("result", result);
                ("timestamp", PStr (isoformat timestamp));
                ("type", PStr "query")] in
  let entry := match metadata with
               | Some ((_ :: _) as md) => dict_set "metadata" (PDict md) entry
               | _ => entry
               end in
  let memory_index := len (storage (self w)) in
  let time_key := strftime_Ymd (dt_date timestamp) in
  (memory_index,
   _save_to_file
     {| self :=
          {| storage := storage (self w) ++ [entry];
             associations :=
               _index_concepts memory_index query result
                               (associations (self w));
             temporal_index :=
               append_at time_key memory_index (temporal_index (self w));
             memory_file := memory_file (self w) |};
        files := files w |}).

Definition store_experience (timestamp : datetime) (content source : string)
  (concepts : option (list string)) (importance : float) (w : world)
  : Z * world :=
  let entry := [("content", PStr content); ("source", PStr source);
                ("timestamp", PStr (isoformat timestamp));
                ("importance", PFloat importance);
                ("type", PStr "experience")] in
  let entry := match concepts with
               | Some ((_ :: _) as cs) =>
                   dict_set "concepts" (PList (map PStr cs)) entry
               | _ => entry
               end in
  let memory_index := len (storage (self w)) in
  let time_key := strftime_Ymd (dt_date timestamp) in
  let to_index := match concepts with
                  | Some ((_ :: _) as cs) => cs
                  | _ => _extract_key_concepts content
                  end in
  (memory_index,
   _save_to_file
     {| self :=
          {| storage := storage (self w) ++ [entry];
             associations :=
               add_associations to_index memory_index
                                (associations (self w));
             temporal_index :=
               append_at time_key memory_index (temporal_index (self w));
             memory_file := memory_file (self w) |};
        files := files w |}).

(* ===================================================================== *)
(** ** Searching *)
(* ===================================================================== *)

(** [needle in haystack] for a string [needle]: a substring test on a
    string, a membership test on a list, a key test on a dict, a
    [TypeError] on anything else. *)
Definition py_str_in (needle : string) (haystack : pyval) : outcome bool :=
  match haystack with
  | PStr s => ret (str_in needle s)
  | PList items =>
      ret (existsb (fun v => match v with
                             | PStr s => String.eqb needle s
                             | _ => false
                             end) items)
  | PDict items => ret (dict_mem needle items)
  | _ => raise TypeError
  end.

(** [v.lower()] *)
Definition py_lower (v : pyval) : outcome pyval :=
  match v with
  | PStr s => ret (PStr (lower s))
  | _ => raise AttributeError
  end.

(** The test of one field:
    [haystack = field if case_sensitive else field.lower()],
    [needle = keyword if case_sensitive else keyword.lower()],
    [needle in haystack]. *)
Definition field_matches (case_sensitive : bool) (keyword : string)
  (field : pyval) : outcome bool :=
  haystack <- (if case_sensitive then ret field else py_lower field) ;;
  let needle := if case_sensitive then keyword else lower keyword in
  py_str_in needle haystack.

(** The body of the direct loop of [search] up to the limit test: the
    entry [i] goes through the tests of "query", of a string "result" and
    of "content", each skipped once [entry_matched] is set. *)
Definition scan_entry (case_sensitive : bool) (keyword : string) (i : Z)
  (e : entry) (direct_matches : dict Z entry) : outcome (dict Z entry) :=
  '(direct_matches, entry_matched) <-
     match dict_get "query" e with
     | Some q =>
         b <- field_matches case_sensitive keyword q ;;
         ret (if b then (dict_set i e direct_matches, true)
              else (direct_matches, false))
     | None => ret (direct_matches, false)
     end ;;
  '(direct_matches, entry_matched) <-
     (if negb entry_matched then
        match dict_get "result" e with
        | Some (PStr r) =>
            b <- field_matches case_sensitive keyword (PStr r) ;;
            ret (if b then (dict_set i e direct_matches, true)
                 else (direct_matches, entry_matched))
        | _ => ret (direct_matches, entry_matched)
        end
      else ret (direct_matches, entry_matched)) ;;
  (if negb entry_matched then
     match dict_get "content" e with
     | Some c =>
         b <- field_matches case_sensitive keyword c ;;
         ret (if b then dict_set i e direct_matches else direct_matches)
     | None => ret direct_matches
     end
   else ret direct_matches).

(** [for i, entry in enumerate(self.storage)], from entry [i] on. *)
Fixpoint direct_scan (case_sensitive : bool) (keyword : string)
  (limit : option Z) (entries : list entry) (i : Z)
  (direct_matches : dict Z entry) : outcome (dict Z entry) :=
  match entries with
  | [] => ret direct_matches
  | e :: rest =>
      direct_matches <- scan_entry case_sensitive keyword i e direct_matches ;;
      if limit_reached limit (dict_len direct_matches) then ret direct_matches
      else direct_scan case_sensitive keyword limit rest (i + 1) direct_matches
  end.

(** [for memory_index in indices: if memory_index not in matches: ...],
    left at the [break]. *)
Fixpoint add_associated (store : list entry) (limit : option Z)
  (indices : list Z) (matches : dict Z entry) : outcome (dict Z entry) :=
  match indices with
  | [] => ret matches
  | memory_index :: rest =>
      if dict_mem memory_index matches
      then add_associated store limit rest matches
      else
        e <- py_index store memory_index ;;
        let matches := dict_set memory_index e matches in
        if limit_reached limit (dict_len matches) then ret matches
        else add_associated store limit rest matches
  end.

(** [for concept, indices in self.associations.items()] *)
Fixpoint scan_concepts (store : list entry) (limit : option Z)
  (needle : string) (items : list (string * list Z))
  (matches : dict Z entry) : outcome (dict Z entry) :=
  match items with
  | [] => ret matches
  | (concept, indices) :: rest =>
      if str_in needle concept && negb (String.eqb concept needle) then
        matches <- add_associated store limit indices matches ;;
        if limit_reached limit (dict_len matches) then ret matches
        else scan_concepts store limit needle rest matches
      else scan_concepts store limit needle rest matches
  end.

(** [n < (limit or float('inf'))] *)
Definition below_limit (limit : option Z) (n : Z) : bool :=
  match limit with
  | Some l => if l =? 0 then true else n <? l
  | None => true
  end.

Definition search (s : SullySearchMemory) (keyword : string)
  (case_sensitive : bool) (limit : option Z) (include_associations : bool)
  : outcome (dict Z entry) :=
  direct_matches <-
    direct_scan case_sensitive keyword limit (storage s) 0 [] ;;
  if negb include_associations
     || limit_reached limit (dict_len direct_matches)
  then ret direct_matches
  else
    let matches := direct_matches in
    let needle := lower keyword in
    matches <-
      match dict_get needle (associations s) with
      | Some indices => add_associated (storage s) limit indices matches
      | None => ret matches
      end ;;
    if below_limit limit (dict_len matches)
    then scan_concepts (storage s) limit needle (associations s) matches
    else ret matches.

(* ===================================================================== *)
(** ** Temporal context, associated memories, connections *)
(* ===================================================================== *)

(** [[self.storage[idx] for idx in indices]] *)
Fixpoint materialize (store : list entry) (indices : list Z)
  : outcome (list entry) :=
  match indices with
  | [] => ret []
  | idx :: rest =>
      e <- py_index store idx ;;
      es <- materialize store rest ;;
      ret (e :: es)
  end.

Inductive timestamp_or_date : Type :=
| OfStr (s : string)
| OfDatetime (dt : datetime).

Definition inspect {A} (a : A) : {b : A | a = b} := exist _ a eq_refl.

(** [while current_date <= end_date: ...; current_date += timedelta(days=1)] *)
Equations? window_loop (index : dict string (list Z)) (end_date : Z)
  (current_date : Z) (window_memories : list Z) : outcome (list Z)
  by wf (Z.to_nat (end_date + 1 - current_date)) lt :=
window_loop index end_date current_date window_memories
  with Z_le_gt_dec current_date end_date => {
  | right _ := ret window_memories
  | left _ with inspect (date_add current_date 1) => {
    | exist _ (inl e) _ := raise e
    | exist _ (inr next) _ :=
        window_loop index end_date next
          (match dict_get (strftime_Ymd current_date) index with
           | Some ids => window_memories ++ ids
           | None => window_memories
           end) } }.
Proof.
  unfold date_add in *.
  destruct ((1 <=? current_date + 1) && (current_date + 1 <=? MAXORDINAL));
    [ | discriminate ].
  assert (next = current_date + 1) by (unfold ret in *; congruence).
  lia.
Qed.

Definition get_temporal_context (s : SullySearchMemory)
  (timestamp_or_date : timestamp_or_date) (window_days : Z)
  (limit : option Z) : outcome (list entry) :=
  let target :=
    match timestamp_or_date with
    | OfStr str =>
        match fromisoformat str with
        | Some dt => Some (dt_date dt)
        | None =>
            match strptime_Ymd str with
            | Some dt => Some (dt_date dt)
            | None => None
            end
        end
    | OfDatetime dt => Some (dt_date dt)
    end in
  match target with
  | None => ret []
  | Some target_date =>
      delta <- timedelta_days window_days ;;
      start_date <- date_add target_date (- delta) ;;
      delta <- timedelta_days window_days ;;
      end_date <- date_add target_date delta ;;
      window_memories <-
        window_loop (temporal_index s) end_date start_date [] ;;
      let window_memories :=
        match limit with
        | Some l => if l =? 0 then window_memories
                    else py_slice_to window_memories l
        | None => window_memories
        end in
      materialize (storage s) window_memories
  end.

Definition get_associated_memories (s : SullySearchMemory) (concept : string)
  (limit : option Z) : outcome (list entry) :=
  let concept_lower := lower concept in
  match dict_get concept_lower (associations s) with
  | None => ret []
  | Some indices =>
      let indices :=
        match limit with
        | Some l => if l =? 0 then indices else py_slice_to indices l
        | None => indices
        end in
      materialize (storage s) indices
  end.

Definition find_connections (s : SullySearchMemory) (concept1 concept2 : string)
  : outcome (list entry) :=
  let concept1_lower := lower concept1 in
  let concept2_lower := lower concept2 in
  match dict_get concept1_lower (associations s),
        dict_get concept2_lower (associations s) with
  | Some indices1, Some indices2 =>
      let common_indices := set_intersection_iter indices1 indices2 in
      materialize (storage s) common_indices
  | _, _ => ret []
  end.

(* ===================================================================== *)
(** ** The public operations as calls on a store *)
(* ===================================================================== *)

Inductive call : Type :=
| StoreQuery (timestamp : datetime) (query : string) (result : pyval)
             (metadata : option (dict string pyval))
| StoreExperience (timestamp : datetime) (content source : string)
                  (concepts : option (list string)) (importance : float)
| Search (keyword : string) (case_sensitive : bool) (limit : option Z)
         (include_associations : bool)
| GetTemporalContext (t : timestamp_or_date) (window_days : Z)
                     (limit : option Z)
| GetAssociatedMemories (concept : string) (limit : option Z)
| FindConnections (concept1 concept2 : string)
| ClearMemory.

Inductive retval : Type :=
| RInt (n : Z)
| RMatches (m : dict Z entry)
| REntries (l : list entry)
| RStr (s : string).

(** One call: what it returns or raises, and the world after it. *)
Definition exec (c : call) (w : world) : outcome retval * world :=
  match c with
  | StoreQuery t q r md =>
      let '(i, w') := store_query t q r md w in (ret (RInt i), w')
  | StoreExperience t c src cs imp =>
      let '(i, w') := store_experience t c src cs imp w in (ret (RInt i), w')
  | Search k cs l ia =>
      (m <- search (self w) k cs l ia ;; ret (RMatches m), w)
  | GetTemporalContext t d l =>
      (es <- get_temporal_context (self w) t d l ;; ret (REntries es), w)
  | GetAssociatedMemories c l =>
      (es <- get_associated_memories (self w) c l ;; ret (REntries es), w)
  | FindConnections c1 c2 =>
      (es <- find_connections (self w) c1 c2 ;; ret (REntries es), w)
  | ClearMemory =>
      let '(msg, w') := clear_memory w in (ret (RStr msg), w')
  end.

(** A sequence of calls, with the outcome of each. *)
Fixpoint run (calls : list call) (w : world)
  : list (outcome retval) * world :=
  match calls with
  | [] => ([], w)
  | c :: rest =>
      let '(r, w') := exec c w in
      let '(rs, w'') := run rest w' in
      (r :: rs, w'')
  end.

Definition is_store_call (c : call) : bool :=
  match c with
  | StoreQuery _ _ _ _ | StoreExperience _ _ _ _ _ => true
  | _ => false
  end.

End Runtime.


(* ===================================================================== *)
(** ** Size, export and summary *)
(* ===================================================================== *)

(** [len(memory)] *)
Definition __len__ (s : SullySearchMemory) : Z := len (storage s).

Definition export_memory (s : SullySearchMemory) : list entry := storage s.

(** [d.strftime("%Y-%m")] and [d.strftime("%Y")] *)
Definition strftime_Ym (d : Z) : string :=
  let '(y, m, _) := ord2ymd d in
  (decimal y ++ "-" ++ zfill 2 m "")%string.

Definition strftime_Y (d : Z) : string :=
  let '(y, _, _) := ord2ymd d in decimal y.

(** The key of a timestamp for a period: by day, by month or by year, and
    by day for any other period. *)
Definition period_key (period : string) (timestamp : datetime) : string :=
  if String.eqb period "day" then strftime_Ymd (dt_date timestamp)
  else if String.eqb period "month" then strftime_Ym (dt_date timestamp)
  else if String.eqb period "year" then strftime_Y (dt_date timestamp)
  else strftime_Ymd (dt_date timestamp).

(** [if key not in summary: summary[key] = 0] then [summary[key] += 1] *)
Definition count_in (key : string) (summary : dict string Z)
  : dict string Z :=
  let summary := if dict_mem key summary then summary
                 else dict_set key 0 summary in
  match dict_get key summary with
  | Some n => dict_set key (n + 1) summary
  | None => summary
  end.

Section Summary.

(** [datetime.fromisoformat] on a string, [None] for a [ValueError]. *)
Variable fromisoformat : string -> option datetime.

(** [for entry in self.storage] of [summarize_by_time]: an entry without
    a timestamp is passed over, and so is one whose timestamp is a string
    that does not parse; a timestamp that is no string is a [TypeError],
    which the [except ValueError] does not catch. *)
Fixpoint summarize_entries (period : string) (entries : list entry)
  (summary : dict string Z) : outcome (dict string Z) :=
  match entries with
  | [] => ret summary
  | e :: rest =>
      match dict_get "timestamp" e with
      | None => summarize_entries period rest summary
      | Some (PStr text) =>
          match fromisoformat text with
          | Some timestamp =>
              summarize_entries period rest
                (count_in (period_key period timestamp) summary)
          | None => summarize_entries period rest summary
          end
      | Some _ => raise TypeError
      end
  end.

Definition summarize_by_time (s : SullySearchMemory) (period : string)
  : outcome (dict string Z) :=
  summarize_entries period (storage s) [].

End Summary.

(* ===================================================================== *)
(** ** The read methods on the objects of the store *)
(* ===================================================================== *)

(** The methods above take the store by value. Python's lists and dicts
    are objects that are shared: [self.associations[needle]] is the list
    the index holds, not a copy of it, and [direct_matches[i] = entry]
    puts the entry itself into the mapping. To say what a method does to
    the objects of the store, the four read methods are written here once
    more, statement by statement, as actions on a heap of objects: every
    list and dict a method creates is allocated, and every [d[k] = v] and
    [l.extend(...)] is an update of the object at an address. A [for]
    loop runs over the items its list or dict holds when it starts; an
    attribute and an item are read again at every use. *)

Definition addr : Type := nat.

Inductive object : Type :=
| Instance (storage associations temporal_index : addr)
           (memory_file : option string)   (* a [SullySearchMemory] *)
| EntryList (items : list addr)            (* a list of entries *)
| EntryDict (fields : entry)               (* an entry *)
| IndexDict (items : dict string addr)     (* a dict from a key to a list of ids *)
| IdList (items : list Z)                  (* a list of ids *)
| IdSet (members : list Z)                 (* a set of ids *)
| MatchDict (items : dict Z addr).         (* a dict from an id to an entry *)

(** The heap: the object at address [a] is the item [a]. *)
Definition heap : Type := list object.

(** An action returns or raises, and leaves a heap. *)
Definition action (A : Type) : Type := heap -> outcome A * heap.

Definition unit_ {A} (a : A) : action A := fun h => (ret a, h).

Definition and_then {A B} (m : action A) (k : A -> action B) : action B :=
  fun h =>
    match m h with
    | (inl e, h') => (inl e, h')
    | (inr a, h') => k a h'
    end.

Notation "x <~ m ;; k" := (and_then m (fun x => k))
  (at level 61, m at next level, right associativity).

(** What is computed without the heap. *)
Definition lift {A} (o : outcome A) : action A := fun h => (o, h).

(** A new object, at the next address. *)
Definition new (o : object) : action addr :=
  fun h => (ret (List.length h), h ++ [o]).

(** The object at an address. In a Python heap every reference leads to
    an object, of the kind the statement expects; where it does not, the
    action raises [TypeError]. *)
Definition object_at (a : addr) : action object :=
  fun h =>
    match nth_error h a with
    | Some o => (ret o, h)
    | None => (raise TypeError, h)
    end.

(** The object at an address is replaced: the mutation of an object. *)
Definition update (a : addr) (o : object) : action unit :=
  fun h =>
    match nth_error h a with
    | Some _ => (ret tt, firstn a h ++ o :: skipn (S a) h)
    | None => (raise TypeError, h)
    end.

(** [self.storage], [self.associations], [self.temporal_index] *)
Definition storage_of (self : addr) : action addr :=
  o <~ object_at self ;;
  match o with
  | Instance storage _ _ _ => unit_ storage
  | _ => lift (raise AttributeError)
  end.

Definition associations_of (self : addr) : action addr :=
  o <~ object_at self ;;
  match o with
  | Instance _ associations _ _ => unit_ associations
  | _ => lift (raise AttributeError)
  end.

Definition temporal_index_of (self : addr) : action addr :=
  o <~ object_at self ;;
  match o with
  | Instance _ _ temporal_index _ => unit_ temporal_index
  | _ => lift (raise AttributeError)
  end.

(** What an object of each kind holds. *)
Definition entry_list (a : addr) : action (list addr) :=
  o <~ object_at a ;;
  match o with EntryList items => unit_ items | _ => lift (raise TypeError) end.

Definition entry_dict (a : addr) : action entry :=
  o <~ object_at a ;;
  match o with EntryDict fields => unit_ fields | _ => lift (raise TypeError) end.

Definition index_dict (a : addr) : action (dict string addr) :=
  o <~ object_at a ;;
  match o with IndexDict items => unit_ items | _ => lift (raise TypeError) end.

Definition id_list (a : addr) : action (list Z) :=
  o <~ object_at a ;;
  match o with IdList items => unit_ items | _ => lift (raise TypeError) end.

Definition id_set (a : addr) : action (list Z) :=
  o <~ object_at a ;;
  match o with IdSet members => unit_ members | _ => lift (raise TypeError) end.

Definition match_dict (a : addr) : action (dict Z addr) :=
  o <~ object_at a ;;
  match o with MatchDict items => unit_ items | _ => lift (raise TypeError) end.

(** [matches[i] = entry] *)
Definition set_match (matches : addr) (i : Z) (entry : addr) : action unit :=
  items <~ match_dict matches ;;
  update matches (MatchDict (dict_set i entry items)).

(** [limit and len(matches) >= limit] *)
Definition limit_reached_in (limit : option Z) (matches : addr)
  : action bool :=
  items <~ match_dict matches ;;
  unit_ (limit_reached limit (dict_len items)).

(** The body of the direct loop of [search] up to the limit test. *)
Definition scan_entry_on_heap (case_sensitive : bool) (keyword : string)
  (i : Z) (entry : addr) (direct_matches : addr) : action unit :=
  entry_matched <~
    (fields <~ entry_dict entry ;;
     match dict_get "query" fields with
     | Some q =>
         b <~ lift (field_matches case_sensitive keyword q) ;;
         if b then done <~ set_match direct_matches i entry ;; unit_ true
         else unit_ false
     | None => unit_ false
     end) ;;
  entry_matched <~
    (if negb entry_matched then
       fields <~ entry_dict entry ;;
       match dict_get "result" fields with
       | Some (PStr r) =>
           b <~ lift (field_matches case_sensitive keyword (PStr r)) ;;
           if b then done <~ set_match direct_matches i entry ;; unit_ true
           else unit_ entry_matched
       | _ => unit_ entry_matched
       end
     else unit_ entry_matched) ;;
  (if negb entry_matched then
     fields <~ entry_dict entry ;;
     match dict_get "content" fields with
     | Some c =>
         b <~ lift (field_matches case_sensitive keyword c) ;;
         if b then set_match direct_matches i entry else unit_ tt
     | None => unit_ tt
     end
   else unit_ tt).

(** [for i, entry in enumerate(self.storage)], from entry [i] on, over
    the entries the list holds. *)
Fixpoint direct_scan_on_heap (case_sensitive : bool) (keyword : string)
  (limit : option Z) (entries : list addr) (i : Z) (direct_matches : addr)
  : action unit :=
  match entries with
  | [] => unit_ tt
  | entry :: rest =>
      done <~ scan_entry_on_heap case_sensitive keyword i entry direct_matches ;;
      reached <~ limit_reached_in limit direct_matches ;;
      if reached then unit_ tt
      else direct_scan_on_heap case_sensitive keyword limit rest (i + 1)
                               direct_matches
  end.

(** [self.storage[memory_index]] *)
Definition stored_entry (self : addr) (memory_index : Z) : action addr :=
  storage <~ storage_of self ;;
  entries <~ entry_list storage ;;
  lift (py_index entries memory_index).

(** [for memory_index in indices: if memory_index not in matches: ...],
    left at the [break]. *)
Fixpoint add_associated_on_heap (self : addr) (limit : option Z)
  (indices : list Z) (matches : addr) : action unit :=
  match indices with
  | [] => unit_ tt
  | memory_index :: rest =>
      items <~ match_dict matches ;;
      if dict_mem memory_index items
      then add_associated_on_heap self limit rest matches
      else
        entry <~ stored_entry self memory_index ;;
        done <~ set_match matches memory_index entry ;;
        reached <~ limit_reached_in limit matches ;;
        if reached then unit_ tt
        else add_associated_on_heap self limit rest matches
  end.

(** [for concept, indices in self.associations.items()] *)
Fixpoint scan_concepts_on_heap (self : addr) (limit : option Z)
  (needle : string) (items : list (string * addr)) (matches : addr)
  : action unit :=
  match items with
  | [] => unit_ tt
  | (concept, indices) :: rest =>
      if str_in needle concept && negb (String.eqb concept needle) then
        ids <~ id_list indices ;;
        done <~ add_associated_on_heap self limit ids matches ;;
        reached <~ limit_reached_in limit matches ;;
        if reached then unit_ tt
        else scan_concepts_on_heap self limit needle rest matches
      else scan_concepts_on_heap self limit needle rest matches
  end.

(** [search]: the address of the mapping it returns. *)
Definition search_on_heap (self : addr) (keyword : string)
  (case_sensitive : bool) (limit : option Z) (include_associations : bool)
  : action addr :=
  direct_matches <~ new (MatchDict []) ;;
  storage <~ storage_of self ;;
  entries <~ entry_list storage ;;
  done <~ direct_scan_on_heap case_sensitive keyword limit entries 0
                           direct_matches ;;
  reached <~ limit_reached_in limit direct_matches ;;
  if negb include_associations || reached then unit_ direct_matches
  else
    items <~ match_dict direct_matches ;;
    matches <~ new (MatchDict items) ;;
    let needle := lower keyword in
    associations <~ associations_of self ;;
    index <~ index_dict associations ;;
    done <~ match dict_get needle index with
         | Some indices =>
             ids <~ id_list indices ;;
             add_associated_on_heap self limit ids matches
         | None => unit_ tt
         end ;;
    items <~ match_dict matches ;;
    if below_limit limit (dict_len items) then
      associations <~ associations_of self ;;
      index <~ index_dict associations ;;
      done <~ scan_concepts_on_heap self limit needle index matches ;;
      unit_ matches
    else unit_ matches.

(** [[self.storage[idx] for idx in indices]]: the entries, then the list
    that holds them. *)
Fixpoint stored_entries (self : addr) (indices : list Z)
  : action (list addr) :=
  match indices with
  | [] => unit_ []
  | idx :: rest =>
      e <~ stored_entry self idx ;;
      es <~ stored_entries self rest ;;
      unit_ (e :: es)
  end.

Definition materialize_on_heap (self : addr) (indices : addr)
  : action addr :=
  ids <~ id_list indices ;;
  es <~ stored_entries self ids ;;
  new (EntryList es).

(** [if limit: indices = indices[:limit]]: the slice is a new list. *)
Definition limited_on_heap (limit : option Z) (indices : addr)
  : action addr :=
  match limit with
  | Some l =>
      if l =? 0 then unit_ indices
      else ids <~ id_list indices ;; new (IdList (py_slice_to ids l))
  | None => unit_ indices
  end.

(** [if date_key in self.temporal_index:
        window_memories.extend(self.temporal_index[date_key])] *)
Definition extend_with_day (self : addr) (day : Z) (window_memories : addr)
  : action unit :=
  temporal_index <~ temporal_index_of self ;;
  index <~ index_dict temporal_index ;;
  match dict_get (strftime_Ymd day) index with
  | Some bucket =>
      more <~ id_list bucket ;;
      mine <~ id_list window_memories ;;
      update window_memories (IdList (mine ++ more))
  | None => unit_ tt
  end.

(** The rest of a loop after one run of its body: nothing when the body
    raised, the exception when the step to the next day raises, and else
    the loop from the next day on. *)
Definition after_body (body : outcome unit * heap) (step : outcome Z)
  (rest : Z -> heap -> outcome unit * heap) : outcome unit * heap :=
  match body with
  | (inl e, h') => (inl e, h')
  | (inr _, h') =>
      match step with
      | inl e => (inl e, h')
      | inr next => rest next h'
      end
  end.

(** [while current_date <= end_date: ...; current_date += timedelta(days=1)] *)
Equations? window_loop_on_heap (self : addr) (end_date current_date : Z)
  (window_memories : addr) (h : heap) : outcome unit * heap
  by wf (Z.to_nat (end_date + 1 - current_date)) lt :=
window_loop_on_heap self end_date current_date window_memories h
  with Z_le_gt_dec current_date end_date => {
  | right _ := (ret tt, h)
  | left _ with inspect (date_add current_date 1) => {
    | exist _ (inl e) _ :=
        after_body (extend_with_day self current_date window_memories h)
                   (inl e) (fun _ h' => (ret tt, h'))
    | exist _ (inr next) _ :=
        after_body (extend_with_day self current_date window_memories h)
                   (inr next)
                   (fun _ h' =>
                      window_loop_on_heap self end_date next
                                          window_memories h') } }.
Proof.
  unfold date_add in *.
  destruct ((1 <=? current_date + 1) && (current_date + 1 <=? MAXORDINAL));
    [ | discriminate ].
  assert (next = current_date + 1) by (unfold ret in *; congruence).
  lia.
Qed.

Section HeapRuntime.

Variable set_intersection_iter : list Z -> list Z -> list Z.
Variable fromisoformat : string -> option datetime.
Variable strptime_Ymd : string -> option datetime.

(** The date a temporal context is taken around: of a string what one of
    the two parsers reads, of a [datetime] its date. *)
Definition target_date_of (timestamp_or_date : timestamp_or_date)
  : option Z :=
  match timestamp_or_date with
  | OfStr str =>
      match fromisoformat str with
      | Some dt => Some (dt_date dt)
      | None =>
          match strptime_Ymd str with
          | Some dt => Some (dt_date dt)
          | None => None
          end
      end
  | OfDatetime dt => Some (dt_date dt)
  end.

Definition get_temporal_context_on_heap (self : addr)
  (timestamp_or_date : timestamp_or_date) (window_days : Z)
  (limit : option Z) : action addr :=
  match target_date_of timestamp_or_date with
  | None => new (EntryList [])
  | Some target_date =>
      delta <~ lift (timedelta_days window_days) ;;
      start_date <~ lift (date_add target_date (- delta)) ;;
      delta <~ lift (timedelta_days window_days) ;;
      end_date <~ lift (date_add target_date delta) ;;
      window_memories <~ new (IdList []) ;;
      done <~ window_loop_on_heap self end_date start_date window_memories ;;
      window_memories <~ limited_on_heap limit window_memories ;;
      materialize_on_heap self window_memories
  end.

Definition get_associated_memories_on_heap (self : addr) (concept : string)
  (limit : option Z) : action addr :=
  let concept_lower := lower concept in
  associations <~ associations_of self ;;
  index <~ index_dict associations ;;
  match dict_get concept_lower index with
  | None => new (EntryList [])
  | Some indices =>
      indices <~ limited_on_heap limit indices ;;
      materialize_on_heap self indices
  end.

(** [[self.storage[idx] for idx in common_indices]], in the order in
    which the runtime iterates the set. *)
Definition find_connections_on_heap (self : addr)
  (concept1 concept2 : string) : action addr :=
  let concept1_lower := lower concept1 in
  let concept2_lower := lower concept2 in
  associations <~ associations_of self ;;
  index <~ index_dict associations ;;
  match dict_get concept1_lower index, dict_get concept2_lower index with
  | Some list1, Some list2 =>
      ids1 <~ id_list list1 ;;
      indices1 <~ new (IdSet ids1) ;;
      ids2 <~ id_list list2 ;;
      indices2 <~ new (IdSet ids2) ;;
      members1 <~ id_set indices1 ;;
      members2 <~ id_set indices2 ;;
      common_indices <~ new (IdSet (set_intersection_iter members1 members2)) ;;
      common <~ id_set common_indices ;;
      es <~ stored_entries self common ;;
      new (EntryList es)
  | _, _ => new (EntryList [])
  end.

End HeapRuntime.

(** *** The store a heap holds *)

(** All the items, when each one is there. *)
Fixpoint all_of {A} (l : list (option A)) : option (list A) :=
  match l with
  | [] => Some []
  | Some x :: rest =>
      match all_of rest with
      | Some xs => Some (x :: xs)
      | None => None
      end
  | None :: _ => None
  end.

Definition entry_in (h : heap) (a : addr) : option entry :=
  match nth_error h a with
  | Some (EntryDict fields) => Some fields
  | _ => None
  end.

Definition ids_in (h : heap) (item : string * addr)
  : option (string * list Z) :=
  match nth_error h (snd item) with
  | Some (IdList ids) => Some (fst item, ids)
  | _ => None
  end.

Definition index_in (h : heap) (a : addr) : option (dict string (list Z)) :=
  match nth_error h a with
  | Some (IndexDict items) => all_of (map (ids_in h) items)
  | _ => None
  end.

Definition entries_in (h : heap) (a : addr) : option (list entry) :=
  match nth_error h a with
  | Some (EntryList items) => all_of (map (entry_in h) items)
  | _ => None
  end.

(** The value of the store whose instance is at [self]: its records, its
    concept index and its temporal index, read through the objects. *)
Definition store_in (h : heap) (self : addr) : option SullySearchMemory :=
  match nth_error h self with
  | Some (Instance storage associations temporal_index memory_file) =>
      match entries_in h storage, index_in h associations,
            index_in h temporal_index with
      | Some es, Some assoc, Some ti =>
          Some {| storage := es; associations := assoc;
                  temporal_index := ti; memory_file := memory_file |}
      | _, _, _ => None
      end
  | _ => None
  end.



(** *** A store laid out on a heap *)




(* ===================================================================== *)
(** ** Python values in general, and what JSON keeps of them *)
(* ===================================================================== *)

(** The store carries [result: Any]: what a caller hands in need not be
    a value of [pyval]. The values here add to those of [pyval] the
    tuples, the dicts whose keys are not all strings, and the sets; a
    float stands for the number it is, and the text [json.dump] writes
    for it is the [repr] that [float] reads back as the same number. *)


#[local] Unset Elimination Schemes.

#[local] Set Elimination Schemes.



Section Traverse.
Context {A B : Type}.
Variable f : A -> outcome B.


End Traverse.





(** *** The snapshot of an instance *)








(** *** The stores of the model among the instances *)






(* ===================================================================== *)
(** ** The statements of the specification *)
(* ===================================================================== *)

(** *** Well-formed stores *)

(** The textual fields of an entry hold text, as the two store methods
    write them. *)
Definition typed_entry (e : entry) : Prop :=
  (forall v, dict_get "query" e = Some v -> exists s, v = PStr s) /\
  (forall v, dict_get "content" e = Some v -> exists s, v = PStr s).

Definition valid_id (store : list entry) (i : Z) : Prop :=
  0 <= i < len store.

(** Every id an index lists is the id of a stored entry. *)
Definition index_ok (store : list entry) (index : dict string (list Z))
  : Prop :=
  forall key ids, In (key, ids) index -> Forall (valid_id store) ids.

Record store_ok (s : SullySearchMemory) : Prop := {
  ok_entries : Forall typed_entry (storage s);
  ok_associations : index_ok (storage s) (associations s);
  ok_temporal : index_ok (storage s) (temporal_index s)
}.

(** The invariants of the data model: no id twice under one concept,
    every id in exactly one day bucket. *)
Record store_inv (s : SullySearchMemory) : Prop := {
  inv_ok : store_ok s;
  inv_concept_keys : NoDup (dict_keys (associations s));
  inv_concept_ids :
    forall key ids, In (key, ids) (associations s) -> NoDup ids;
  inv_bucket_keys : NoDup (dict_keys (temporal_index s));
  inv_bucket_ids : NoDup (List.concat (map snd (temporal_index s)));
  inv_bucket_all :
    forall i, valid_id (storage s) i ->
              In i (List.concat (map snd (temporal_index s)))
}.

(** What one association keeps true of an index: distinct keys, no id
    twice under a key, only the ids of stored entries. *)
Definition concept_index_inv (store : list entry)
  (d : dict string (list Z)) : Prop :=
  NoDup (dict_keys d)
  /\ (forall k ids, In (k, ids) d -> NoDup ids)
  /\ index_ok store d.

Definition empty_store (memory_file : option string) : SullySearchMemory :=
  {| storage := []; associations := []; temporal_index := [];
     memory_file := memory_file |}.

(** *** Snapshot documents *)

(** A document of the shape [export_full_system] writes: the three
    sections, holding a well-formed store. *)
Definition well_formed_document (d : document) : Prop :=
  match d with
  | JsonObject (Some st) (Some assoc) (Some ti) =>
      store_ok {| storage := st; associations := assoc;
                  temporal_index := ti; memory_file := None |}
  | _ => False
  end.

(** The value of an attribute after a load: that of the section when the
    document has it, the previous one otherwise. *)
Definition section_or {A} (section : option A) (previous : A) : A :=
  match section with
  | Some v => v
  | None => previous
  end.

(** *** Search, as the specification words it *)

(** [enumerate(l)] counted from [i] *)
Fixpoint enumerate {A} (l : list A) (i : Z) : list (Z * A) :=
  match l with
  | [] => []
  | x :: rest => (i, x) :: enumerate rest (i + 1)
  end.

(** The text of a field, when the entry has the field and it is a string. *)
Definition field_text (e : entry) (field : string) : option string :=
  match dict_get field e with
  | Some (PStr s) => Some s
  | _ => None
  end.

Definition text_contains (case_sensitive : bool) (keyword : string)
  (text : option string) : bool :=
  match text with
  | Some t =>
      if case_sensitive then str_in keyword t
      else str_in (lower keyword) (lower t)
  | None => false
  end.

(** Query text, then string-typed result, then content. *)
Definition entry_matches (case_sensitive : bool) (keyword : string)
  (e : entry) : bool :=
  text_contains case_sensitive keyword (field_text e "query")
  || text_contains case_sensitive keyword (field_text e "result")
  || text_contains case_sensitive keyword (field_text e "content").

(** Direct matches, in ascending id order. *)
Definition direct_ids (case_sensitive : bool) (keyword : string)
  (store : list entry) : list Z :=
  map fst (filter (fun p => entry_matches case_sensitive keyword (snd p))
                  (enumerate store 0)).

(** [lookup(needle)]: the ids of the concept, none when it is no key. *)
Definition lookup (concept : string) (index : dict string (list Z))
  : list Z :=
  match dict_get concept index with
  | Some ids => ids
  | None => []
  end.

(** [lookup_containing(needle)]: the ids of every key that contains the
    needle and is not the needle, key after key. *)
Definition lookup_containing (needle : string)
  (index : dict string (list Z)) : list Z :=
  List.concat (map snd
    (filter (fun p => str_in needle (fst p)
                      && negb (String.eqb (fst p) needle)) index)).

(** The candidates without those already present in [seen] or met
    earlier. *)
Fixpoint uniq (seen : list Z) (candidates : list Z) : list Z :=
  match candidates with
  | [] => []
  | x :: rest =>
      if int_in x seen then uniq seen rest
      else x :: uniq (seen ++ [x]) rest
  end.

(** Discovery order: direct matches, then the exact concept, then the
    partial concepts. *)
Definition discovery_order (s : SullySearchMemory) (keyword : string)
  (case_sensitive include_associations : bool) : list Z :=
  let direct := direct_ids case_sensitive keyword (storage s) in
  if include_associations
  then uniq [] (direct ++ lookup (lower keyword) (associations s)
                       ++ lookup_containing (lower keyword) (associations s))
  else direct.

(** At most [limit] items when a limit is given. *)
Definition truncate {A} (limit : option Z) (l : list A) : list A :=
  match limit with
  | Some n => firstn (Z.to_nat n) l
  | None => l
  end.

(** A limit the methods treat as a limit: none, or a positive one. *)
Definition usable_limit (limit : option Z) : Prop :=
  match limit with
  | Some n => 0 < n
  | None => True
  end.

(** The limit is not reached by a mapping of the ids [ms]. *)
Definition not_reached {A} (limit : option Z) (ms : list A) : Prop :=
  match limit with
  | Some n => len ms < n
  | None => True
  end.

Definition entry_at (store : list entry) (i : Z) : entry :=
  nth (Z.to_nat i) store [].

(** The mapping from the given ids, in that order, to their entries. *)
Definition entries_by_id (store : list entry) (ids : list Z)
  : dict Z entry :=
  map (fun i => (i, entry_at store i)) ids.

Definition search_spec (s : SullySearchMemory) (keyword : string)
  (case_sensitive : bool) (limit : option Z) (include_associations : bool)
  : dict Z entry :=
  entries_by_id (storage s)
    (truncate limit
       (discovery_order s keyword case_sensitive include_associations)).

(** *** Connections, as the specification words them *)

(** The ids of the stored entries, in ascending order. *)
Definition all_ids (store : list entry) : list Z :=
  map Z.of_nat (seq 0 (List.length store)).

(** [connections(A, B)]: the entries whose ids are in [lookup(A)] and in
    [lookup(B)], in ascending id order. *)
Definition connections_spec (s : SullySearchMemory)
  (concept1 concept2 : string) : list entry :=
  map (entry_at (storage s))
      (filter (fun i =>
                 int_in i (lookup (lower concept1) (associations s))
                 && int_in i (lookup (lower concept2) (associations s)))
              (all_ids (storage s))).

(** *** Temporal window, as the specification words it *)

(** The anchor is the timestamp [t], or a string that one of the two
    parsers reads as [t]. *)
Definition anchored_at (fromisoformat strptime_Ymd : string -> option datetime)
  (anchor : timestamp_or_date) (t : datetime) : Prop :=
  match anchor with
  | OfDatetime dt => dt = t
  | OfStr str =>
      fromisoformat str = Some t
      \/ (fromisoformat str = None /\ strptime_Ymd str = Some t)
  end.


(** The days [first], [first + 1], ... ([count] of them). *)
Fixpoint days_from (first : Z) (count : nat) : list Z :=
  match count with
  | O => []
  | S n => first :: days_from (first + 1) n
  end.

(** The ids bucketed on a day, in insertion order. *)
Definition bucket (index : dict string (list Z)) (day : Z) : list Z :=
  lookup (strftime_Ymd day) index.

(** [window(target_date, window_days)]: the buckets of the days
    [target - window_days .. target + window_days], in date order. *)
Definition window (index : dict string (list Z)) (target_date : Z)
  (window_days : Z) : list Z :=
  List.concat (map (bucket index)
              (days_from (target_date - window_days)
                         (Z.to_nat (2 * window_days + 1)))).


(** *** Further statements *)

Definition is_clear_call (c : call) : bool :=
  match c with
  | ClearMemory => true
  | _ => false
  end.

(** The store with one more entry, recorded under a day and associated
    with concepts: what the two store methods leave. *)
Definition with_entry (s : SullySearchMemory) (e : entry) (day : string)
  (concepts : list string) : SullySearchMemory :=
  {| storage := storage s ++ [e];
     associations :=
       add_associations concepts (len (storage s)) (associations s);
     temporal_index := append_at day (len (storage s)) (temporal_index s);
     memory_file := memory_file s |}.

(** The store methods called since the last [clear_memory]. *)
Fixpoint stores_since_clear (calls : list call) (before : Z) : Z :=
  match calls with
  | [] => before
  | c :: rest =>
      if is_clear_call c then stores_since_clear rest 0
      else if is_store_call c then stores_since_clear rest (before + 1)
      else stores_since_clear rest before
  end.

(** The timestamp a store call is made at. *)
Definition call_timestamp (c : call) : option datetime :=
  match c with
  | StoreQuery t _ _ _ => Some t
  | StoreExperience t _ _ _ _ => Some t
  | _ => None
  end.

(** An index with each list of ids replaced by its length. *)
Definition sizes (index : dict string (list Z)) : dict string Z :=
  map (fun kv => (fst kv, len (snd kv))) index.

(** The sum of the counts of a summary. *)
Definition total (summary : dict string Z) : Z :=
  fold_right Z.add 0 (map snd summary).

(** An entry without a timestamp, or with one that is a string. *)
Definition timestamp_is_text (e : entry) : bool :=
  match dict_get "timestamp" e with
  | Some (PStr _) | None => true
  | Some _ => false
  end.

Section SummarySpec.

Variable fromisoformat : string -> option datetime.

(** An entry whose timestamp is a string that parses. *)
Definition counted (e : entry) : bool :=
  match dict_get "timestamp" e with
  | Some (PStr text) =>
      match fromisoformat text with Some _ => true | None => false end
  | _ => false
  end.

(** The timestamp a store call writes is read back to the same day. *)
Definition reads_back (c : call) : bool :=
  match call_timestamp c with
  | Some t =>
      match fromisoformat (isoformat t) with
      | Some t' => dt_date t' =? dt_date t
      | None => false
      end
  | None => true
  end.

End SummarySpec.

(** A list under a limit as the list queries take it: whole without a
    limit or with the limit zero, its first [n] items for a positive [n],
    and all but its last [-n] items for a negative [n]. *)
Definition cut {A} (limit : option Z) (l : list A) : list A :=
  match limit with
  | None => l
  | Some n =>
      if n =? 0 then l
      else if 0 <? n then firstn (Z.to_nat n) l
      else firstn (List.length l - Z.to_nat (- n)) l
  end.

(** The keys of an index whose list holds the id. *)
Definition keys_listing (id : Z) (index : dict string (list Z))
  : list string :=
  map fst (filter (fun kv => int_in id (snd kv)) index).

(** *** What an action keeps *)

(** An action keeps the first [n] objects of the heap: they are after it
    what they were before, whether it returns or raises, and what it
    returns satisfies [post]. *)
Definition keeps (n : nat) {A} (m : action A) (post : A -> Prop) : Prop :=
  forall h, (n <= List.length h)%nat ->
    (n <= List.length (snd (m h)))%nat
    /\ firstn n (snd (m h)) = firstn n h
    /\ forall a, fst (m h) = ret a -> post a.

(** An address that did not exist among the first [n] objects. *)
Definition fresh_from (n : nat) (a : addr) : Prop := (n <= a)%nat.

Definition anything {A} (a : A) : Prop := True.

(** An action leaves the store of the instance at [self] unchanged: the
    heap after it is the heap before it with objects added, so that every
    object that was there (the instance, the list of entries, each entry,
    the two indexes and each of their lists) is what it was, and the store
    read from the heap is the same. *)
Definition unchanged_by {A} (h : heap) (self : addr) (m : action A) : Prop :=
  (exists added, snd (m h) = h ++ added)
  /\ (forall s, store_in h self = Some s ->
                store_in (snd (m h)) self = Some s).




(** *** What is read back *)


(* ===================================================================== *)
(** ** A reference runtime *)
(* ===================================================================== *)

(** One runtime to run the store on: the two regular expressions of
    [_extract_key_concepts] on ASCII text, sets that iterate in the order
    of first insertion, and a parser for dates written [YYYY-MM-DD], which
    both [datetime.fromisoformat] and [strptime(_, "%Y-%m-%d")] accept. *)

Definition in_range (lo hi : nat) (c : ascii) : bool :=
  (Nat.leb lo (nat_of_ascii c) && Nat.leb (nat_of_ascii c) hi)%bool.

Definition is_lower (c : ascii) : bool := in_range 97 122 c.
Definition is_upper (c : ascii) : bool := in_range 65 90 c.
Definition is_digit (c : ascii) : bool := in_range 48 57 c.

(** [\w] *)
Definition is_word (c : ascii) : bool :=
  (is_lower c || is_upper c || is_digit c || Ascii.eqb c "_"%char)%bool.

(** The text cut into maximal runs of word characters ([true]) and of
    other characters ([false]), in order. *)
Fixpoint pieces (s : string) : list (bool * string) :=
  match s with
  | EmptyString => []
  | String c rest =>
      let w := is_word c in
      match pieces rest with
      | (w', p) :: ps =>
          if Bool.eqb w w' then (w, String c p) :: ps
          else (w, String c EmptyString) :: (w', p) :: ps
      | [] => [(w, String c EmptyString)]
      end
  end.

Fixpoint all_chars (f : ascii -> bool) (s : string) : bool :=
  match s with
  | EmptyString => true
  | String c rest => (f c && all_chars f rest)%bool
  end.

(** [[a-z]{3,}] on a whole run *)
Definition lower_word (s : string) : bool :=
  (all_chars is_lower s && Nat.leb 3 (String.length s))%bool.

(** [[A-Z][a-z]{3,}] on a whole run *)
Definition capitalized_word (s : string) : bool :=
  match s with
  | EmptyString => false
  | String c rest => (is_upper c && lower_word rest)%bool
  end.

(** [re.findall(r'\b[A-Z][a-z]{3,}\b', text)]: a match is a whole run of
    word characters. *)
Definition findall_capitalized (text : string) : list string :=
  map snd (filter (fun p => (fst p && capitalized_word (snd p))%bool)
                  (pieces text)).

(** [re.findall(r'\b[a-z]{3,} [a-z]{3,}(?: [a-z]{3,})?\b', text)] on the
    runs of the text: two lower-case words, or three when a third follows,
    one space apart; the scan goes on after the match. *)
Fixpoint phrases_of (ps : list (bool * string)) : list string :=
  match ps with
  | [] => []
  | (k1, w1) :: tail =>
      match tail with
      | (false, " ") :: (true, w2) :: after2 =>
          if (k1 && lower_word w1 && lower_word w2)%bool then
            match after2 with
            | (false, " ") :: (true, w3) :: after3 =>
                if lower_word w3
                then (w1 ++ " " ++ w2 ++ " " ++ w3)%string :: phrases_of after3
                else (w1 ++ " " ++ w2)%string :: phrases_of after2
            | _ => (w1 ++ " " ++ w2)%string :: phrases_of after2
            end
          else phrases_of tail
      | _ => phrases_of tail
      end
  end.

Definition findall_phrases (text : string) : list string :=
  phrases_of (pieces text).

(** A set of strings iterated in the order of first insertion. *)
Fixpoint first_seen (seen : list string) (l : list string) : list string :=
  match l with
  | [] => []
  | x :: rest =>
      if existsb (String.eqb x) seen then first_seen seen rest
      else x :: first_seen (x :: seen) rest
  end.

Definition insertion_ordered_set (l : list string) : list string :=
  first_seen [] l.

(** The common ids of two lists, in the order the first one has them. *)
Definition insertion_ordered_intersection (l1 l2 : list Z) : list Z :=
  uniq [] (filter (fun x => int_in x l2) l1).

Definition is_leap (y : Z) : bool :=
  (y mod 4 =? 0) && (negb (y mod 100 =? 0) || (y mod 400 =? 0)).

(** [date(y, m, d).toordinal()] *)
Definition ymd2ord (y m d : Z) : Z :=
  let y' := y - 1 in
  y' * 365 + y' / 4 - y' / 100 + y' / 400
  + days_before_month (is_leap y) m + d.

Definition digit_value (c : ascii) : option Z :=
  if is_digit c then Some (Z.of_nat (nat_of_ascii c) - 48) else None.

Fixpoint number_of (digits : list ascii) (acc : Z) : option Z :=
  match digits with
  | [] => Some acc
  | c :: rest =>
      match digit_value c with
      | Some v => number_of rest (10 * acc + v)
      | None => None
      end
  end.

(** A date written [YYYY-MM-DD], at midnight. *)
Definition parse_Ymd (s : string) : option datetime :=
  match list_ascii_of_string s with
  | [y1; y2; y3; y4; "-"%char; m1; m2; "-"%char; d1; d2] =>
      match number_of [y1; y2; y3; y4] 0, number_of [m1; m2] 0,
            number_of [d1; d2] 0 with
      | Some y, Some m, Some d =>
          if (1 <=? y) && (1 <=? m) && (m <=? 12) && (1 <=? d)
             && (d <=? days_in_month (is_leap y) m)
          then Some {| dt_date := ymd2ord y m d; dt_hour := 0;
                       dt_minute := 0; dt_second := 0;
                       dt_microsecond := 0 |}
          else None
      | _, _, _ => None
      end
  | _ => None
  end.

(** CPython keeps a set of at most four small non-negative ints in a
    table of eight slots, the int [x] in slot [x mod 8] when no other
    member has that slot, and iterates the table slot by slot. *)
Fixpoint insert_by_slot (x : Z) (l : list Z) : list Z :=
  match l with
  | [] => [x]
  | y :: rest =>
      if x mod 8 <? y mod 8 then x :: y :: rest
      else y :: insert_by_slot x rest
  end.

Definition cpython_small_set (l : list Z) : list Z :=
  fold_right insert_by_slot [] (uniq [] l).

(** [set(l1).intersection(set(l2))] iterated, for such sets. *)
Definition cpython_intersection (l1 l2 : list Z) : list Z :=
  cpython_small_set (filter (fun x => int_in x l1) l2).

(* ===================================================================== *)
(** ** Example stores *)
(* ===================================================================== *)

(** 2024-01-02, 03:04:05 *)
Definition a_timestamp : datetime :=
  {| dt_date := 738887; dt_hour := 3; dt_minute := 4; dt_second := 5;
     dt_microsecond := 0 |}.

(** 2024-01-02, at midnight *)
Definition a_midnight : datetime :=
  {| dt_date := 738887; dt_hour := 0; dt_minute := 0; dt_second := 0;
     dt_microsecond := 0 |}.

(** The two calls of the gravity scenario. *)
Definition gravity_calls : list call :=
  [StoreQuery a_timestamp "What is gravity?" (PStr "Gravity is G=...") None;
   StoreExperience a_timestamp "Newton described gravity" "book"
                   (Some ["gravity"]) 0.5%float].

(** A store just created, without a memory file. *)
Definition fresh_world : world :=
  {| self := empty_store None; files := [] |}.

(** The two entries of the gravity scenario. *)
Definition gravity_query : entry :=
  [("query", PStr "What is gravity?"); ("result", PStr "Gravity is G=...");
   ("timestamp", PStr "2024-01-02T03:04:05"); ("type", PStr "query")].

Definition gravity_experience : entry :=
  [("content", PStr "Newton described gravity"); ("source", PStr "book");
   ("timestamp", PStr "2024-01-02T03:04:05");
   ("importance", PFloat 0.5%float); ("type", PStr "experience");
   ("concepts", PList [PStr "gravity"])].

(** The store after the two calls of the gravity scenario, on the
    reference runtime. *)
Definition gravity_store : SullySearchMemory :=
  {| storage := [gravity_query; gravity_experience];
     associations := [("what", [0]); ("gravity", [0; 1])];
     temporal_index := [("2024-01-02", [0; 1])];
     memory_file := None |}.

(** The same store, kept in the file "memory.json". *)
Definition persistent_gravity_store : SullySearchMemory :=
  {| storage := storage gravity_store;
     associations := associations gravity_store;
     temporal_index := temporal_index gravity_store;
     memory_file := Some "memory.json" |}.

(** A memory file with the records and neither index. *)
Definition records_only : document :=
  JsonObject (Some [gravity_query]) None None.

Definition world_with_records_only : world :=
  {| self := persistent_gravity_store;
     files := [("memory.json", records_only)] |}.

(** Nine experiences; the second and the ninth (ids 1 and 8) are about
    both "a" and "b", the others about "x". *)
Definition connection_calls : list call :=
  map (fun k =>
         StoreExperience a_timestamp ("memory " ++ decimal k) "test"
           (Some (if (k =? 1) || (k =? 8) then ["a"; "b"] else ["x"]))
           0.5%float)
      [0; 1; 2; 3; 4; 5; 6; 7; 8].

Definition connections_store : SullySearchMemory :=
  self (snd (run findall_capitalized findall_phrases insertion_ordered_set
                 insertion_ordered_intersection parse_Ymd parse_Ymd
                 connection_calls fresh_world)).


(** A reference [datetime.fromisoformat] for what [isoformat] writes:
    [YYYY-MM-DD], [YYYY-MM-DDTHH:MM:SS] and [YYYY-MM-DDTHH:MM:SS.ffffff]. *)
Definition parse_time (hms : list ascii) : option (Z * Z * Z * Z) :=
  let clock h1 h2 m1 m2 s1 s2 us :=
    match number_of [h1; h2] 0, number_of [m1; m2] 0,
          number_of [s1; s2] 0, number_of us 0 with
    | Some h, Some m, Some s, Some u =>
        if (h <=? 23) && (m <=? 59) && (s <=? 59)
        then Some (h, m, s, u) else None
    | _, _, _, _ => None
    end in
  match hms with
  | [h1; h2; ":"%char; m1; m2; ":"%char; s1; s2] =>
      clock h1 h2 m1 m2 s1 s2 []
  | [h1; h2; ":"%char; m1; m2; ":"%char; s1; s2; "."%char;
     u1; u2; u3; u4; u5; u6] =>
      clock h1 h2 m1 m2 s1 s2 [u1; u2; u3; u4; u5; u6]
  | _ => None
  end.

Definition parse_isoformat (s : string) : option datetime :=
  match parse_Ymd (substring 0 10 s) with
  | None => None
  | Some day =>
      if (String.length s =? 10)%nat then Some day
      else
        match list_ascii_of_string (substring 10 (String.length s - 10) s)
        with
        | "T"%char :: hms =>
            match parse_time hms with
            | Some (h, m, sec, us) =>
                Some {| dt_date := dt_date day; dt_hour := h;
                        dt_minute := m; dt_second := sec;
                        dt_microsecond := us |}
            | None => None
            end
        | _ => None
        end
  end.





(* ===================================================================== *)
(** * Properties *)
(* ===================================================================== *)

(** ** Fallible computations *)

Lemma bind_ret {A B} (a : A) (k : A -> outcome B) : bind (ret a) k = k a.
Proof. reflexivity. Qed.

Lemma fails_ret {A} (a : A) : ~ fails (ret a).
Proof. intros [e He]. discriminate He. Qed.

Lemma app_cons_snoc {A} (l : list A) (x : A) (t : list A) :
  l ++ x :: t = (l ++ [x]) ++ t.
Proof. now rewrite <- app_assoc. Qed.

Lemma int_in_In (x : Z) (l : list Z) : int_in x l = true <-> In x l.
Proof.
  unfold int_in. rewrite existsb_exists. split.
  - intros [y [Hin Heq]]. apply Z.eqb_eq in Heq. now subst.
  - intros Hin. exists x. split; [assumption|apply Z.eqb_refl].
Qed.

Lemma int_in_false (x : Z) (l : list Z) : int_in x l = false <-> ~ In x l.
Proof.
  rewrite <- int_in_In. destruct (int_in x l); split; congruence.
Qed.

(** ** Dictionaries *)

Section DictFacts.
Context {K V : Type} `{EqKey K}.

Lemma keqb_refl (k : K) : keqb k k = true.
Proof. destruct (keqb_spec k k); congruence. Qed.

Lemma keqb_neq (k k' : K) : k <> k' -> keqb k k' = false.
Proof. intros Hne. destruct (keqb_spec k k'); congruence. Qed.

Lemma dict_get_set_eq (k : K) (v : V) (d : dict K V) :
  dict_get k (dict_set k v d) = Some v.
Proof.
  induction d as [|[k' v'] d IH]; simpl.
  - now rewrite keqb_refl.
  - destruct (keqb_spec k k') as [->|Hne]; simpl.
    + now rewrite keqb_refl.
    + now rewrite (keqb_neq _ _ Hne).
Qed.

Lemma dict_get_set_neq (k k' : K) (v : V) (d : dict K V) :
  k <> k' -> dict_get k' (dict_set k v d) = dict_get k' d.
Proof.
  intros Hne. induction d as [|[k0 v0] d IH]; simpl.
  - rewrite keqb_neq; auto.
  - destruct (keqb_spec k k0) as [->|Hne0]; simpl.
    + rewrite keqb_neq; auto.
    + now rewrite IH.
Qed.

Lemma dict_get_In (k : K) (v : V) (d : dict K V) :
  dict_get k d = Some v -> In (k, v) d.
Proof.
  induction d as [|[k' v'] d IH]; simpl; [discriminate|].
  destruct (keqb_spec k k') as [->|Hne].
  - intros [= ->]. now left.
  - intros Hg. right. auto.
Qed.

Lemma dict_get_None (k : K) (d : dict K V) :
  dict_get k d = None <-> ~ In k (dict_keys d).
Proof.
  induction d as [|[k' v'] d IH]; simpl.
  - tauto.
  - destruct (keqb_spec k k') as [->|Hne].
    + split; [discriminate | intros Hn; exfalso; apply Hn; now left].
    + rewrite IH. split; intros Hn; [intros [Heq|Hin]|]; try tauto.
      congruence.
Qed.

Lemma In_dict_get (k : K) (v : V) (d : dict K V) :
  NoDup (dict_keys d) -> In (k, v) d -> dict_get k d = Some v.
Proof.
  induction d as [|[k' v'] d IH]; simpl; [tauto|].
  intros Hnd [Heq|Hin].
  - injection Heq as -> ->. now rewrite keqb_refl.
  - inversion Hnd as [|? ? Hnotin Hnd']; subst.
    destruct (keqb_spec k k') as [->|Hne].
    + exfalso. apply Hnotin. change (In (fst (k', v)) (map fst d)).
      now apply in_map.
    + auto.
Qed.

Lemma dict_set_fresh (k : K) (v : V) (d : dict K V) :
  dict_get k d = None -> dict_set k v d = d ++ [(k, v)].
Proof.
  induction d as [|[k' v'] d IH]; simpl; [reflexivity|].
  destruct (keqb k k'); [discriminate|].
  intros Hg. now rewrite IH.
Qed.

Lemma dict_keys_set_present (k : K) (v : V) (d : dict K V) :
  dict_mem k d = true -> dict_keys (dict_set k v d) = dict_keys d.
Proof.
  unfold dict_mem. induction d as [|[k' v'] d IH]; simpl; [discriminate|].
  destruct (keqb k k'); simpl; [reflexivity|].
  intros Hm. now rewrite IH.
Qed.

Lemma In_dict_set (k k0 : K) (v v0 : V) (d : dict K V) :
  In (k, v) (dict_set k0 v0 d) -> (k = k0 /\ v = v0) \/ In (k, v) d.
Proof.
  induction d as [|[k' v'] d IH]; simpl.
  - intros [[= <- <-]|[]]. now left.
  - destruct (keqb_spec k0 k') as [->|Hne]; simpl.
    + intros [[= <- <-]|Hin]; [now left|]. right. now right.
    + intros [Heq|Hin]; [right; now left|].
      destruct (IH Hin) as [?|?]; [now left|right; now right].
Qed.

Lemma dict_set_In (k : K) (v : V) (d : dict K V) :
  In (k, v) (dict_set k v d).
Proof.
  induction d as [|[k' v'] d IH]; simpl; [now left|].
  destruct (keqb_spec k k') as [->|Hne]; simpl; [now left|now right].
Qed.

Lemma dict_set_other_In (k k0 : K) (v v0 : V) (d : dict K V) :
  k <> k0 -> In (k, v) d -> In (k, v) (dict_set k0 v0 d).
Proof.
  intros Hne. induction d as [|[k' v'] d IH]; simpl; [tauto|].
  destruct (keqb_spec k0 k') as [->|Hne0]; simpl.
  - intros [[= <- <-]|Hin]; [congruence|now right].
  - intros [Heq|Hin]; [now left|right; auto].
Qed.

Lemma dict_keys_set (k : K) (v : V) (d : dict K V) :
  dict_keys (dict_set k v d)
  = if dict_mem k d then dict_keys d else dict_keys d ++ [k].
Proof.
  unfold dict_mem. induction d as [|[k' v'] d IH]; simpl; [reflexivity|].
  destruct (keqb k k'); simpl; [reflexivity|].
  rewrite IH. now destruct (dict_get k d).
Qed.

Lemma dict_mem_true (k : K) (d : dict K V) :
  dict_mem k d = true <-> In k (dict_keys d).
Proof.
  unfold dict_mem. destruct (dict_get k d) eqn:Hg.
  - split; [intros _|reflexivity].
    apply dict_get_In in Hg. change k with (fst (k, v)). now apply in_map.
  - apply dict_get_None in Hg. split; [discriminate|tauto].
Qed.

Lemma dict_keys_set_NoDup (k : K) (v : V) (d : dict K V) :
  NoDup (dict_keys d) -> NoDup (dict_keys (dict_set k v d)).
Proof.
  intros Hnd. rewrite dict_keys_set.
  destruct (dict_mem k d) eqn:Hm; [assumption|].
  apply NoDup_app_remove_l with (l := []). simpl.
  apply Permutation_NoDup with (l := k :: dict_keys d).
  - apply Permutation_cons_append.
  - constructor; [|assumption]. intros Hin.
    apply dict_mem_true in Hin. congruence.
Qed.

End DictFacts.

(** ** Storing: ids *)

Section StoreFacts.

Variable re_findall_capitalized : string -> list string.
Variable re_findall_phrases : string -> list string.
Variable set_iter : list string -> list string.
Variable set_intersection_iter : list Z -> list Z -> list Z.
Variable fromisoformat : string -> option datetime.
Variable strptime_Ymd : string -> option datetime.

Local Abbreviation exec' :=
  (exec re_findall_capitalized re_findall_phrases set_iter
        set_intersection_iter fromisoformat strptime_Ymd).
Local Abbreviation run' :=
  (run re_findall_capitalized re_findall_phrases set_iter
       set_intersection_iter fromisoformat strptime_Ymd).
Local Abbreviation store_query' :=
  (store_query re_findall_capitalized re_findall_phrases set_iter).
Local Abbreviation store_experience' :=
  (store_experience re_findall_capitalized re_findall_phrases set_iter).

Lemma self_save_to_file (w : world) : self (_save_to_file w) = self w.
Proof.
  unfold _save_to_file. now destruct (truthy_path (memory_file (self w))).
Qed.

Lemma len_app_one {A} (l : list A) (x : A) : len (l ++ [x]) = len l + 1.
Proof. unfold len. rewrite length_app. simpl. lia. Qed.

Lemma store_query_id t q r md w :
  fst (store_query' t q r md w) = len (storage (self w)).
Proof. reflexivity. Qed.

Lemma store_experience_id t c src cs imp w :
  fst (store_experience' t c src cs imp w) = len (storage (self w)).
Proof. reflexivity. Qed.

Lemma store_query_len t q r md w :
  len (storage (self (snd (store_query' t q r md w))))
  = len (storage (self w)) + 1.
Proof.
  unfold store_query. cbn [snd]. rewrite self_save_to_file.
  cbn [self storage]. apply len_app_one.
Qed.

Lemma store_experience_len t c src cs imp w :
  len (storage (self (snd (store_experience' t c src cs imp w))))
  = len (storage (self w)) + 1.
Proof.
  unfold store_experience. cbn [snd]. rewrite self_save_to_file.
  cbn [self storage]. apply len_app_one.
Qed.

Lemma exec_store_call (c : call) (w : world) :
  is_store_call c = true ->
  fst (exec' c w) = ret (RInt (len (storage (self w))))
  /\ len (storage (self (snd (exec' c w)))) = len (storage (self w)) + 1.
Proof.
  destruct c; try discriminate; intros _; unfold exec.
  - pose proof (store_query_id timestamp query result metadata w) as Hid.
    pose proof (store_query_len timestamp query result metadata w) as Hlen.
    destruct (store_query' timestamp query result metadata w) as [i w'].
    simpl in *. now subst.
  - pose proof (store_experience_id timestamp content source concepts
                                    importance w) as Hid.
    pose proof (store_experience_len timestamp content source concepts
                                     importance w) as Hlen.
    destruct (store_experience' timestamp content source concepts
                               importance w) as [i w'].
    simpl in *. now subst.
Qed.

Lemma run_store_calls (calls : list call) (w : world) :
  forallb is_store_call calls = true ->
  fst (run' calls w)
  = map (fun k => ret (RInt (len (storage (self w)) + Z.of_nat k)))
        (seq 0 (List.length calls)).
Proof.
  revert w. induction calls as [|c calls IH]; intros w Hall; [reflexivity|].
  simpl in Hall. apply andb_prop in Hall as [Hc Hall].
  destruct (exec_store_call c w Hc) as [Hid Hlen].
  cbn [run List.length seq map].
  destruct (exec' c w) as [r w'] eqn:He. cbn [fst snd] in Hid, Hlen.
  specialize (IH w' Hall).
  destruct (run' calls w') as [rs w''] eqn:Hr. cbn [fst] in *.
  subst r rs. f_equal.
  - now rewrite Z.add_0_r.
  - rewrite <- seq_shift, map_map. apply map_ext. intros k.
    rewrite Hlen. do 2 f_equal. lia.
Qed.

Lemma store_query_storage t q r md w :
  exists e,
    storage (self (snd (store_query' t q r md w))) = storage (self w) ++ [e].
Proof.
  unfold store_query. cbn [snd]. rewrite self_save_to_file.
  cbn [self storage]. eauto.
Qed.

Lemma store_experience_storage t c src cs imp w :
  exists e,
    storage (self (snd (store_experience' t c src cs imp w)))
    = storage (self w) ++ [e].
Proof.
  unfold store_experience. cbn [snd]. rewrite self_save_to_file.
  cbn [self storage]. eauto.
Qed.

(** The entries are appended, one for each call. *)
Lemma run_store_calls_storage (calls : list call) (w : world) :
  forallb is_store_call calls = true ->
  exists es,
    storage (self (snd (run' calls w))) = storage (self w) ++ es
    /\ List.length es = List.length calls.
Proof.
  revert w. induction calls as [|c calls IH]; intros w Hall.
  - exists []. now rewrite app_nil_r.
  - simpl in Hall. apply andb_prop in Hall as [Hc Hall].
    assert (Hone : exists e,
              storage (self (snd (exec' c w))) = storage (self w) ++ [e]).
    { destruct c; try discriminate; unfold exec.
      - pose proof (store_query_storage timestamp query result metadata w)
          as H.
        now destruct (store_query' timestamp query result metadata w).
      - pose proof (store_experience_storage timestamp content source
                      concepts importance w) as H.
        now destruct (store_experience' timestamp content source concepts
                                        importance w). }
    destruct Hone as [e He]. cbn [run].
    destruct (exec' c w) as [r w']. cbn [snd] in He.
    destruct (IH w' Hall) as [es [Hes Hlen]].
    destruct (run' calls w') as [rs w'']. cbn [snd] in *.
    exists (e :: es). rewrite Hes, He, <- app_assoc. simpl.
    split; [reflexivity|now rewrite Hlen].
Qed.

(** C1. In any sequence of [store_query] and [store_experience] calls,
    each call returns the length the storage had just before it, and the
    storage grows by the entry of each call, in the order of the calls; on
    a store that is empty, and on a store that was just cleared, the call
    number [k] (counted from 0) returns [k]. *)
Theorem store_ids_are_insertion_positions (calls : list call) (w : world) :
  forallb is_store_call calls = true ->
  fst (run' calls w)
  = map (fun k => ret (RInt (len (storage (self w)) + Z.of_nat k)))
        (seq 0 (List.length calls))
  /\ (exists es,
        storage (self (snd (run' calls w))) = storage (self w) ++ es
        /\ List.length es = List.length calls)
  /\ (storage (self w) = [] ->
      fst (run' calls w)
      = map (fun k => ret (RInt (Z.of_nat k))) (seq 0 (List.length calls)))
  /\ fst (run' calls (snd (clear_memory w)))
     = map (fun k => ret (RInt (Z.of_nat k))) (seq 0 (List.length calls)).
Proof.
  intros Hall. split; [|split; [|split]].
  - now apply run_store_calls.
  - now apply run_store_calls_storage.
  - intros Hempty. rewrite (run_store_calls _ _ Hall), Hempty. reflexivity.
  - rewrite (run_store_calls _ _ Hall). reflexivity.
Qed.

End StoreFacts.

(** ** The invariants of the store *)

Lemma valid_id_grow (store : list entry) (e : entry) (i : Z) :
  valid_id store i -> valid_id (store ++ [e]) i.
Proof. unfold valid_id. rewrite len_app_one. lia. Qed.

Lemma valid_id_new (store : list entry) (e : entry) :
  valid_id (store ++ [e]) (len store).
Proof. unfold valid_id. rewrite len_app_one. unfold len. lia. Qed.

Lemma lookup_In (key : string) (d : dict string (list Z)) :
  lookup key d = [] \/ In (key, lookup key d) d.
Proof.
  unfold lookup. destruct (dict_get key d) as [l|] eqn:Hg; [right|now left].
  now apply dict_get_In.
Qed.

(** *** The temporal index *)

Lemma In_append_at (key k : string) (x : Z) (ids : list Z)
  (d : dict string (list Z)) :
  In (k, ids) (append_at key x d) ->
  In (k, ids) d \/ ids = [] \/ ids = lookup key d ++ [x].
Proof.
  unfold append_at, lookup, dict_mem.
  destruct (dict_get key d) as [l|] eqn:Hg.
  - rewrite Hg. intros Hin. apply In_dict_set in Hin as [[_ ->]|Hin]; auto.
  - rewrite dict_get_set_eq. intros Hin.
    apply In_dict_set in Hin as [[_ ->]|Hin]; auto.
    apply In_dict_set in Hin as [[_ ->]|Hin]; auto.
Qed.

Lemma dict_keys_append_at (key : string) (x : Z) (d : dict string (list Z)) :
  NoDup (dict_keys d) -> NoDup (dict_keys (append_at key x d)).
Proof.
  intros Hnd. unfold append_at.
  set (d' := if dict_mem key d then d else dict_set key [] d).
  assert (Hnd' : NoDup (dict_keys d')).
  { unfold d'. destruct (dict_mem key d); [assumption|].
    now apply dict_keys_set_NoDup. }
  destruct (dict_get key d'); [now apply dict_keys_set_NoDup|assumption].
Qed.

Lemma concat_dict_set_append (k : string) (x : Z) (l : list Z)
  (d : dict string (list Z)) :
  dict_get k d = Some l ->
  Permutation (List.concat (map snd (dict_set k (l ++ [x]) d)))
              (x :: List.concat (map snd d)).
Proof.
  induction d as [|[k' v'] d IH]; simpl; [discriminate|].
  destruct (String.eqb_spec k k') as [->|Hne].
  - intros [= ->]. simpl. rewrite <- app_assoc. simpl.
    symmetry. apply Permutation_middle.
  - intros Hg. simpl. rewrite (IH Hg). symmetry. apply Permutation_middle.
Qed.

Lemma concat_dict_set_empty (k : string) (d : dict string (list Z)) :
  dict_get k d = None ->
  List.concat (map snd (dict_set k [] d)) = List.concat (map snd d).
Proof.
  intros Hg. rewrite (dict_set_fresh _ _ _ Hg), map_app, concat_app.
  simpl. apply app_nil_r.
Qed.

Lemma concat_append_at (key : string) (x : Z) (d : dict string (list Z)) :
  Permutation (List.concat (map snd (append_at key x d)))
              (x :: List.concat (map snd d)).
Proof.
  unfold append_at, dict_mem.
  destruct (dict_get key d) as [l|] eqn:Hg.
  - rewrite Hg. now apply concat_dict_set_append.
  - rewrite dict_get_set_eq.
    rewrite (concat_dict_set_append key x [] (dict_set key [] d)
               (dict_get_set_eq key [] d)).
    now rewrite (concat_dict_set_empty _ _ Hg).
Qed.

(** *** The concept index *)

Lemma In_add_association (concept k : string) (i : Z) (ids : list Z)
  (d : dict string (list Z)) :
  In (k, ids) (_add_association concept i d) ->
  In (k, ids) d \/ ids = []
  \/ (~ In i (lookup (lower concept) d)
      /\ ids = lookup (lower concept) d ++ [i]).
Proof.
  unfold _add_association, lookup, dict_mem.
  destruct (dict_get (lower concept) d) as [l|] eqn:Hg.
  - rewrite Hg. destruct (int_in i l) eqn:Hi; auto.
    intros Hin. apply In_dict_set in Hin as [[_ ->]|Hin]; auto.
    right. right. split; [now apply int_in_false|reflexivity].
  - rewrite dict_get_set_eq. simpl. intros Hin.
    apply In_dict_set in Hin as [[_ ->]|Hin]; auto.
    apply In_dict_set in Hin as [[_ ->]|Hin]; auto.
Qed.

Lemma dict_keys_add_association (concept : string) (i : Z)
  (d : dict string (list Z)) :
  NoDup (dict_keys d) -> NoDup (dict_keys (_add_association concept i d)).
Proof.
  intros Hnd. unfold _add_association.
  set (d' := if dict_mem (lower concept) d then d
             else dict_set (lower concept) [] d).
  assert (Hnd' : NoDup (dict_keys d')).
  { unfold d'. destruct (dict_mem (lower concept) d); [assumption|].
    now apply dict_keys_set_NoDup. }
  destruct (dict_get (lower concept) d') as [l|]; [|assumption].
  destruct (int_in i l); [assumption|now apply dict_keys_set_NoDup].
Qed.

Lemma add_association_inv (store : list entry) (concept : string) (i : Z)
  (d : dict string (list Z)) :
  valid_id store i ->
  concept_index_inv store d ->
  concept_index_inv store (_add_association concept i d).
Proof.
  intros Hi (Hkeys & Hids & Hok). split; [|split].
  - now apply dict_keys_add_association.
  - intros k ids Hin.
    apply In_add_association in Hin as [Hin|[->|[Hnot ->]]].
    + now apply (Hids k).
    + constructor.
    + destruct (lookup_In (lower concept) d) as [Hl|Hl].
      * rewrite Hl. simpl. constructor; [tauto|constructor].
      * apply Hids in Hl.
        apply NoDup_app_remove_l with (l := []). simpl.
        apply Permutation_NoDup with (l := i :: lookup (lower concept) d).
        -- apply Permutation_cons_append.
        -- now constructor.
  - intros k ids Hin.
    apply In_add_association in Hin as [Hin|[->|[Hnot ->]]].
    + now apply (Hok k).
    + constructor.
    + apply Forall_app. split; [|constructor; [assumption|constructor]].
      destruct (lookup_In (lower concept) d) as [Hl|Hl].
      * rewrite Hl. constructor.
      * now apply Hok in Hl.
Qed.

Lemma add_associations_inv (store : list entry) (concepts : list string)
  (i : Z) (d : dict string (list Z)) :
  valid_id store i ->
  concept_index_inv store d ->
  concept_index_inv store (add_associations concepts i d).
Proof.
  intros Hi. unfold add_associations. revert d.
  induction concepts as [|c cs IH]; intros d Hd; [assumption|].
  simpl. apply IH. now apply add_association_inv.
Qed.

Lemma concept_index_inv_grow (store : list entry) (e : entry)
  (d : dict string (list Z)) :
  concept_index_inv store d -> concept_index_inv (store ++ [e]) d.
Proof.
  intros (Hkeys & Hids & Hok). repeat split; auto.
  intros k ids Hin. apply Hok in Hin.
  eapply Forall_impl; [|exact Hin]. intros i. apply valid_id_grow.
Qed.

Lemma NoDup_app_disjoint {A} (l1 l2 : list A) (a : A) :
  NoDup (l1 ++ l2) -> In a l1 -> ~ In a l2.
Proof.
  induction l1 as [|x l1 IH]; simpl; [tauto|].
  intros Hnd [->|Hin] Hin2.
  - inversion Hnd as [|? ? Hnot _]; subst. apply Hnot.
    apply in_or_app. now right.
  - inversion Hnd; subst. now apply IH.
Qed.

(** An id that no list has twice is under one key only. *)
Lemma NoDup_concat_one_key (d : dict string (list Z)) (k1 k2 : string)
  (l1 l2 : list Z) (i : Z) :
  NoDup (dict_keys d) ->
  NoDup (List.concat (map snd d)) ->
  In (k1, l1) d -> In (k2, l2) d -> In i l1 -> In i l2 -> k1 = k2.
Proof.
  induction d as [|[k l] d IH]; simpl; [tauto|].
  intros Hkeys Hnd H1 H2 Hi1 Hi2.
  inversion Hkeys as [|? ? Hk Hkeys']; subst.
  assert (Hout : forall k' l', In (k', l') d -> In i l' ->
                               In i (List.concat (map snd d))).
  { intros k' l' Hin Hi. apply in_concat. exists l'. split; [|assumption].
    change l' with (snd (k', l')). now apply in_map. }
  destruct H1 as [[= <- <-]|H1]; destruct H2 as [[= <- <-]|H2].
  - reflexivity.
  - exfalso. apply (NoDup_app_disjoint _ _ i Hnd Hi1). eauto.
  - exfalso. apply (NoDup_app_disjoint _ _ i Hnd Hi2). eauto.
  - apply NoDup_app_remove_l in Hnd. eauto.
Qed.

Lemma concept_index_inv_of (s : SullySearchMemory) :
  store_inv s -> concept_index_inv (storage s) (associations s).
Proof. intros [[_ Ha _] Hk Hi _ _ _]. repeat split; assumption. Qed.

(** One more entry, indexed under its day and its concepts. *)
Lemma store_step_inv (s : SullySearchMemory) (e : entry) (time_key : string)
  (concepts : list string) :
  typed_entry e ->
  store_inv s ->
  store_inv
    {| storage := storage s ++ [e];
       associations :=
         add_associations concepts (len (storage s)) (associations s);
       temporal_index :=
         append_at time_key (len (storage s)) (temporal_index s);
       memory_file := memory_file s |}.
Proof.
  intros He Hinv.
  pose proof (concept_index_inv_of s Hinv) as Hci.
  apply (concept_index_inv_grow _ e) in Hci.
  apply (add_associations_inv _ concepts (len (storage s)) _
           (valid_id_new (storage s) e)) in Hci.
  destruct Hci as (Hck & Hcn & Hcok).
  destruct Hinv as [[Hent Ha Ht] Hk Hi Hbk Hbn Hball].
  assert (Hold : forall i, In i (List.concat (map snd (temporal_index s))) ->
                           valid_id (storage s) i).
  { intros i Hin. apply in_concat in Hin as [l [Hl Hin]].
    apply in_map_iff in Hl as [[k l'] [<- Hl]]. simpl in Hin.
    apply Ht in Hl. rewrite Forall_forall in Hl. now apply Hl. }
  constructor; cbn [storage associations temporal_index memory_file];
    [constructor; cbn [storage associations temporal_index memory_file]
    | | | | | ].
  - apply Forall_app. split; [assumption|now constructor].
  - assumption.
  - intros k ids Hin. apply In_append_at in Hin as [Hin|[-> | ->]].
    + apply Ht in Hin. eapply Forall_impl; [|exact Hin].
      intros i. apply valid_id_grow.
    + constructor.
    + apply Forall_app. split.
      * destruct (lookup_In time_key (temporal_index s)) as [Hl|Hl].
        -- rewrite Hl. constructor.
        -- apply Ht in Hl. eapply Forall_impl; [|exact Hl].
           intros i. apply valid_id_grow.
      * constructor; [apply valid_id_new|constructor].
  - assumption.
  - assumption.
  - now apply dict_keys_append_at.
  - eapply Permutation_NoDup.
    + symmetry. apply concat_append_at.
    + constructor; [|assumption]. intros Hin. apply Hold in Hin.
      unfold valid_id in Hin. lia.
  - intros i Hi'. eapply Permutation_in.
    + symmetry. apply concat_append_at.
    + unfold valid_id in Hi'. rewrite len_app_one in Hi'.
      destruct (Z.eq_dec i (len (storage s))) as [->|Hne]; [now left|right].
      apply Hball. unfold valid_id. lia.
Qed.

Lemma store_inv_empty (memory_file : option string) :
  store_inv (empty_store memory_file).
Proof.
  repeat constructor; simpl; try tauto.
  - intros k ids [].
  - intros k ids [].
  - intros i [Hlo Hhi]. unfold len in Hhi. simpl in Hhi. lia.
Qed.

Section Reachable.

Variable re_findall_capitalized : string -> list string.
Variable re_findall_phrases : string -> list string.
Variable set_iter : list string -> list string.
Variable set_intersection_iter : list Z -> list Z -> list Z.
Variable fromisoformat : string -> option datetime.
Variable strptime_Ymd : string -> option datetime.

Local Abbreviation exec' :=
  (exec re_findall_capitalized re_findall_phrases set_iter
        set_intersection_iter fromisoformat strptime_Ymd).
Local Abbreviation run' :=
  (run re_findall_capitalized re_findall_phrases set_iter
       set_intersection_iter fromisoformat strptime_Ymd).
Local Abbreviation store_query' :=
  (store_query re_findall_capitalized re_findall_phrases set_iter).
Local Abbreviation store_experience' :=
  (store_experience re_findall_capitalized re_findall_phrases set_iter).

Lemma store_query_inv t q r md w :
  store_inv (self w) -> store_inv (self (snd (store_query' t q r md w))).
Proof.
  intros Hinv. unfold store_query. cbn [snd]. rewrite self_save_to_file.
  cbn [self]. unfold _index_concepts. apply store_step_inv; [|assumption].
  destruct md as [[|kv md]|]; split; intros v; cbn; intros Hv;
    try discriminate; injection Hv as <-; eauto.
Qed.

Lemma store_experience_inv t c src cs imp w :
  store_inv (self w) ->
  store_inv (self (snd (store_experience' t c src cs imp w))).
Proof.
  intros Hinv. unfold store_experience. cbn [snd].
  rewrite self_save_to_file. cbn [self].
  apply store_step_inv; [|assumption].
  destruct cs as [[|c0 cs]|]; split; intros v; cbn; intros Hv;
    try discriminate; injection Hv as <-; eauto.
Qed.

Lemma exec_inv (c : call) (w : world) :
  store_inv (self w) -> store_inv (self (snd (exec' c w))).
Proof.
  intros Hinv. destruct c; unfold exec; try assumption.
  - pose proof (store_query_inv timestamp query result metadata w Hinv) as H.
    now destruct (store_query' timestamp query result metadata w).
  - pose proof (store_experience_inv timestamp content source concepts
                                     importance w Hinv) as H.
    now destruct (store_experience' timestamp content source concepts
                                    importance w).
  - cbn. apply store_inv_empty.
Qed.

Lemma run_inv (calls : list call) (w : world) :
  store_inv (self w) -> store_inv (self (snd (run' calls w))).
Proof.
  revert w. induction calls as [|c calls IH]; intros w Hinv; [assumption|].
  cbn [run]. pose proof (exec_inv c w Hinv) as Hc.
  destruct (exec' c w) as [r w']. cbn [snd] in Hc.
  specialize (IH w' Hc). destruct (run' calls w') as [rs w''].
  exact IH.
Qed.

(** C9. After any sequence of [store_query], [store_experience],
    [clear_memory] and query calls on a store created empty, no id is
    listed twice for a concept, and every entry id is in the bucket of
    exactly one day of the temporal index, once. *)
Theorem index_invariants_after_any_calls (calls : list call)
  (memory_file : option string) (fs : filesystem) :
  let s := self (snd (run' calls {| self := empty_store memory_file;
                                    files := fs |})) in
  (forall concept ids,
     dict_get concept (associations s) = Some ids -> NoDup ids)
  /\ (forall i, 0 <= i < len (storage s) ->
        exists! day, exists ids,
          dict_get day (temporal_index s) = Some ids /\ In i ids)
  /\ (forall day ids,
        dict_get day (temporal_index s) = Some ids -> NoDup ids).
Proof.
  intros s.
  assert (Hinv : store_inv s).
  { apply run_inv. apply store_inv_empty. }
  destruct Hinv as [Hok Hk Hi Hbk Hbn Hball]. split; [|split].
  - intros concept ids Hg. apply dict_get_In in Hg. now apply Hi in Hg.
  - intros i Hvalid. specialize (Hball i Hvalid).
    apply in_concat in Hball as [l [Hl Hin]].
    apply in_map_iff in Hl as [[day l'] [Heq Hl]]. simpl in Heq. subst l'.
    exists day. split.
    + exists l. split; [|assumption]. now apply In_dict_get.
    + intros day' [ids' [Hg' Hin']]. apply dict_get_In in Hg'.
      exact (NoDup_concat_one_key _ day day' l ids' i Hbk Hbn Hl Hg' Hin Hin').
  - intros day ids Hg. apply dict_get_In in Hg.
    assert (Hsub : forall d : dict string (list Z),
              NoDup (List.concat (map snd d)) -> In (day, ids) d -> NoDup ids).
    { induction d as [|[k l] d IH]; simpl; [tauto|].
      intros Hnd [[= <- <-]|Hin].
      - now apply NoDup_app_remove_r in Hnd.
      - apply NoDup_app_remove_l in Hnd. auto. }
    now apply (Hsub (temporal_index s)).
Qed.

End Reachable.

(** ** Searching *)

Section SearchFacts.

Variable case_sensitive : bool.
Variable keyword : string.

Lemma field_matches_text (t : string) :
  field_matches case_sensitive keyword (PStr t)
  = ret (text_contains case_sensitive keyword (Some t)).
Proof. unfold field_matches. now destruct case_sensitive. Qed.

(** On an entry whose textual fields hold text, the three tests add the
    entry exactly when it matches. *)
Lemma scan_entry_typed (i : Z) (e : entry) (dm : dict Z entry) :
  typed_entry e ->
  scan_entry case_sensitive keyword i e dm
  = ret (if entry_matches case_sensitive keyword e
         then dict_set i e dm else dm).
Proof.
  intros [Hq Hc]. unfold scan_entry, entry_matches, field_text.
  destruct (dict_get "query" e) as [q|] eqn:Eq.
  - destruct (Hq q eq_refl) as [tq ->]. rewrite field_matches_text.
    rewrite bind_ret.
    destruct (text_contains case_sensitive keyword (Some tq)) eqn:Mq;
      cbn [bind ret negb orb]; [reflexivity|].
    destruct (dict_get "result" e) as [[| | | |tr| |]|] eqn:Er;
      cbn [bind ret negb orb text_contains];
      try (destruct (dict_get "content" e) as [c|] eqn:Ec;
           [destruct (Hc c eq_refl) as [tc ->];
            rewrite field_matches_text; reflexivity
           |reflexivity]).
    rewrite field_matches_text. rewrite bind_ret.
    change (text_contains case_sensitive keyword (Some tr))
      with (if case_sensitive then str_in keyword tr
            else str_in (lower keyword) (lower tr)).
    destruct (if case_sensitive then str_in keyword tr
              else str_in (lower keyword) (lower tr)) eqn:Mr;
      cbn [bind ret negb orb]; [reflexivity|].
    destruct (dict_get "content" e) as [c|] eqn:Ec;
      [destruct (Hc c eq_refl) as [tc ->];
       rewrite field_matches_text; reflexivity
      |reflexivity].
  - cbn [bind ret negb orb text_contains].
    destruct (dict_get "result" e) as [[| | | |tr| |]|] eqn:Er;
      cbn [bind ret negb orb text_contains];
      try (destruct (dict_get "content" e) as [c|] eqn:Ec;
           [destruct (Hc c eq_refl) as [tc ->];
            rewrite field_matches_text; reflexivity
           |reflexivity]).
    rewrite field_matches_text. rewrite bind_ret.
    change (text_contains case_sensitive keyword (Some tr))
      with (if case_sensitive then str_in keyword tr
            else str_in (lower keyword) (lower tr)).
    destruct (if case_sensitive then str_in keyword tr
              else str_in (lower keyword) (lower tr)) eqn:Mr;
      cbn [bind ret negb orb]; [reflexivity|].
    destruct (dict_get "content" e) as [c|] eqn:Ec;
      [destruct (Hc c eq_refl) as [tc ->];
       rewrite field_matches_text; reflexivity
      |reflexivity].
Qed.


(** *** Limits *)

Lemma limit_reached_usable (limit : option Z) (n : Z) :
  usable_limit limit ->
  limit_reached limit n
  = match limit with Some l => l <=? n | None => false end.
Proof.
  destruct limit as [l|]; simpl; [|reflexivity].
  intros Hl. destruct (Z.eqb_spec l 0); [lia|reflexivity].
Qed.

Lemma below_limit_usable (limit : option Z) (n : Z) :
  usable_limit limit -> below_limit limit n = negb (limit_reached limit n).
Proof.
  destruct limit as [l|]; simpl; [|reflexivity].
  intros Hl. destruct (Z.eqb_spec l 0); [lia|]. simpl.
  destruct (Z.ltb_spec n l), (Z.leb_spec l n); simpl; auto; lia.
Qed.

Lemma truncate_not_reached {A} (limit : option Z) (l : list A) :
  not_reached limit l -> truncate limit l = l.
Proof.
  destruct limit as [n|]; simpl; [|reflexivity].
  unfold len. intros Hlt. apply firstn_all2. lia.
Qed.

Lemma truncate_fits {A} (limit : option Z) (l : list A) :
  match limit with Some n => len l <= n | None => True end ->
  truncate limit l = l.
Proof.
  destruct limit as [n|]; simpl; [|reflexivity].
  unfold len. intros Hlt. apply firstn_all2. lia.
Qed.

(** Once the limit is reached, what comes after is cut. *)
Lemma truncate_app_reached {A} (limit : option Z) (l more : list A) :
  usable_limit limit ->
  limit_reached limit (len l) = true ->
  truncate limit (l ++ more) = truncate limit l.
Proof.
  intros Hu. rewrite (limit_reached_usable _ _ Hu).
  destruct limit as [n|]; simpl; [|discriminate].
  unfold len. intros Hle. apply Z.leb_le in Hle.
  rewrite firstn_app.
  replace (Z.to_nat n - List.length l)%nat with 0%nat by lia.
  simpl. apply app_nil_r.
Qed.

Lemma not_reached_iff {A} (limit : option Z) (l : list A) :
  usable_limit limit ->
  limit_reached limit (len l) = false <-> not_reached limit l.
Proof.
  intros Hu. rewrite (limit_reached_usable _ _ Hu).
  destruct limit as [n|]; simpl; [|tauto].
  rewrite Z.leb_gt. tauto.
Qed.

Lemma len_truncate_reached {A} (limit : option Z) (l : list A) :
  usable_limit limit ->
  limit_reached limit (len (truncate limit l)) = limit_reached limit (len l).
Proof.
  intros Hu. rewrite !(limit_reached_usable limit _ Hu).
  destruct limit as [n|]; simpl in *; [|reflexivity].
  unfold len. rewrite length_firstn.
  destruct (Z.leb_spec n (Z.of_nat (List.length l)));
    destruct (Z.leb_spec n
                (Z.of_nat (Init.Nat.min (Z.to_nat n) (List.length l))));
    auto; lia.
Qed.

(** *** The direct scan *)

Lemma enumerate_keys {A} (l : list A) (i k : Z) (x : A) :
  In (k, x) (enumerate l i) -> i <= k < i + len l.
Proof.
  revert i. induction l as [|y l IH]; intros i; simpl; [tauto|].
  unfold len in *. simpl List.length.
  intros [[= <- <-]|Hin]; [lia|]. apply IH in Hin. lia.
Qed.

Lemma enumerate_entry_at (store : list entry) (i k : Z) (e : entry) :
  0 <= i ->
  In (k, e) (enumerate store i) ->
  nth (Z.to_nat (k - i)) store [] = e.
Proof.
  revert i. induction store as [|y l IH]; intros i Hi; simpl; [tauto|].
  intros [[= <- <-]|Hin].
  - now rewrite Z.sub_diag.
  - pose proof (enumerate_keys _ _ _ _ Hin) as Hk.
    apply IH in Hin; [|lia].
    replace (Z.to_nat (k - i)) with (S (Z.to_nat (k - (i + 1)))) by lia.
    exact Hin.
Qed.

(** The direct loop returns the matching entries in the order of their
    ids, cut at the limit. *)
Lemma direct_scan_spec (limit : option Z) (entries : list entry) (i : Z)
  (dm : dict Z entry) :
  usable_limit limit ->
  Forall typed_entry entries ->
  (forall k v, In (k, v) dm -> k < i) ->
  not_reached limit dm ->
  direct_scan case_sensitive keyword limit entries i dm
  = ret (truncate limit
           (dm ++ filter (fun p => entry_matches case_sensitive keyword (snd p))
                         (enumerate entries i))).
Proof.
  intros Hu. revert i dm.
  induction entries as [|e rest IH]; intros i dm Hty Hkeys Hopen.
  - simpl. rewrite app_nil_r. now rewrite truncate_not_reached.
  - inversion Hty as [|? ? He Hrest]; subst.
    cbn [direct_scan enumerate filter snd].
    rewrite (scan_entry_typed i e dm He), bind_ret.
    destruct (entry_matches case_sensitive keyword e) eqn:Hm.
    + assert (Hfresh : dict_set i e dm = dm ++ [(i, e)]).
      { apply dict_set_fresh. apply dict_get_None. intros Hin.
        apply in_map_iff in Hin as [[k v] [Hk Hin]]. simpl in Hk. subst k.
        apply Hkeys in Hin. lia. }
      rewrite Hfresh. unfold dict_len. fold (len (dm ++ [(i, e)])).
      destruct (limit_reached limit (len (dm ++ [(i, e)]))) eqn:Hr.
      * rewrite (app_cons_snoc dm (i, e) (filter _ _)),
          (truncate_app_reached _ _ _ Hu Hr).
        f_equal. symmetry. apply truncate_fits.
        destruct limit as [n|]; simpl in *; [|exact I].
        rewrite len_app_one. lia.
      * rewrite IH; auto.
        -- now rewrite (app_cons_snoc dm (i, e) (filter _ _)).
        -- intros k v Hin. apply in_app_or in Hin as [Hin|[[= <- <-]|[]]];
             [apply Hkeys in Hin|]; lia.
        -- now apply not_reached_iff.
    + unfold dict_len. fold (len dm).
      replace (limit_reached limit (len dm)) with false
        by (symmetry; now apply not_reached_iff).
      apply IH; auto.
      intros k v Hin. apply Hkeys in Hin. lia.
Qed.

End SearchFacts.

(** *** Mappings from ids to entries *)

Lemma py_index_valid (store : list entry) (i : Z) :
  valid_id store i -> py_index store i = ret (entry_at store i).
Proof.
  unfold valid_id, py_index, entry_at, len. intros [Hlo Hhi].
  destruct (Z.ltb_spec i 0); [lia|].
  destruct (Z.ltb_spec i 0); [lia|].
  destruct (nth_error store (Z.to_nat i)) as [e|] eqn:Hn.
  - now rewrite (nth_error_nth _ _ _ Hn).
  - apply nth_error_None in Hn. lia.
Qed.

Lemma materialize_valid (store : list entry) (ids : list Z) :
  Forall (valid_id store) ids ->
  materialize store ids = ret (map (entry_at store) ids).
Proof.
  induction 1 as [|i ids Hi Hids IH]; [reflexivity|].
  simpl. now rewrite (py_index_valid _ _ Hi), bind_ret, IH.
Qed.

Lemma dict_get_entries_by_id (store : list entry) (ms : list Z) (i : Z) :
  dict_get i (entries_by_id store ms)
  = if int_in i ms then Some (entry_at store i) else None.
Proof.
  induction ms as [|m ms IH]; [reflexivity|].
  simpl. destruct (Z.eqb_spec i m) as [->|Hne]; [reflexivity|].
  simpl. exact IH.
Qed.

Lemma dict_mem_entries_by_id (store : list entry) (ms : list Z) (i : Z) :
  dict_mem i (entries_by_id store ms) = int_in i ms.
Proof.
  unfold dict_mem. rewrite dict_get_entries_by_id. now destruct (int_in i ms).
Qed.

Lemma dict_set_entries_by_id (store : list entry) (ms : list Z) (i : Z) :
  int_in i ms = false ->
  dict_set i (entry_at store i) (entries_by_id store ms)
  = entries_by_id store (ms ++ [i]).
Proof.
  intros Hnot. rewrite dict_set_fresh.
  - unfold entries_by_id. now rewrite map_app.
  - rewrite dict_get_entries_by_id. now rewrite Hnot.
Qed.

Lemma len_entries_by_id (store : list entry) (ms : list Z) :
  len (entries_by_id store ms) = len ms.
Proof. unfold len, entries_by_id. now rewrite length_map. Qed.

Lemma entries_by_id_enumerate (store : list entry)
  (f : Z * entry -> bool) :
  filter f (enumerate store 0)
  = entries_by_id store (map fst (filter f (enumerate store 0))).
Proof.
  unfold entries_by_id. rewrite map_map.
  rewrite <- (map_id (filter f (enumerate store 0))) at 1.
  apply map_ext_in. intros [k e] Hin. simpl.
  apply filter_In in Hin as [Hin _].
  apply enumerate_entry_at in Hin; [|lia].
  unfold entry_at. now rewrite Z.sub_0_r in Hin; subst.
Qed.

(** *** Candidates not yet present *)

Lemma uniq_app (seen a b : list Z) :
  uniq seen (a ++ b) = uniq seen a ++ uniq (seen ++ uniq seen a) b.
Proof.
  revert seen. induction a as [|x a IH]; intros seen; simpl.
  - now rewrite app_nil_r.
  - destruct (int_in x seen).
    + apply IH.
    + simpl. rewrite IH. f_equal. now rewrite <- app_cons_snoc.
Qed.

Lemma uniq_fresh (seen l : list Z) :
  NoDup l -> (forall x, In x l -> ~ In x seen) -> uniq seen l = l.
Proof.
  intros Hnd. revert seen. induction Hnd as [|x l Hx Hnd IH]; intros seen Hd;
    [reflexivity|].
  simpl. replace (int_in x seen) with false.
  - f_equal. apply IH. intros y Hy Hin.
    apply in_app_or in Hin as [Hin|[<-|[]]].
    + apply (Hd y); [now right|assumption].
    + contradiction.
  - symmetry. apply int_in_false. apply Hd. now left.
Qed.

Lemma uniq_In (seen l : list Z) (x : Z) :
  In x (uniq seen l) <-> In x l /\ ~ In x seen.
Proof.
  revert seen. induction l as [|y l IH]; intros seen; simpl; [tauto|].
  destruct (int_in y seen) eqn:Hy.
  - apply int_in_In in Hy. rewrite IH. split; [tauto|].
    intros [[<-|Hin] Hn]; tauto.
  - apply int_in_false in Hy. simpl. rewrite IH, in_app_iff. simpl.
    split.
    + intros [<-|[Hin Hn]]; tauto.
    + intros [[<-|Hin] Hn]; [now left|].
      destruct (Z.eq_dec y x) as [->|Hne]; [now left|right]. tauto.
Qed.

Lemma uniq_NoDup (seen l : list Z) : NoDup (uniq seen l).
Proof.
  revert seen. induction l as [|y l IH]; intros seen; simpl; [constructor|].
  destruct (int_in y seen); [apply IH|].
  constructor; [|apply IH].
  rewrite uniq_In, in_app_iff. simpl. tauto.
Qed.

(** *** The two association loops *)

Lemma add_associated_spec (store : list entry) (limit : option Z)
  (ids ms : list Z) :
  usable_limit limit ->
  Forall (valid_id store) ids ->
  not_reached limit ms ->
  add_associated store limit ids (entries_by_id store ms)
  = ret (entries_by_id store (truncate limit (ms ++ uniq ms ids))).
Proof.
  intros Hu Hval. revert ms.
  induction Hval as [|i ids Hi Hval IH]; intros ms Hopen.
  - simpl. rewrite app_nil_r. now rewrite truncate_not_reached.
  - cbn [add_associated uniq]. rewrite dict_mem_entries_by_id.
    destruct (int_in i ms) eqn:Hin; [now apply IH|].
    rewrite (py_index_valid _ _ Hi), bind_ret.
    rewrite (dict_set_entries_by_id _ _ _ Hin).
    unfold dict_len. fold (len (entries_by_id store (ms ++ [i]))).
    rewrite len_entries_by_id.
    destruct (limit_reached limit (len (ms ++ [i]))) eqn:Hr.
    + rewrite (app_cons_snoc ms i (uniq _ _)),
        (truncate_app_reached _ _ _ Hu Hr).
      do 2 f_equal. symmetry. apply truncate_fits.
      destruct limit as [n|]; simpl in *; [|exact I].
      rewrite len_app_one. lia.
    + rewrite IH.
      * now rewrite (app_cons_snoc ms i (uniq _ _)).
      * now apply not_reached_iff.
Qed.

Lemma scan_concepts_spec (store : list entry) (limit : option Z)
  (needle : string) (items : dict string (list Z)) (ms : list Z) :
  usable_limit limit ->
  index_ok store items ->
  not_reached limit ms ->
  scan_concepts store limit needle items (entries_by_id store ms)
  = ret (entries_by_id store
           (truncate limit (ms ++ uniq ms (lookup_containing needle items)))).
Proof.
  intros Hu. revert ms.
  induction items as [|[concept ids] items IH]; intros ms Hok Hopen.
  - simpl. rewrite app_nil_r. now rewrite truncate_not_reached.
  - assert (Hok' : index_ok store items).
    { intros k v Hin. apply (Hok k v). now right. }
    assert (Hids : Forall (valid_id store) ids).
    { apply (Hok concept ids). now left. }
    unfold lookup_containing in *. cbn [scan_concepts filter fst snd].
    destruct (str_in needle concept && negb (String.eqb concept needle)).
    + cbn [map snd List.concat].
      rewrite (add_associated_spec _ _ _ _ Hu Hids Hopen), bind_ret.
      unfold dict_len.
      fold (len (entries_by_id store (truncate limit (ms ++ uniq ms ids)))).
      rewrite len_entries_by_id, (len_truncate_reached _ _ Hu).
      rewrite uniq_app, app_assoc.
      destruct (limit_reached limit (len (ms ++ uniq ms ids))) eqn:Hr.
      * now rewrite (truncate_app_reached _ _ _ Hu Hr).
      * apply (not_reached_iff _ _ Hu) in Hr.
        rewrite (truncate_not_reached _ _ Hr). now apply IH.
    + now apply IH.
Qed.

(** *** The whole search *)

Lemma enumerate_filter_NoDup {A} (f : Z * A -> bool) (l : list A) (i : Z) :
  NoDup (map fst (filter f (enumerate l i))).
Proof.
  revert i. induction l as [|x l IH]; intros i; simpl; [constructor|].
  destruct (f (i, x)); [|apply IH].
  simpl. constructor; [|apply IH].
  intros Hin. apply in_map_iff in Hin as [[k y] [Hk Hin]].
  simpl in Hk. subst k. apply filter_In in Hin as [Hin _].
  apply enumerate_keys in Hin. lia.
Qed.

Lemma direct_ids_NoDup (case_sensitive : bool) (keyword : string)
  (store : list entry) :
  NoDup (direct_ids case_sensitive keyword store).
Proof. apply enumerate_filter_NoDup. Qed.

Lemma truncate_entries_by_id (store : list entry) (limit : option Z)
  (ids : list Z) :
  truncate limit (entries_by_id store ids)
  = entries_by_id store (truncate limit ids).
Proof.
  destruct limit as [n|]; simpl; [|reflexivity].
  unfold entries_by_id. now rewrite firstn_map.
Qed.

Lemma discovery_order_phases (s : SullySearchMemory) (keyword : string)
  (case_sensitive : bool) :
  let direct := direct_ids case_sensitive keyword (storage s) in
  let exact :=
    direct ++ uniq direct (lookup (lower keyword) (associations s)) in
  discovery_order s keyword case_sensitive true
  = exact ++ uniq exact (lookup_containing (lower keyword) (associations s)).
Proof.
  intros direct exact. unfold discovery_order. fold direct.
  rewrite uniq_app. simpl.
  rewrite (uniq_fresh [] direct); [|apply direct_ids_NoDup|auto].
  rewrite uniq_app. now rewrite app_assoc.
Qed.

(** On a well-formed store and with no limit or a positive one, [search]
    returns the entries of the discovery order, cut at the limit. *)
Lemma search_refines (s : SullySearchMemory) (keyword : string)
  (case_sensitive : bool) (limit : option Z) (include_associations : bool) :
  store_ok s ->
  usable_limit limit ->
  search s keyword case_sensitive limit include_associations
  = ret (search_spec s keyword case_sensitive limit include_associations).
Proof.
  intros [Hent Hassoc _] Hu. unfold search, search_spec.
  assert (Hstart : not_reached limit (@nil (Z * entry))).
  { destruct limit; simpl in *; [unfold len; simpl; lia|exact I]. }
  rewrite (direct_scan_spec case_sensitive keyword limit (storage s) 0 []
             Hu Hent (fun k v (H : In (k, v) []) => match H with end) Hstart).
  rewrite bind_ret. cbn [app].
  rewrite entries_by_id_enumerate, truncate_entries_by_id.
  fold (direct_ids case_sensitive keyword (storage s)).
  set (direct := direct_ids case_sensitive keyword (storage s)).
  destruct include_associations; cbn [negb orb].
  2:{ reflexivity. }
  rewrite discovery_order_phases. fold direct.
  set (hits := lookup (lower keyword) (associations s)).
  set (partial := lookup_containing (lower keyword) (associations s)).
  unfold dict_len.
  fold (len (entries_by_id (storage s) (truncate limit direct))).
  rewrite len_entries_by_id, (len_truncate_reached _ _ Hu).
  destruct (limit_reached limit (len direct)) eqn:Hr.
  { rewrite <- app_assoc. now rewrite (truncate_app_reached _ _ _ Hu Hr). }
  apply (not_reached_iff _ _ Hu) in Hr.
  rewrite (truncate_not_reached _ _ Hr).
  assert (Hexact :
    match dict_get (lower keyword) (associations s) with
    | Some indices =>
        add_associated (storage s) limit indices
                       (entries_by_id (storage s) direct)
    | None => ret (entries_by_id (storage s) direct)
    end
    = ret (entries_by_id (storage s)
             (truncate limit (direct ++ uniq direct hits)))).
  { unfold hits, lookup.
    destruct (dict_get (lower keyword) (associations s)) as [ids|] eqn:Hg.
    - apply add_associated_spec; auto.
      apply (Hassoc (lower keyword) ids). now apply dict_get_In.
    - simpl. rewrite app_nil_r. now rewrite (truncate_not_reached _ _ Hr). }
  rewrite Hexact, bind_ret. clear Hexact.
  rewrite (below_limit_usable _ _ Hu). unfold dict_len.
  fold (len (entries_by_id (storage s)
               (truncate limit (direct ++ uniq direct hits)))).
  rewrite len_entries_by_id, (len_truncate_reached _ _ Hu).
  destruct (limit_reached limit (len (direct ++ uniq direct hits))) eqn:Hr2;
    cbn [negb].
  { now rewrite (truncate_app_reached _ _ _ Hu Hr2). }
  apply (not_reached_iff _ _ Hu) in Hr2.
  rewrite (truncate_not_reached _ _ Hr2).
  now apply scan_concepts_spec.
Qed.

(** *** What the scan of one entry looks at *)

(** A matching query text decides: neither the result nor the content is
    looked at, whatever they hold. *)
Lemma scan_entry_query_first (case_sensitive : bool) (keyword : string)
  (i : Z) (e : entry) (dm : dict Z entry) (q : string) :
  dict_get "query" e = Some (PStr q) ->
  text_contains case_sensitive keyword (Some q) = true ->
  scan_entry case_sensitive keyword i e dm = ret (dict_set i e dm).
Proof.
  intros Hq Hm. unfold scan_entry. rewrite Hq, field_matches_text, Hm.
  reflexivity.
Qed.

(** When the query text does not match, a matching string result decides:
    the content is not looked at. *)
Lemma scan_entry_result_second (case_sensitive : bool) (keyword : string)
  (i : Z) (e : entry) (dm : dict Z entry) (r : string) :
  (dict_get "query" e = None
   \/ exists q, dict_get "query" e = Some (PStr q)
                /\ text_contains case_sensitive keyword (Some q) = false) ->
  dict_get "result" e = Some (PStr r) ->
  text_contains case_sensitive keyword (Some r) = true ->
  scan_entry case_sensitive keyword i e dm = ret (dict_set i e dm).
Proof.
  intros Hq Hr Hm. unfold scan_entry.
  destruct Hq as [Hq|[q [Hq Hn]]]; rewrite Hq.
  - cbn [bind ret negb]. rewrite Hr, field_matches_text, Hm. reflexivity.
  - rewrite field_matches_text, Hn. cbn [bind ret negb].
    rewrite Hr, field_matches_text, Hm. reflexivity.
Qed.

(** *** Direct matches *)

Lemma enumerate_In (store : list entry) (i k : Z) :
  i <= k < i + len store ->
  In (k, nth (Z.to_nat (k - i)) store []) (enumerate store i).
Proof.
  revert i. induction store as [|e store IH]; intros i; unfold len; simpl.
  - lia.
  - intros Hk. destruct (Z.eq_dec k i) as [->|Hne].
    + left. now rewrite Z.sub_diag.
    + right. replace (Z.to_nat (k - i)) with (S (Z.to_nat (k - (i + 1))))
        by lia.
      apply IH. unfold len. lia.
Qed.

Lemma direct_ids_In (case_sensitive : bool) (keyword : string)
  (store : list entry) (i : Z) :
  In i (direct_ids case_sensitive keyword store)
  <-> valid_id store i
      /\ entry_matches case_sensitive keyword (entry_at store i) = true.
Proof.
  unfold direct_ids, valid_id, entry_at. rewrite in_map_iff. split.
  - intros [[k e] [Hk Hin]]. simpl in Hk. subst k.
    apply filter_In in Hin as [Hin Hm]. simpl in Hm.
    pose proof (enumerate_keys _ _ _ _ Hin) as Hkeys.
    apply enumerate_entry_at in Hin; [|lia].
    rewrite Z.sub_0_r in Hin. subst e. split; [lia|assumption].
  - intros [Hv Hm]. exists (i, nth (Z.to_nat i) store []).
    split; [reflexivity|].
    apply filter_In. split; [|assumption].
    pose proof (enumerate_In store 0 i) as Hin.
    rewrite Z.sub_0_r in Hin. apply Hin. lia.
Qed.

Lemma enumerate_filter_sorted {A} (f : Z * A -> bool) (l : list A) (i : Z) :
  StronglySorted Z.lt (map fst (filter f (enumerate l i))).
Proof.
  revert i. induction l as [|x l IH]; intros i; simpl; [constructor|].
  destruct (f (i, x)); [|apply IH].
  simpl. constructor; [apply IH|].
  apply Forall_forall. intros k Hin.
  apply in_map_iff in Hin as [[k' y] [Hk Hin]]. simpl in Hk. subst k'.
  apply filter_In in Hin as [Hin _]. apply enumerate_keys in Hin. lia.
Qed.

(** C2. On a well-formed store, [search] returns the mapping of the
    discovery order: the directly matching entries in ascending id order,
    an entry matching by its query text, else by its string result, else
    by its content, the first matching field deciding without a look at
    the later ones; then the ids of the exact concept that are not yet
    present, then those of the partial concepts; and the empty mapping,
    without an error, when nothing matches. *)
Theorem search_returns_discovery_order (s : SullySearchMemory)
  (keyword : string) (case_sensitive : bool) (limit : option Z)
  (include_associations : bool) :
  store_ok s ->
  usable_limit limit ->
  let direct := direct_ids case_sensitive keyword (storage s) in
  let exact := lookup (lower keyword) (associations s) in
  let partial := lookup_containing (lower keyword) (associations s) in
  let found :=
    if include_associations
    then direct ++ uniq direct exact
                ++ uniq (direct ++ uniq direct exact) partial
    else direct in
  search s keyword case_sensitive limit include_associations
  = ret (entries_by_id (storage s) (truncate limit found))
  /\ StronglySorted Z.lt direct
  /\ (forall i, In i direct <->
        valid_id (storage s) i
        /\ entry_matches case_sensitive keyword (entry_at (storage s) i)
           = true)
  /\ (forall i e dm q,
        dict_get "query" e = Some (PStr q) ->
        text_contains case_sensitive keyword (Some q) = true ->
        scan_entry case_sensitive keyword i e dm = ret (dict_set i e dm))
  /\ (forall i e dm r,
        (dict_get "query" e = None
         \/ exists q, dict_get "query" e = Some (PStr q)
              /\ text_contains case_sensitive keyword (Some q) = false) ->
        dict_get "result" e = Some (PStr r) ->
        text_contains case_sensitive keyword (Some r) = true ->
        scan_entry case_sensitive keyword i e dm = ret (dict_set i e dm))
  /\ (found = [] ->
      search s keyword case_sensitive limit include_associations = ret []).
Proof.
  intros Hok Hu direct exact partial found.
  assert (Hsearch :
    search s keyword case_sensitive limit include_associations
    = ret (entries_by_id (storage s) (truncate limit found))).
  { rewrite (search_refines s keyword case_sensitive limit
               include_associations Hok Hu).
    unfold search_spec, found. destruct include_associations.
    - rewrite discovery_order_phases. now rewrite <- app_assoc.
    - reflexivity. }
  split; [exact Hsearch|].
  split; [apply enumerate_filter_sorted|].
  split; [apply direct_ids_In|].
  split; [apply scan_entry_query_first|].
  split; [apply scan_entry_result_second|].
  intros Hnone. rewrite Hsearch, Hnone.
  destruct limit as [n|]; simpl; [|reflexivity]. now rewrite firstn_nil.
Qed.

(** With a positive limit the mapping has at most [limit] entries. *)
Lemma search_respects_positive_limit (s : SullySearchMemory)
  (keyword : string) (case_sensitive : bool) (limit : Z)
  (include_associations : bool) (m : dict Z entry) :
  store_ok s ->
  0 < limit ->
  search s keyword case_sensitive (Some limit) include_associations = ret m ->
  len m <= limit.
Proof.
  intros Hok Hpos.
  rewrite (search_refines s keyword case_sensitive (Some limit)
             include_associations Hok Hpos).
  intros [= <-]. unfold search_spec. rewrite len_entries_by_id.
  unfold len. simpl. rewrite length_firstn. lia.
Qed.

(** *** Limits that are no limits *)

(** With a negative limit the direct loop stops after the first entry. *)
Lemma direct_scan_negative_limit (case_sensitive : bool) (keyword : string)
  (limit : Z) (e : entry) (rest : list entry) :
  limit < 0 ->
  typed_entry e ->
  direct_scan case_sensitive keyword (Some limit) (e :: rest) 0 []
  = ret (if entry_matches case_sensitive keyword e then [(0, e)] else []).
Proof.
  intros Hneg He. cbn [direct_scan].
  rewrite (scan_entry_typed case_sensitive keyword 0 e [] He), bind_ret.
  unfold limit_reached, dict_len.
  destruct (Z.eqb_spec limit 0); [lia|]. cbn [negb andb].
  destruct (entry_matches case_sensitive keyword e); simpl;
    (destruct (Z.leb_spec limit 0) as [_|Hgt]; [reflexivity|lia])
    || (destruct (Z.leb_spec limit 1) as [_|Hgt]; [reflexivity|lia]).
Qed.

(** C7, as the code has it. [search] has no error for a negative limit:
    on a well-formed store it returns, and what it returns is the first
    entry when that entry matches, and nothing otherwise. *)
Theorem search_negative_limit_returns (s : SullySearchMemory)
  (keyword : string) (case_sensitive : bool) (limit : Z)
  (include_associations : bool) :
  store_ok s ->
  limit < 0 ->
  search s keyword case_sensitive (Some limit) include_associations
  = ret (match storage s with
         | [] => []
         | e :: _ =>
             if entry_matches case_sensitive keyword e then [(0, e)] else []
         end)
  /\ ~ fails (search s keyword case_sensitive (Some limit)
                     include_associations).
Proof.
  intros [Hent _ _] Hneg.
  assert (Hsearch :
    search s keyword case_sensitive (Some limit) include_associations
    = ret (match storage s with
           | [] => []
           | e :: _ =>
               if entry_matches case_sensitive keyword e then [(0, e)]
               else []
           end)).
  { unfold search. destruct (storage s) as [|e rest] eqn:Hst.
    - cbn [direct_scan bind ret]. unfold limit_reached, dict_len. simpl.
      destruct (Z.eqb_spec limit 0); [lia|].
      destruct (Z.leb_spec limit 0); [|lia].
      cbn [negb andb orb]. now rewrite orb_true_r.
    - inversion Hent as [|? ? He _]; subst.
      rewrite (direct_scan_negative_limit case_sensitive keyword limit
                 e rest Hneg He), bind_ret.
      unfold limit_reached, dict_len.
      destruct (Z.eqb_spec limit 0); [lia|]. cbn [negb andb].
      destruct (entry_matches case_sensitive keyword e); simpl;
        (destruct (Z.leb_spec limit 0) as [_|Hgt]; [|lia])
        || (destruct (Z.leb_spec limit 1) as [_|Hgt]; [|lia]);
        now rewrite orb_true_r. }
  split; [exact Hsearch|]. rewrite Hsearch. apply fails_ret.
Qed.

(** ** Snapshots *)


Lemma restore_export (s s0 : SullySearchMemory) :
  restore (export_full_system s) s0
  = {| storage := storage s; associations := associations s;
       temporal_index := temporal_index s; memory_file := memory_file s0 |}.
Proof. reflexivity. Qed.

(** The queries read the three structures only. *)
Lemma search_same_structures (s s' : SullySearchMemory) keyword
  case_sensitive limit include_associations :
  storage s' = storage s ->
  associations s' = associations s ->
  search s' keyword case_sensitive limit include_associations
  = search s keyword case_sensitive limit include_associations.
Proof. intros Hs Ha. unfold search. now rewrite Hs, Ha. Qed.

(** C4, as the code has it. Loading never fails and checks nothing. A
    file that does not hold a JSON object leaves the store as it was.
    From a JSON object each of the three attributes whose section is
    present takes the value of the section, and each of the others keeps
    its value, whatever the sections hold. *)
Theorem load_replaces_the_sections_present (w : world) (path : string)
  (data : document) :
  truthy_path (memory_file (self w)) = Some path ->
  dict_get path (files w) = Some data ->
  fst (_load_from_file w) = ret tt
  /\ files (snd (_load_from_file w)) = files w
  /\ memory_file (self (snd (_load_from_file w))) = memory_file (self w)
  /\ match data with
     | NotAnObject => self (snd (_load_from_file w)) = self w
     | JsonObject st assoc ti =>
         storage (self (snd (_load_from_file w)))
         = section_or st (storage (self w))
         /\ associations (self (snd (_load_from_file w)))
            = section_or assoc (associations (self w))
         /\ temporal_index (self (snd (_load_from_file w)))
            = section_or ti (temporal_index (self w))
     end.
Proof.
  intros Hpath Hdata. unfold _load_from_file. rewrite Hpath, Hdata.
  cbn [fst snd self files].
  destruct data as [[st|] [assoc|] [ti|]|]; repeat split; reflexivity.
Qed.

(** ** The snapshot as JSON *)

















Section SnapshotFacts.

Variable set_intersection_iter : list Z -> list Z -> list Z.
Variable fromisoformat : string -> option datetime.
Variable strptime_Ymd : string -> option datetime.


End SnapshotFacts.

(** ** The temporal window *)

Lemma window_loop_step (index : dict string (list Z))
  (end_date current_date : Z) (window_memories : list Z) :
  window_loop index end_date current_date window_memories
  = if current_date <=? end_date then
      match date_add current_date 1 with
      | inl e => raise e
      | inr next =>
          window_loop index end_date next
            (window_memories ++ bucket index current_date)
      end
    else ret window_memories.
Proof.
  simp window_loop.
  destruct (Z_le_gt_dec current_date end_date) as [Hle|Hgt]; simpl.
  - destruct (Z.leb_spec current_date end_date); [|lia].
    unfold bucket, lookup.
    destruct (date_add current_date 1) as [err|next]; [reflexivity|].
    destruct (dict_get (strftime_Ymd current_date) index);
      [reflexivity|now rewrite app_nil_r].
  - destruct (Z.leb_spec current_date end_date); [lia|reflexivity].
Qed.

Lemma date_add_in_range (d n : Z) :
  1 <= d + n <= MAXORDINAL -> date_add d n = ret (d + n).
Proof.
  intros [Hlo Hhi]. unfold date_add.
  destruct (Z.leb_spec 1 (d + n)); [|lia].
  destruct (Z.leb_spec (d + n) MAXORDINAL); [reflexivity|lia].
Qed.

(** Within the calendar and short of its last day, the loop gathers the
    buckets of the days from [current_date] to [end_date]. *)
Lemma window_loop_spec (index : dict string (list Z)) (end_date : Z)
  (count : nat) (current_date : Z) (window_memories : list Z) :
  1 <= current_date ->
  end_date < MAXORDINAL ->
  Z.of_nat count = end_date + 1 - current_date ->
  window_loop index end_date current_date window_memories
  = ret (window_memories
         ++ List.concat (map (bucket index) (days_from current_date count))).
Proof.
  revert current_date window_memories.
  induction count as [|count IH]; intros current wm Hlo Hhi Hcount;
    rewrite window_loop_step.
  - destruct (Z.leb_spec current end_date); [lia|].
    simpl. now rewrite app_nil_r.
  - destruct (Z.leb_spec current end_date); [|lia].
    rewrite date_add_in_range by lia. cbn [ret].
    rewrite IH by lia. cbn [days_from map List.concat].
    now rewrite app_assoc.
Qed.

Lemma days_from_In (first : Z) (count : nat) (day : Z) :
  In day (days_from first count) <-> first <= day < first + Z.of_nat count.
Proof.
  revert first. induction count as [|count IH]; intros first.
  - simpl. lia.
  - cbn [days_from In]. rewrite IH. lia.
Qed.

Lemma days_from_sorted (first : Z) (count : nat) :
  StronglySorted Z.lt (days_from first count).
Proof.
  revert first. induction count as [|count IH]; intros first;
    [constructor|].
  cbn [days_from]. constructor; [apply IH|].
  apply Forall_forall. intros day Hin. apply days_from_In in Hin. lia.
Qed.

Lemma append_at_empty (key : string) (x : Z) :
  append_at key x [] = [(key, [x])].
Proof.
  unfold append_at, dict_mem. cbn [dict_get dict_set].
  rewrite !(keqb_refl key). reflexivity.
Qed.

Lemma append_at_same (key : string) (x : Z) (l : list Z) :
  append_at key x [(key, l)] = [(key, l ++ [x])].
Proof.
  unfold append_at, dict_mem.
  do 3 (cbn [dict_get dict_set]; try rewrite !(keqb_refl key)). reflexivity.
Qed.

Lemma bucket_valid (s : SullySearchMemory) (day : Z) :
  store_ok s -> Forall (valid_id (storage s)) (bucket (temporal_index s) day).
Proof.
  intros [_ _ Ht]. unfold bucket.
  destruct (lookup_In (strftime_Ymd day) (temporal_index s)) as [Hl|Hl].
  - rewrite Hl. constructor.
  - now apply Ht in Hl.
Qed.

Lemma window_valid (s : SullySearchMemory) (target_date window_days : Z) :
  store_ok s ->
  Forall (valid_id (storage s))
         (window (temporal_index s) target_date window_days).
Proof.
  intros Hok. unfold window. apply Forall_concat. apply Forall_map.
  apply Forall_forall. intros day _. now apply bucket_valid.
Qed.

Lemma Forall_truncate {A} (P : A -> Prop) (limit : option Z) (l : list A) :
  Forall P l -> Forall P (truncate limit l).
Proof.
  destruct limit as [n|]; simpl; [|auto]. intros Hall.
  rewrite <- (firstn_skipn (Z.to_nat n) l) in Hall.
  now apply Forall_app in Hall.
Qed.

Lemma slice_usable_limit {A} (limit : option Z) (l : list A) :
  usable_limit limit ->
  match limit with
  | Some n => if n =? 0 then l else py_slice_to l n
  | None => l
  end = truncate limit l.
Proof.
  destruct limit as [n|]; simpl; [|reflexivity]. intros Hpos.
  destruct (Z.eqb_spec n 0); [lia|]. unfold py_slice_to.
  destruct (Z.ltb_spec n 0); [lia|reflexivity].
Qed.

Section TemporalFacts.

Variable re_findall_capitalized : string -> list string.
Variable re_findall_phrases : string -> list string.
Variable set_iter : list string -> list string.
Variable fromisoformat : string -> option datetime.
Variable strptime_Ymd : string -> option datetime.

Local Abbreviation store_query' :=
  (store_query re_findall_capitalized re_findall_phrases set_iter).
Local Abbreviation store_experience' :=
  (store_experience re_findall_capitalized re_findall_phrases set_iter).
Local Abbreviation get_temporal_context' :=
  (get_temporal_context fromisoformat strptime_Ymd).

Lemma get_temporal_context_window (s : SullySearchMemory)
  (anchor : timestamp_or_date) (t : datetime) (window_days : Z)
  (limit : option Z) :
  store_ok s ->
  anchored_at fromisoformat strptime_Ymd anchor t ->
  0 <= window_days ->
  1 <= dt_date t - window_days ->
  dt_date t + window_days < MAXORDINAL ->
  usable_limit limit ->
  get_temporal_context' s anchor window_days limit
  = ret (map (entry_at (storage s))
             (truncate limit
                (window (temporal_index s) (dt_date t) window_days))).
Proof.
  intros Hok Hanchor Hw Hlo Hhi Hu. unfold get_temporal_context.
  assert (Htarget :
    match anchor with
    | OfStr str =>
        match fromisoformat str with
        | Some dt => Some (dt_date dt)
        | None => match strptime_Ymd str with
                  | Some dt => Some (dt_date dt)
                  | None => None
                  end
        end
    | OfDatetime dt => Some (dt_date dt)
    end = Some (dt_date t)).
  { destruct anchor as [str|dt]; simpl in Hanchor.
    - destruct Hanchor as [->|[-> ->]]; reflexivity.
    - now subst. }
  rewrite Htarget. unfold MAXORDINAL in *.
  assert (Hdelta : timedelta_days window_days = ret window_days).
  { unfold timedelta_days. destruct (Z.leb_spec (Z.abs window_days) 999999999);
      [reflexivity|lia]. }
  rewrite Hdelta. cbn [bind ret].
  rewrite (date_add_in_range (dt_date t) (- window_days))
    by (unfold MAXORDINAL; lia).
  cbn [bind ret].
  rewrite (date_add_in_range (dt_date t) window_days)
    by (unfold MAXORDINAL; lia).
  cbn [bind ret].
  rewrite (window_loop_spec (temporal_index s) (dt_date t + window_days)
             (Z.to_nat (2 * window_days + 1)) (dt_date t + - window_days) [])
    by (unfold MAXORDINAL; lia).
  cbn [bind ret app]. rewrite (slice_usable_limit _ _ Hu).
  replace (dt_date t + - window_days) with (dt_date t - window_days) by lia.
  fold (window (temporal_index s) (dt_date t) window_days).
  apply materialize_valid. apply Forall_truncate. now apply window_valid.
Qed.

(** C6, as the code has it. For a well-formed store, an anchor date and
    a window that lies within the calendar and ends before its last day,
    [get_temporal_context] returns the entries bucketed on the days from
    [anchor - window_days] to [anchor + window_days], day after day and in
    insertion order within a day, cut at the limit when a positive limit is
    given. In the gravity scenario, anchored at the day of the two entries
    with [window_days = 0], it returns the entries 0 and 1. *)
Theorem temporal_context_returns_window :
  (forall (s : SullySearchMemory) (anchor : timestamp_or_date)
          (t : datetime) (window_days : Z) (limit : option Z),
     store_ok s ->
     anchored_at fromisoformat strptime_Ymd anchor t ->
     0 <= window_days ->
     1 <= dt_date t - window_days ->
     dt_date t + window_days < MAXORDINAL ->
     usable_limit limit ->
     get_temporal_context' s anchor window_days limit
     = ret (map (entry_at (storage s))
                (truncate limit
                   (window (temporal_index s) (dt_date t) window_days))))
  /\ (forall (index : dict string (list Z)) (target_date window_days : Z),
       0 <= window_days ->
       let days := days_from (target_date - window_days)
                             (Z.to_nat (2 * window_days + 1)) in
       window index target_date window_days
       = List.concat (map (bucket index) days)
       /\ StronglySorted Z.lt days
       /\ (forall day, In day days <->
              target_date - window_days <= day <= target_date + window_days))
  /\ (forall (t1 t2 : datetime) (memory_file : option string)
             (fs : filesystem),
       dt_date t2 = dt_date t1 ->
       1 <= dt_date t1 < MAXORDINAL ->
       let w0 := {| self := empty_store memory_file; files := fs |} in
       let w1 := snd (store_query' t1 "What is gravity?"
                                   (PStr "Gravity is G=...") None w0) in
       let w2 := snd (store_experience' t2 "Newton described gravity" "book"
                                        (Some ["gravity"]) 0.5%float w1) in
       window (temporal_index (self w2)) (dt_date t1) 0 = [0; 1]
       /\ get_temporal_context' (self w2) (OfDatetime t1) 0 None
          = ret (map (entry_at (storage (self w2))) [0; 1])).
Proof.
  split; [exact get_temporal_context_window|].
  split.
  { intros index target_date window_days Hw days.
    split; [reflexivity|]. split; [apply days_from_sorted|].
    intros day. unfold days. rewrite days_from_In. lia. }
  intros t1 t2 memory_file fs Hsame Hrange w0 w1 w2.
  assert (Hok : store_ok (self w2)).
  { apply inv_ok. apply store_experience_inv. apply store_query_inv.
    apply store_inv_empty. }
  assert (Hwindow : window (temporal_index (self w2)) (dt_date t1) 0 = [0; 1]).
  { unfold w2, store_experience. cbn [snd]. rewrite self_save_to_file.
    cbn [self temporal_index storage].
    unfold w1, store_query. cbn [snd]. rewrite self_save_to_file.
    cbn [self temporal_index storage w0 empty_store].
    rewrite Hsame, append_at_empty. cbn [len List.length app Z.of_nat].
    change (Z.pos (Pos.of_succ_nat 0)) with 1.
    rewrite append_at_same. unfold window.
    change (Z.to_nat (2 * 0 + 1)) with 1%nat.
    cbn [days_from map List.concat app].
    rewrite Z.sub_0_r, app_nil_r. unfold bucket, lookup. cbn [dict_get].
    now rewrite (keqb_refl (strftime_Ymd (dt_date t1))). }
  split; [exact Hwindow|].
  rewrite (get_temporal_context_window (self w2) (OfDatetime t1) t1 0 None
             Hok eq_refl); try lia; [|exact I].
  cbn [truncate]. now rewrite Hwindow.
Qed.

End TemporalFacts.

(** ** Connections *)

Lemma get_associated_memories_all (s : SullySearchMemory) (concept : string) :
  store_ok s ->
  get_associated_memories s concept None
  = ret (map (entry_at (storage s))
             (lookup (lower concept) (associations s))).
Proof.
  intros [_ Ha _]. unfold get_associated_memories, lookup.
  destruct (dict_get (lower concept) (associations s)) as [ids|] eqn:Hg;
    [|reflexivity].
  apply materialize_valid. apply (Ha (lower concept)).
  now apply dict_get_In.
Qed.

Lemma insertion_ordered_intersection_spec (l1 l2 : list Z) :
  NoDup (insertion_ordered_intersection l1 l2)
  /\ (forall i, In i (insertion_ordered_intersection l1 l2)
                <-> In i l1 /\ In i l2).
Proof.
  unfold insertion_ordered_intersection. split; [apply uniq_NoDup|].
  intros i. rewrite uniq_In, filter_In, int_in_In. simpl. tauto.
Qed.

Lemma all_ids_In (store : list entry) (i : Z) :
  In i (all_ids store) <-> valid_id store i.
Proof.
  unfold all_ids, valid_id, len. rewrite in_map_iff. split.
  - intros [n [<- Hn]]. apply in_seq in Hn. lia.
  - intros Hi. exists (Z.to_nat i). split; [lia|]. apply in_seq. lia.
Qed.

Lemma all_ids_NoDup (store : list entry) : NoDup (all_ids store).
Proof.
  unfold all_ids. apply Finite.Injective_map_NoDup.
  - intros x y. apply Nat2Z.inj.
  - apply seq_NoDup.
Qed.

Section ConnectionFacts.

(** Whatever the order in which the runtime iterates a set, the
    intersection of two sets has each common member once. *)
Variable set_intersection_iter : list Z -> list Z -> list Z.
Hypothesis set_intersection_iter_spec :
  forall l1 l2,
    NoDup (set_intersection_iter l1 l2)
    /\ (forall i, In i (set_intersection_iter l1 l2) <-> In i l1 /\ In i l2).

(** C5, as the code has it. On a well-formed store [find_connections]
    returns the entries whose ids are in the concept index lists of both
    concepts, each once, in the order in which the runtime iterates the
    set of the common ids (a rearrangement of the ascending order), and
    the empty list when a concept is not in the index; the common ids are
    those of the entries [get_associated_memories] returns for both. *)
Theorem connections_are_the_common_entries (s : SullySearchMemory)
  (concept1 concept2 : string) :
  store_ok s ->
  let ids1 := lookup (lower concept1) (associations s) in
  let ids2 := lookup (lower concept2) (associations s) in
  let common := set_intersection_iter ids1 ids2 in
  (dict_get (lower concept1) (associations s) = None
   \/ dict_get (lower concept2) (associations s) = None ->
   find_connections set_intersection_iter s concept1 concept2 = ret [])
  /\ (dict_get (lower concept1) (associations s) <> None ->
      dict_get (lower concept2) (associations s) <> None ->
      find_connections set_intersection_iter s concept1 concept2
      = ret (map (entry_at (storage s)) common))
  /\ NoDup common
  /\ (forall i, In i common <-> In i ids1 /\ In i ids2)
  /\ Permutation (map (entry_at (storage s)) common)
                 (connections_spec s concept1 concept2)
  /\ get_associated_memories s concept1 None
     = ret (map (entry_at (storage s)) ids1)
  /\ get_associated_memories s concept2 None
     = ret (map (entry_at (storage s)) ids2).
Proof.
  intros Hok ids1 ids2 common.
  destruct (set_intersection_iter_spec ids1 ids2) as [Hnd Hin].
  split; [|split; [|split; [exact Hnd|split; [exact Hin|split; [|split]]]]].
  - unfold find_connections.
    intros [Hnone|Hnone]; rewrite Hnone; [reflexivity|].
    now destruct (dict_get (lower concept1) (associations s)).
  - intros H1 H2. unfold find_connections, common, ids1, ids2, lookup in *.
    destruct (dict_get (lower concept1) (associations s)) as [l1|] eqn:Hg1;
      [|congruence].
    destruct (dict_get (lower concept2) (associations s)) as [l2|] eqn:Hg2;
      [|congruence].
    apply materialize_valid. apply Forall_forall. intros i Hi.
    apply Hin in Hi as [Hi _]. apply dict_get_In in Hg1.
    destruct Hok as [_ Ha _]. apply Ha in Hg1.
    rewrite Forall_forall in Hg1. now apply Hg1.
  - unfold connections_spec. apply Permutation_map.
    fold ids1 ids2. apply NoDup_Permutation; [exact Hnd| |].
    + apply NoDup_filter, all_ids_NoDup.
    + intros i. unfold common. rewrite (Hin i).
      rewrite filter_In, all_ids_In, andb_true_iff, !int_in_In.
      split; [|tauto].
      intros [Hi1 Hi2]. split; [|tauto].
      destruct Hok as [_ Ha _].
      destruct (lookup_In (lower concept1) (associations s)) as [Hl|Hl].
      * fold ids1 in Hl. rewrite Hl in Hi1. destruct Hi1.
      * apply Ha in Hl. rewrite Forall_forall in Hl. now apply Hl.
  - now apply get_associated_memories_all.
  - now apply get_associated_memories_all.
Qed.

End ConnectionFacts.

(** ** A limit of zero *)

Lemma direct_scan_limit_zero (case_sensitive : bool) (keyword : string)
  (entries : list entry) (i : Z) (dm : dict Z entry) :
  direct_scan case_sensitive keyword (Some 0) entries i dm
  = direct_scan case_sensitive keyword None entries i dm.
Proof.
  revert i dm. induction entries as [|e rest IH]; intros i dm; [reflexivity|].
  cbn [direct_scan].
  destruct (scan_entry case_sensitive keyword i e dm) as [err|dm'];
    [reflexivity|].
  cbn [bind limit_reached]. apply IH.
Qed.

Lemma add_associated_limit_zero (store : list entry) (indices : list Z)
  (matches : dict Z entry) :
  add_associated store (Some 0) indices matches
  = add_associated store None indices matches.
Proof.
  revert matches. induction indices as [|i rest IH]; intros matches;
    [reflexivity|].
  cbn [add_associated]. destruct (dict_mem i matches); [apply IH|].
  destruct (py_index store i) as [err|e]; [reflexivity|].
  cbn [bind limit_reached]. apply IH.
Qed.

Lemma scan_concepts_limit_zero (store : list entry) (needle : string)
  (items : dict string (list Z)) (matches : dict Z entry) :
  scan_concepts store (Some 0) needle items matches
  = scan_concepts store None needle items matches.
Proof.
  revert matches. induction items as [|[concept ids] rest IH]; intros matches;
    [reflexivity|].
  cbn [scan_concepts].
  destruct (str_in needle concept && negb (String.eqb concept needle));
    [|apply IH].
  rewrite add_associated_limit_zero.
  destruct (add_associated store None ids matches) as [err|m];
    [reflexivity|].
  cbn [bind limit_reached]. apply IH.
Qed.

(** C8, where the code leaves it. A limit of 0 is taken for no limit:
    [search] returns what it returns without a limit, which for "gravity"
    on the store of the gravity scenario is two entries, more than 0. *)
Theorem search_limit_zero_is_no_limit :
  (forall s keyword case_sensitive include_associations,
     search s keyword case_sensitive (Some 0) include_associations
     = search s keyword case_sensitive None include_associations)
  /\ search gravity_store "gravity" false (Some 0) true
     = ret [(0, gravity_query); (1, gravity_experience)]
  /\ ~ (len [(0, gravity_query); (1, gravity_experience)] <= 0).
Proof.
  split; [|split; [reflexivity|unfold len; simpl; lia]].
  intros s keyword case_sensitive include_associations. unfold search.
  rewrite direct_scan_limit_zero.
  destruct (direct_scan case_sensitive keyword None (storage s) 0 [])
    as [err|dm]; [reflexivity|].
  cbn [bind]. unfold limit_reached, below_limit.
  change (0 =? 0) with true. cbn [negb andb]. rewrite orb_false_r.
  destruct include_associations; cbn [negb]; [|reflexivity].
  destruct (dict_get (lower keyword) (associations s)) as [ids|].
  - rewrite add_associated_limit_zero.
    destruct (add_associated (storage s) None ids dm) as [err|m];
      [reflexivity|].
    cbn [bind]. apply scan_concepts_limit_zero.
  - cbn [bind ret]. apply scan_concepts_limit_zero.
Qed.

(** The two list queries take a limit of 0 for no limit as well. *)
Lemma get_temporal_context_limit_zero
  (fromisoformat strptime_Ymd : string -> option datetime)
  (s : SullySearchMemory) (t : timestamp_or_date) (window_days : Z) :
  get_temporal_context fromisoformat strptime_Ymd s t window_days (Some 0)
  = get_temporal_context fromisoformat strptime_Ymd s t window_days None.
Proof. reflexivity. Qed.

Lemma get_associated_memories_limit_zero (s : SullySearchMemory)
  (concept : string) :
  get_associated_memories s concept (Some 0)
  = get_associated_memories s concept None.
Proof. reflexivity. Qed.

(** ** The read methods and the objects of the store *)

Lemma keeps_unit (n : nat) {A} (a : A) (post : A -> Prop) :
  post a -> keeps n (unit_ a) post.
Proof.
  intros Hpost h Hn. cbn. repeat split; [assumption|].
  now intros a' [= <-].
Qed.

Lemma keeps_lift (n : nat) {A} (o : outcome A) :
  keeps n (lift o) anything.
Proof. intros h Hn. cbn. repeat split. assumption. Qed.

Lemma keeps_weaken (n : nat) {A} (m : action A) (P Q : A -> Prop) :
  keeps n m P -> (forall a, P a -> Q a) -> keeps n m Q.
Proof.
  intros Hm HPQ h Hn. destruct (Hm h Hn) as (Hlen & Hfirst & Hpost).
  repeat split; auto.
Qed.

Lemma keeps_and_then (n : nat) {A B} (m : action A) (k : A -> action B)
  (P : A -> Prop) (Q : B -> Prop) :
  keeps n m P ->
  (forall a, P a -> keeps n (k a) Q) ->
  keeps n (x <~ m ;; k x) Q.
Proof.
  intros Hm Hk h Hn. destruct (Hm h Hn) as (Hlen & Hfirst & Hpost).
  unfold and_then. destruct (m h) as [[e|a] h']; cbn in *.
  - repeat split; auto. discriminate.
  - destruct (Hk a (Hpost a eq_refl) h' Hlen) as (Hlen' & Hfirst' & Hpost').
    repeat split; auto. congruence.
Qed.

Lemma keeps_new (n : nat) (o : object) : keeps n (new o) (fresh_from n).
Proof.
  intros h Hn. unfold new. cbn. rewrite length_app. cbn.
  split; [lia|]. split.
  - rewrite firstn_app. replace (n - List.length h)%nat with 0%nat by lia.
    cbn. now rewrite app_nil_r.
  - now intros a [= <-].
Qed.

Lemma keeps_object_at (n : nat) (a : addr) : keeps n (object_at a) anything.
Proof.
  intros h Hn. unfold object_at.
  destruct (nth_error h a); cbn; repeat split; assumption.
Qed.

(** Only an object that is not among the first [n] is replaced. *)
Lemma keeps_update (n : nat) (a : addr) (o : object) :
  fresh_from n a -> keeps n (update a o) anything.
Proof.
  intros Ha h Hn. unfold update, fresh_from in *.
  destruct (nth_error h a) as [old|] eqn:Hold; cbn;
    [|repeat split; assumption].
  assert (Hlt : (a < List.length h)%nat)
    by (apply nth_error_Some; congruence).
  split; [|split; [|easy]].
  - rewrite length_app, length_firstn. cbn [List.length]. lia.
  - rewrite firstn_app, length_firstn.
    replace (n - Nat.min a (List.length h))%nat with 0%nat by lia.
    cbn. rewrite app_nil_r, firstn_firstn. f_equal. lia.
Qed.

(** The heap after an action that keeps the objects of the heap before
    it is that heap, with objects added. *)
Lemma keeps_extends {A} (m : action A) (P : A -> Prop) (h : heap) :
  keeps (List.length h) m P -> exists added, snd (m h) = h ++ added.
Proof.
  intros Hm. destruct (Hm h (le_n _)) as (Hlen & Hfirst & _).
  exists (skipn (List.length h) (snd (m h))).
  rewrite firstn_all in Hfirst.
  rewrite <- (firstn_skipn (List.length h) (snd (m h))) at 1.
  now rewrite Hfirst.
Qed.

Section Reads.

Variable n : nat.

Ltac reads :=
  repeat first
    [ apply keeps_object_at
    | apply keeps_lift
    | apply keeps_unit; exact I
    | eapply keeps_and_then; [|intros ? ?] ].

Lemma keeps_storage_of (self : addr) : keeps n (storage_of self) anything.
Proof.
  unfold storage_of.
  eapply keeps_and_then; [apply keeps_object_at|]. intros o _.
  destruct o; first [apply keeps_lift | now apply keeps_unit].
Qed.

Lemma keeps_associations_of (self : addr) :
  keeps n (associations_of self) anything.
Proof.
  unfold associations_of.
  eapply keeps_and_then; [apply keeps_object_at|]. intros o _.
  destruct o; first [apply keeps_lift | now apply keeps_unit].
Qed.

Lemma keeps_temporal_index_of (self : addr) :
  keeps n (temporal_index_of self) anything.
Proof.
  unfold temporal_index_of.
  eapply keeps_and_then; [apply keeps_object_at|]. intros o _.
  destruct o; first [apply keeps_lift | now apply keeps_unit].
Qed.

Lemma keeps_entry_list (a : addr) : keeps n (entry_list a) anything.
Proof.
  unfold entry_list.
  eapply keeps_and_then; [apply keeps_object_at|]. intros o _.
  destruct o; first [apply keeps_lift | now apply keeps_unit].
Qed.

Lemma keeps_entry_dict (a : addr) : keeps n (entry_dict a) anything.
Proof.
  unfold entry_dict.
  eapply keeps_and_then; [apply keeps_object_at|]. intros o _.
  destruct o; first [apply keeps_lift | now apply keeps_unit].
Qed.

Lemma keeps_index_dict (a : addr) : keeps n (index_dict a) anything.
Proof.
  unfold index_dict.
  eapply keeps_and_then; [apply keeps_object_at|]. intros o _.
  destruct o; first [apply keeps_lift | now apply keeps_unit].
Qed.

Lemma keeps_id_list (a : addr) : keeps n (id_list a) anything.
Proof.
  unfold id_list.
  eapply keeps_and_then; [apply keeps_object_at|]. intros o _.
  destruct o; first [apply keeps_lift | now apply keeps_unit].
Qed.

Lemma keeps_id_set (a : addr) : keeps n (id_set a) anything.
Proof.
  unfold id_set.
  eapply keeps_and_then; [apply keeps_object_at|]. intros o _.
  destruct o; first [apply keeps_lift | now apply keeps_unit].
Qed.

Lemma keeps_match_dict (a : addr) : keeps n (match_dict a) anything.
Proof.
  unfold match_dict.
  eapply keeps_and_then; [apply keeps_object_at|]. intros o _.
  destruct o; first [apply keeps_lift | now apply keeps_unit].
Qed.

Lemma keeps_limit_reached_in (limit : option Z) (matches : addr) :
  keeps n (limit_reached_in limit matches) anything.
Proof.
  unfold limit_reached_in.
  eapply keeps_and_then; [apply keeps_match_dict|]. intros items _.
  now apply keeps_unit.
Qed.

Lemma keeps_stored_entry (self : addr) (memory_index : Z) :
  keeps n (stored_entry self memory_index) anything.
Proof.
  unfold stored_entry.
  eapply keeps_and_then; [apply keeps_storage_of|]. intros storage _.
  eapply keeps_and_then; [apply keeps_entry_list|]. intros entries _.
  apply keeps_lift.
Qed.

Lemma keeps_stored_entries (self : addr) (indices : list Z) :
  keeps n (stored_entries self indices) anything.
Proof.
  induction indices as [|idx rest IH]; cbn [stored_entries];
    [now apply keeps_unit|].
  eapply keeps_and_then; [apply keeps_stored_entry|]. intros e _.
  eapply keeps_and_then; [apply IH|]. intros es _. now apply keeps_unit.
Qed.

(** [matches[i] = entry] replaces the mapping at [matches], which the
    method made. *)
Lemma keeps_set_match (matches : addr) (i : Z) (entry : addr) :
  fresh_from n matches -> keeps n (set_match matches i entry) anything.
Proof.
  intros Hfresh. unfold set_match.
  eapply keeps_and_then; [apply keeps_match_dict|]. intros items _.
  now apply keeps_update.
Qed.

Lemma keeps_scan_entry_on_heap (case_sensitive : bool) (keyword : string)
  (i : Z) (entry direct_matches : addr) :
  fresh_from n direct_matches ->
  keeps n (scan_entry_on_heap case_sensitive keyword i entry direct_matches)
        anything.
Proof.
  intros Hfresh. unfold scan_entry_on_heap.
  eapply keeps_and_then with (P := anything).
  { eapply keeps_and_then; [apply keeps_entry_dict|]. intros fields _.
    destruct (dict_get "query" fields); [|now apply keeps_unit].
    eapply keeps_and_then; [apply keeps_lift|]. intros [|] _;
      [|now apply keeps_unit].
    eapply keeps_and_then; [now apply keeps_set_match|]. intros _ _.
    now apply keeps_unit. }
  intros matched _. eapply keeps_and_then with (P := anything).
  { destruct (negb matched); [|now apply keeps_unit].
    eapply keeps_and_then; [apply keeps_entry_dict|]. intros fields _.
    destruct (dict_get "result" fields) as [[]|]; try now apply keeps_unit.
    eapply keeps_and_then; [apply keeps_lift|]. intros [|] _;
      [|now apply keeps_unit].
    eapply keeps_and_then; [now apply keeps_set_match|]. intros _ _.
    now apply keeps_unit. }
  intros matched' _. destruct (negb matched'); [|now apply keeps_unit].
  eapply keeps_and_then; [apply keeps_entry_dict|]. intros fields _.
  destruct (dict_get "content" fields); [|now apply keeps_unit].
  eapply keeps_and_then; [apply keeps_lift|]. intros [|] _;
    [now apply keeps_set_match|now apply keeps_unit].
Qed.

Lemma keeps_direct_scan_on_heap (case_sensitive : bool) (keyword : string)
  (limit : option Z) (entries : list addr) (i : Z) (direct_matches : addr) :
  fresh_from n direct_matches ->
  keeps n (direct_scan_on_heap case_sensitive keyword limit entries i
                               direct_matches) anything.
Proof.
  intros Hfresh. revert i.
  induction entries as [|entry rest IH]; intros i;
    cbn [direct_scan_on_heap]; [now apply keeps_unit|].
  eapply keeps_and_then; [now apply keeps_scan_entry_on_heap|]. intros _ _.
  eapply keeps_and_then; [apply keeps_limit_reached_in|]. intros [|] _;
    [now apply keeps_unit|apply IH].
Qed.

Lemma keeps_add_associated_on_heap (self : addr) (limit : option Z)
  (indices : list Z) (matches : addr) :
  fresh_from n matches ->
  keeps n (add_associated_on_heap self limit indices matches) anything.
Proof.
  intros Hfresh.
  induction indices as [|memory_index rest IH];
    cbn [add_associated_on_heap]; [now apply keeps_unit|].
  eapply keeps_and_then; [apply keeps_match_dict|]. intros items _.
  destruct (dict_mem memory_index items); [apply IH|].
  eapply keeps_and_then; [apply keeps_stored_entry|]. intros entry _.
  eapply keeps_and_then; [now apply keeps_set_match|]. intros _ _.
  eapply keeps_and_then; [apply keeps_limit_reached_in|]. intros [|] _;
    [now apply keeps_unit|apply IH].
Qed.

Lemma keeps_scan_concepts_on_heap (self : addr) (limit : option Z)
  (needle : string) (items : list (string * addr)) (matches : addr) :
  fresh_from n matches ->
  keeps n (scan_concepts_on_heap self limit needle items matches) anything.
Proof.
  intros Hfresh.
  induction items as [|[concept indices] rest IH];
    cbn [scan_concepts_on_heap]; [now apply keeps_unit|].
  destruct (str_in needle concept && negb (String.eqb concept needle));
    [|apply IH].
  eapply keeps_and_then; [apply keeps_id_list|]. intros ids _.
  eapply keeps_and_then; [now apply keeps_add_associated_on_heap|].
  intros _ _.
  eapply keeps_and_then; [apply keeps_limit_reached_in|]. intros [|] _;
    [now apply keeps_unit|apply IH].
Qed.

Lemma keeps_search_on_heap (self : addr) (keyword : string)
  (case_sensitive : bool) (limit : option Z) (include_associations : bool) :
  keeps n (search_on_heap self keyword case_sensitive limit
                          include_associations) anything.
Proof.
  unfold search_on_heap.
  eapply keeps_and_then; [apply keeps_new|]. intros direct_matches Hdm.
  eapply keeps_and_then; [apply keeps_storage_of|]. intros storage _.
  eapply keeps_and_then; [apply keeps_entry_list|]. intros entries _.
  eapply keeps_and_then; [now apply keeps_direct_scan_on_heap|]. intros _ _.
  eapply keeps_and_then; [apply keeps_limit_reached_in|]. intros reached _.
  destruct (negb include_associations || reached); [now apply keeps_unit|].
  eapply keeps_and_then; [apply keeps_match_dict|]. intros items _.
  eapply keeps_and_then; [apply keeps_new|]. intros matches Hm.
  eapply keeps_and_then; [apply keeps_associations_of|]. intros assoc _.
  eapply keeps_and_then; [apply keeps_index_dict|]. intros index _.
  eapply keeps_and_then with (P := anything).
  { destruct (dict_get (lower keyword) index); [|now apply keeps_unit].
    eapply keeps_and_then; [apply keeps_id_list|]. intros ids _.
    now apply keeps_add_associated_on_heap. }
  intros _ _.
  eapply keeps_and_then; [apply keeps_match_dict|]. intros items' _.
  destruct (below_limit limit (dict_len items')); [|now apply keeps_unit].
  eapply keeps_and_then; [apply keeps_associations_of|]. intros assoc' _.
  eapply keeps_and_then; [apply keeps_index_dict|]. intros index' _.
  eapply keeps_and_then; [now apply keeps_scan_concepts_on_heap|].
  intros _ _. now apply keeps_unit.
Qed.

Lemma keeps_materialize_on_heap (self indices : addr) :
  keeps n (materialize_on_heap self indices) anything.
Proof.
  unfold materialize_on_heap.
  eapply keeps_and_then; [apply keeps_id_list|]. intros ids _.
  eapply keeps_and_then; [apply keeps_stored_entries|]. intros es _.
  eapply keeps_weaken; [apply keeps_new|easy].
Qed.

(** The list under a limit is the list itself or a new one. *)
Lemma keeps_limited_on_heap (limit : option Z) (indices : addr) :
  keeps n (limited_on_heap limit indices) anything.
Proof.
  unfold limited_on_heap. destruct limit as [l|]; [|now apply keeps_unit].
  destruct (l =? 0); [now apply keeps_unit|].
  eapply keeps_and_then; [apply keeps_id_list|]. intros ids _.
  eapply keeps_weaken; [apply keeps_new|easy].
Qed.

(** [window_memories.extend(...)] replaces the list at
    [window_memories], which the method made. *)
Lemma keeps_extend_with_day (self : addr) (day : Z) (window_memories : addr) :
  fresh_from n window_memories ->
  keeps n (extend_with_day self day window_memories) anything.
Proof.
  intros Hfresh. unfold extend_with_day.
  eapply keeps_and_then; [apply keeps_temporal_index_of|]. intros ti _.
  eapply keeps_and_then; [apply keeps_index_dict|]. intros index _.
  destruct (dict_get (strftime_Ymd day) index); [|now apply keeps_unit].
  eapply keeps_and_then; [apply keeps_id_list|]. intros more _.
  eapply keeps_and_then; [apply keeps_id_list|]. intros mine _.
  now apply keeps_update.
Qed.

Lemma window_loop_on_heap_step (self : addr) (end_date current_date : Z)
  (window_memories : addr) (h : heap) :
  window_loop_on_heap self end_date current_date window_memories h
  = if current_date <=? end_date then
      after_body (extend_with_day self current_date window_memories h)
                 (date_add current_date 1)
                 (fun next h' =>
                    window_loop_on_heap self end_date next window_memories h')
    else (ret tt, h).
Proof.
  simp window_loop_on_heap.
  destruct (Z_le_gt_dec current_date end_date) as [Hle|Hgt]; simpl.
  - destruct (Z.leb_spec current_date end_date); [|lia].
    destruct (date_add current_date 1) as [err|next]; simpl;
      [|reflexivity].
    unfold after_body.
    now destruct (extend_with_day self current_date window_memories h)
      as [[e|u] h'].
  - destruct (Z.leb_spec current_date end_date); [lia|reflexivity].
Qed.

Lemma keeps_window_loop_on_heap (self : addr) (end_date : Z)
  (window_memories : addr) :
  fresh_from n window_memories ->
  forall current_date,
    keeps n (window_loop_on_heap self end_date current_date window_memories)
          anything.
Proof.
  intros Hfresh.
  assert (Hgen : forall k current_date,
            (Z.to_nat (end_date + 1 - current_date) <= k)%nat ->
            keeps n (window_loop_on_heap self end_date current_date
                                         window_memories) anything).
  { induction k as [|k IH]; intros current Hk h Hn;
      rewrite window_loop_on_heap_step;
      destruct (Z.leb_spec current end_date); try lia;
      try (cbn; repeat split; assumption).
    destruct (keeps_extend_with_day self current window_memories Hfresh
                h Hn) as (Hlen & Hfirst & _).
    unfold after_body.
    destruct (extend_with_day self current window_memories h)
      as [[e|u] h']; cbn in *; [repeat split; auto|].
    unfold date_add.
    destruct ((1 <=? current + 1) && (current + 1 <=? MAXORDINAL));
      [|repeat split; auto].
    cbn [ret].
    destruct (IH (current + 1) ltac:(lia) h' Hlen) as (Hlen' & Hfirst' & _).
    repeat split; auto. congruence. }
  intros current. now apply (Hgen _ _ (le_n _)).
Qed.

End Reads.

Section ReadMethods.

Variable set_intersection_iter : list Z -> list Z -> list Z.
Variable fromisoformat : string -> option datetime.
Variable strptime_Ymd : string -> option datetime.

Lemma keeps_get_temporal_context_on_heap (n : nat) (self : addr)
  (anchor : timestamp_or_date) (window_days : Z) (limit : option Z) :
  keeps n (get_temporal_context_on_heap fromisoformat strptime_Ymd self
             anchor window_days limit) anything.
Proof.
  unfold get_temporal_context_on_heap.
  destruct (target_date_of fromisoformat strptime_Ymd anchor);
    [|eapply keeps_weaken; [apply keeps_new|easy]].
  eapply keeps_and_then; [apply keeps_lift|]. intros delta _.
  eapply keeps_and_then; [apply keeps_lift|]. intros start_date _.
  eapply keeps_and_then; [apply keeps_lift|]. intros delta' _.
  eapply keeps_and_then; [apply keeps_lift|]. intros end_date _.
  eapply keeps_and_then; [apply keeps_new|]. intros window_memories Hwm.
  eapply keeps_and_then; [now apply keeps_window_loop_on_heap|]. intros _ _.
  eapply keeps_and_then; [apply keeps_limited_on_heap|]. intros limited _.
  apply keeps_materialize_on_heap.
Qed.

Lemma keeps_get_associated_memories_on_heap (n : nat) (self : addr)
  (concept : string) (limit : option Z) :
  keeps n (get_associated_memories_on_heap self concept limit) anything.
Proof.
  unfold get_associated_memories_on_heap.
  eapply keeps_and_then; [apply keeps_associations_of|]. intros assoc _.
  eapply keeps_and_then; [apply keeps_index_dict|]. intros index _.
  destruct (dict_get (lower concept) index);
    [|eapply keeps_weaken; [apply keeps_new|easy]].
  eapply keeps_and_then; [apply keeps_limited_on_heap|]. intros limited _.
  apply keeps_materialize_on_heap.
Qed.

Lemma keeps_find_connections_on_heap (n : nat) (self : addr)
  (concept1 concept2 : string) :
  keeps n (find_connections_on_heap set_intersection_iter self
             concept1 concept2) anything.
Proof.
  unfold find_connections_on_heap.
  eapply keeps_and_then; [apply keeps_associations_of|]. intros assoc _.
  eapply keeps_and_then; [apply keeps_index_dict|]. intros index _.
  destruct (dict_get (lower concept1) index);
    [|eapply keeps_weaken; [apply keeps_new|easy]].
  destruct (dict_get (lower concept2) index);
    [|eapply keeps_weaken; [apply keeps_new|easy]].
  eapply keeps_and_then; [apply keeps_id_list|]. intros ids1 _.
  eapply keeps_and_then; [apply keeps_new|]. intros indices1 _.
  eapply keeps_and_then; [apply keeps_id_list|]. intros ids2 _.
  eapply keeps_and_then; [apply keeps_new|]. intros indices2 _.
  eapply keeps_and_then; [apply keeps_id_set|]. intros members1 _.
  eapply keeps_and_then; [apply keeps_id_set|]. intros members2 _.
  eapply keeps_and_then; [apply keeps_new|]. intros common_indices _.
  eapply keeps_and_then; [apply keeps_id_set|]. intros common _.
  eapply keeps_and_then; [apply keeps_stored_entries|]. intros es _.
  eapply keeps_weaken; [apply keeps_new|easy].
Qed.

End ReadMethods.

(** *** The store read from a heap that grew *)

Lemma nth_error_grow {A} (l added : list A) (a : nat) (x : A) :
  nth_error l a = Some x -> nth_error (l ++ added) a = Some x.
Proof.
  intros Hx. rewrite nth_error_app1; [assumption|].
  apply nth_error_Some. congruence.
Qed.

Lemma all_of_map_grow {A B} (f g : A -> option B) (l : list A)
  (ys : list B) :
  (forall x y, f x = Some y -> g x = Some y) ->
  all_of (map f l) = Some ys -> all_of (map g l) = Some ys.
Proof.
  intros Hfg. revert ys.
  induction l as [|x l IH]; intros ys; cbn; [easy|].
  destruct (f x) as [y|] eqn:Hy; [|discriminate].
  rewrite (Hfg x y Hy).
  destruct (all_of (map f l)) as [ys'|]; [|discriminate].
  now rewrite (IH ys' eq_refl).
Qed.

Lemma entry_in_grow (h added : heap) (a : addr) (e : entry) :
  entry_in h a = Some e -> entry_in (h ++ added) a = Some e.
Proof.
  unfold entry_in. destruct (nth_error h a) as [o|] eqn:Ho; [|discriminate].
  now rewrite (nth_error_grow _ added _ _ Ho).
Qed.

Lemma ids_in_grow (h added : heap) (item : string * addr)
  (found : string * list Z) :
  ids_in h item = Some found -> ids_in (h ++ added) item = Some found.
Proof.
  unfold ids_in.
  destruct (nth_error h (snd item)) as [o|] eqn:Ho; [|discriminate].
  now rewrite (nth_error_grow _ added _ _ Ho).
Qed.

Lemma index_in_grow (h added : heap) (a : addr)
  (index : dict string (list Z)) :
  index_in h a = Some index -> index_in (h ++ added) a = Some index.
Proof.
  unfold index_in. destruct (nth_error h a) as [o|] eqn:Ho; [|discriminate].
  rewrite (nth_error_grow _ added _ _ Ho).
  destruct o; try discriminate.
  apply all_of_map_grow. intros x y. apply ids_in_grow.
Qed.

Lemma entries_in_grow (h added : heap) (a : addr) (es : list entry) :
  entries_in h a = Some es -> entries_in (h ++ added) a = Some es.
Proof.
  unfold entries_in. destruct (nth_error h a) as [o|] eqn:Ho;
    [|discriminate].
  rewrite (nth_error_grow _ added _ _ Ho).
  destruct o; try discriminate.
  apply all_of_map_grow. intros x y. apply entry_in_grow.
Qed.

Lemma store_in_grow (h added : heap) (self : addr) (s : SullySearchMemory) :
  store_in h self = Some s -> store_in (h ++ added) self = Some s.
Proof.
  unfold store_in.
  destruct (nth_error h self) as [o|] eqn:Ho; [|discriminate].
  rewrite (nth_error_grow _ added _ _ Ho).
  destruct o as [st a t mf| | | | | |]; try discriminate.
  destruct (entries_in h st) as [es|] eqn:Hes; [|discriminate].
  destruct (index_in h a) as [assoc|] eqn:Ha; [|discriminate].
  destruct (index_in h t) as [ti|] eqn:Ht; [|discriminate].
  now rewrite (entries_in_grow _ added _ _ Hes),
    (index_in_grow _ added _ _ Ha), (index_in_grow _ added _ _ Ht).
Qed.

Lemma keeps_unchanged_by {A} (h : heap) (self : addr) (m : action A)
  (P : A -> Prop) :
  keeps (List.length h) m P -> unchanged_by h self m.
Proof.
  intros Hm. destruct (keeps_extends m P h Hm) as [added Hadded].
  split; [now exists added|].
  intros s Hs. rewrite Hadded. now apply store_in_grow.
Qed.

Section ReadClaims.

Variable set_intersection_iter : list Z -> list Z -> list Z.
Variable fromisoformat : string -> option datetime.
Variable strptime_Ymd : string -> option datetime.

(** C10. [search], [get_temporal_context], [get_associated_memories] and
    [find_connections], run statement by statement on the objects of the
    heap, leave the store as it was, whatever the heap, the instance and
    the arguments, and whether they return or raise: the only objects
    they replace are the mappings and lists they made themselves, so the
    heap after the call is the heap before it with objects added, and the
    record storage, the concept index and the temporal index read from
    it are those before the call. *)
Theorem read_operations_leave_the_store_unchanged (h : heap) (self : addr) :
  (forall keyword case_sensitive limit include_associations,
     unchanged_by h self
       (search_on_heap self keyword case_sensitive limit
                       include_associations))
  /\ (forall t window_days limit,
        unchanged_by h self
          (get_temporal_context_on_heap fromisoformat strptime_Ymd self t
                                        window_days limit))
  /\ (forall concept limit,
        unchanged_by h self
          (get_associated_memories_on_heap self concept limit))
  /\ (forall concept1 concept2,
        unchanged_by h self
          (find_connections_on_heap set_intersection_iter self
                                    concept1 concept2)).
Proof.
  split; [|split; [|split]]; intros.
  - eapply keeps_unchanged_by, keeps_search_on_heap.
  - eapply keeps_unchanged_by, keeps_get_temporal_context_on_heap.
  - eapply keeps_unchanged_by, keeps_get_associated_memories_on_heap.
  - eapply keeps_unchanged_by, keeps_find_connections_on_heap.
Qed.

End ReadClaims.

(** ** The read methods on the heap and on the store *)















(** *** All the items *)


















Section Agreement.

Variable h0 : heap.



(** The store at [self] in [h0]: the objects of the instance. *)
Variable self storage_addr associations_addr temporal_addr : addr.
Variable path : option string.
Variable entries : list addr.
Variable concept_items day_items : dict string addr.
Variable s : SullySearchMemory.

Hypothesis instance_there :
  nth_error h0 self
  = Some (Instance storage_addr associations_addr temporal_addr path).
Hypothesis storage_there :
  nth_error h0 storage_addr = Some (EntryList entries).
Hypothesis entries_there :
  all_of (map (entry_in h0) entries) = Some (storage s).
Hypothesis associations_there :
  nth_error h0 associations_addr = Some (IndexDict concept_items).
Hypothesis concepts_there :
  all_of (map (ids_in h0) concept_items) = Some (associations s).
Hypothesis temporal_there :
  nth_error h0 temporal_addr = Some (IndexDict day_items).
Hypothesis days_there :
  all_of (map (ids_in h0) day_items) = Some (temporal_index s).


















Variable set_intersection_iter : list Z -> list Z -> list Z.
Variable fromisoformat : string -> option datetime.
Variable strptime_Ymd : string -> option datetime.



End Agreement.


Section AgreementClaims.

Variable set_intersection_iter : list Z -> list Z -> list Z.
Variable fromisoformat : string -> option datetime.
Variable strptime_Ymd : string -> option datetime.


End AgreementClaims.

(** *** Every store is held by a heap *)





(** ** The statements at concrete inputs *)

Lemma gravity_store_reached :
  self (snd (run findall_capitalized findall_phrases insertion_ordered_set
                 insertion_ordered_intersection parse_Ymd parse_Ymd
                 gravity_calls fresh_world))
  = gravity_store.
Proof. vm_compute. reflexivity. Qed.

Lemma store_ids_are_insertion_positions_witness :
  forallb is_store_call gravity_calls = true
  /\ fst (run findall_capitalized findall_phrases insertion_ordered_set
              insertion_ordered_intersection parse_Ymd parse_Ymd
              gravity_calls fresh_world)
     = [ret (RInt 0); ret (RInt 1)].
Proof.
  split; [reflexivity|].
  destruct (store_ids_are_insertion_positions
              findall_capitalized findall_phrases insertion_ordered_set
              insertion_ordered_intersection parse_Ymd parse_Ymd
              gravity_calls fresh_world eq_refl) as [H _].
  exact H.
Defined.

Lemma gravity_store_ok : store_ok gravity_store.
Proof.
  rewrite <- gravity_store_reached. apply inv_ok, run_inv, store_inv_empty.
Qed.

Lemma connections_store_ok : store_ok connections_store.
Proof. apply inv_ok, run_inv, store_inv_empty. Qed.

(** *** Search *)

Lemma search_returns_discovery_order_witness :
  store_ok gravity_store
  /\ usable_limit None
  /\ search gravity_store "gravity" false None true
     = ret [(0, gravity_query); (1, gravity_experience)].
Proof.
  split; [exact gravity_store_ok|]. split; [exact I|].
  destruct (search_returns_discovery_order gravity_store "gravity" false
              None true gravity_store_ok I) as [H _].
  exact H.
Defined.

(** Against C7: a negative limit is no error. *)
Lemma search_negative_limit_does_not_fail :
  search gravity_store "gravity" false (Some (-1)) true
  = ret [(0, gravity_query)]
  /\ ~ fails (search gravity_store "gravity" false (Some (-1)) true).
Proof.
  split; [reflexivity|]. intros [e He]. discriminate He.
Qed.

Lemma search_negative_limit_returns_witness :
  store_ok gravity_store
  /\ -1 < 0
  /\ search gravity_store "gravity" false (Some (-1)) true
     = ret [(0, gravity_query)].
Proof.
  split; [exact gravity_store_ok|]. split; [lia|].
  destruct (search_negative_limit_returns gravity_store "gravity" false
              (-1) true gravity_store_ok eq_refl) as [H _].
  exact H.
Defined.

(** *** Snapshots *)



(** Against C4: a document with the records and without the two indices
    is loaded without an error, and in part: the storage is replaced, the
    two indices stay, and the store that results lists an id with no
    entry. *)
Lemma records_only_document_is_loaded_in_part :
  ~ well_formed_document records_only
  /\ dict_get "memory.json" (files world_with_records_only)
     = Some records_only
  /\ ~ fails (fst (_load_from_file world_with_records_only))
  /\ self (snd (_load_from_file world_with_records_only))
     <> self world_with_records_only
  /\ storage (self (snd (_load_from_file world_with_records_only)))
     = [gravity_query]
  /\ associations (self (snd (_load_from_file world_with_records_only)))
     = associations gravity_store
  /\ search (self (snd (_load_from_file world_with_records_only)))
            "gravity" false None true
     = raise IndexError.
Proof.
  split; [intros []|]. split; [reflexivity|].
  split; [intros [e He]; discriminate He|].
  split; [intros Heq; discriminate Heq|].
  split; [reflexivity|]. split; reflexivity.
Qed.

Lemma load_replaces_the_sections_present_witness :
  truthy_path (memory_file (self world_with_records_only))
  = Some "memory.json"
  /\ dict_get "memory.json" (files world_with_records_only)
     = Some records_only
  /\ fst (_load_from_file world_with_records_only) = ret tt
  /\ storage (self (snd (_load_from_file world_with_records_only)))
     = [gravity_query].
Proof.
  split; [reflexivity|]. split; [reflexivity|].
  destruct (load_replaces_the_sections_present world_with_records_only
              "memory.json" records_only eq_refl eq_refl)
    as (Hret & _ & _ & Hst & _).
  split; [exact Hret|exact Hst].
Defined.

(** *** Connections *)

(** Against C5: on CPython the entries 1 and 8, common to "a" and "b",
    come back with 8 before 1. *)
Lemma connections_not_in_ascending_order :
  find_connections cpython_intersection connections_store "a" "b"
  = ret [entry_at (storage connections_store) 8;
         entry_at (storage connections_store) 1]
  /\ connections_spec connections_store "a" "b"
     = [entry_at (storage connections_store) 1;
        entry_at (storage connections_store) 8]
  /\ find_connections cpython_intersection connections_store "a" "b"
     <> ret (connections_spec connections_store "a" "b").
Proof.
  split; [vm_compute; reflexivity|]. split; [vm_compute; reflexivity|].
  vm_compute. intros Heq. discriminate Heq.
Qed.

Lemma connections_are_the_common_entries_witness :
  store_ok connections_store
  /\ (forall l1 l2,
        NoDup (insertion_ordered_intersection l1 l2)
        /\ (forall i, In i (insertion_ordered_intersection l1 l2)
                      <-> In i l1 /\ In i l2))
  /\ find_connections insertion_ordered_intersection connections_store
                      "a" "b"
     = ret [entry_at (storage connections_store) 1;
            entry_at (storage connections_store) 8].
Proof.
  split; [exact connections_store_ok|].
  split; [exact insertion_ordered_intersection_spec|].
  destruct (connections_are_the_common_entries
              insertion_ordered_intersection
              insertion_ordered_intersection_spec
              connections_store "a" "b" connections_store_ok)
    as (_ & H & _).
  apply H; vm_compute; discriminate.
Defined.

(** *** Temporal context *)

(** Against C6: a window that leaves the calendar is an error. *)
Lemma temporal_context_outside_the_calendar :
  0 <= 4000000
  /\ get_temporal_context parse_Ymd parse_Ymd gravity_store
                          (OfDatetime a_timestamp) 4000000 None
     = raise OverflowError
  /\ get_temporal_context parse_Ymd parse_Ymd gravity_store
                          (OfStr "2024-01-02") 4000000 None
     = raise OverflowError
  /\ (forall entries,
        get_temporal_context parse_Ymd parse_Ymd gravity_store
                             (OfDatetime a_timestamp) 4000000 None
        <> ret entries).
Proof.
  split; [lia|]. split; [reflexivity|]. split; [reflexivity|].
  intros entries Heq.
  change (raise OverflowError = ret entries) in Heq. discriminate Heq.
Qed.

Lemma temporal_context_returns_window_witness :
  store_ok gravity_store
  /\ anchored_at parse_Ymd parse_Ymd (OfStr "2024-01-02") a_midnight
  /\ 0 <= 0
  /\ 1 <= dt_date a_midnight - 0
  /\ dt_date a_midnight + 0 < MAXORDINAL
  /\ usable_limit (Some 1)
  /\ get_temporal_context parse_Ymd parse_Ymd gravity_store
                          (OfStr "2024-01-02") 0 (Some 1)
     = ret [gravity_query].
Proof.
  assert (Hanchor : anchored_at parse_Ymd parse_Ymd (OfStr "2024-01-02")
                                a_midnight) by (left; reflexivity).
  assert (Hw : 0 <= 0) by lia.
  assert (Hlo : 1 <= dt_date a_midnight - 0) by (simpl; lia).
  assert (Hhi : dt_date a_midnight + 0 < MAXORDINAL) by reflexivity.
  assert (Hu : usable_limit (Some 1)) by reflexivity.
  repeat (split; [assumption || exact gravity_store_ok|]).
  destruct (temporal_context_returns_window findall_capitalized
              findall_phrases insertion_ordered_set parse_Ymd parse_Ymd)
    as [H _].
  exact (H gravity_store (OfStr "2024-01-02") a_midnight 0 (Some 1)
           gravity_store_ok Hanchor Hw Hlo Hhi Hu).
Defined.

(* ===================================================================== *)
(** * Further properties of the store *)
(* ===================================================================== *)

(** ** Lower case *)

Lemma lower_ascii_idempotent (c : ascii) :
  lower_ascii (lower_ascii c) = lower_ascii c.
Proof. destruct c as [[] [] [] [] [] [] [] []]; reflexivity. Qed.

Lemma lower_idempotent (s : string) : lower (lower s) = lower s.
Proof.
  induction s as [|c s IH]; [reflexivity|].
  simpl. now rewrite lower_ascii_idempotent, IH.
Qed.

(** ** What one call does to the three structures *)

Lemma lookup_set_eq (key : string) (ids : list Z) (d : dict string (list Z)) :
  lookup key (dict_set key ids d) = ids.
Proof. unfold lookup. now rewrite dict_get_set_eq. Qed.

Lemma lookup_set_neq (key k : string) (ids : list Z)
  (d : dict string (list Z)) :
  k <> key -> lookup key (dict_set k ids d) = lookup key d.
Proof. intros Hne. unfold lookup. now rewrite dict_get_set_neq. Qed.

(** The list of a key after one association: one id longer when the key
    is the concept in lower case and the id is new to it. *)
Lemma lookup_add_association (concept key : string) (i : Z)
  (d : dict string (list Z)) :
  lookup key (_add_association concept i d)
  = if String.eqb key (lower concept) && negb (int_in i (lookup key d))
    then lookup key d ++ [i] else lookup key d.
Proof.
  unfold _add_association, dict_mem.
  destruct (String.eqb_spec key (lower concept)) as [->|Hne]; cbn [andb].
  - destruct (dict_get (lower concept) d) as [l|] eqn:Hg.
    + assert (Hl : lookup (lower concept) d = l)
        by (unfold lookup; now rewrite Hg).
      rewrite Hg, Hl. destruct (int_in i l) eqn:Hi; cbn [negb].
      * exact Hl.
      * apply lookup_set_eq.
    + assert (Hl : lookup (lower concept) d = [])
        by (unfold lookup; now rewrite Hg).
      rewrite dict_get_set_eq, Hl. cbn [int_in existsb negb app].
      apply lookup_set_eq.
  - assert (Hne' : lower concept <> key) by congruence.
    destruct (dict_get (lower concept) d) as [l|] eqn:Hg.
    + rewrite Hg. destruct (int_in i l); [reflexivity|].
      now apply lookup_set_neq.
    + rewrite dict_get_set_eq. cbn [int_in existsb].
      rewrite !lookup_set_neq by assumption. reflexivity.
Qed.

Lemma int_in_app_last (i : Z) (l : list Z) : int_in i (l ++ [i]) = true.
Proof. apply int_in_In. apply in_or_app. right. now left. Qed.

(** The list of a key after the associations of one call. *)
Lemma lookup_add_associations (concepts : list string) (key : string)
  (i : Z) (d : dict string (list Z)) :
  lookup key (add_associations concepts i d)
  = if existsb (fun c => String.eqb key (lower c)) concepts
       && negb (int_in i (lookup key d))
    then lookup key d ++ [i] else lookup key d.
Proof.
  unfold add_associations. revert d.
  induction concepts as [|c cs IH]; intros d; [reflexivity|].
  cbn [fold_left existsb]. rewrite IH, lookup_add_association.
  destruct (String.eqb key (lower c)); cbn [andb orb].
  - destruct (int_in i (lookup key d)) eqn:Hi; cbn [negb].
    + rewrite Hi. now rewrite andb_false_r.
    + rewrite int_in_app_last. now rewrite andb_false_r.
  - reflexivity.
Qed.

(** The bucket of a key after an id is recorded under a day. *)
Lemma lookup_append_at (day key : string) (x : Z)
  (d : dict string (list Z)) :
  lookup key (append_at day x d)
  = if String.eqb key day then lookup key d ++ [x] else lookup key d.
Proof.
  unfold append_at, dict_mem.
  destruct (String.eqb_spec key day) as [->|Hne].
  - destruct (dict_get day d) as [l|] eqn:Hg.
    + assert (Hl : lookup day d = l) by (unfold lookup; now rewrite Hg).
      rewrite Hg, Hl. apply lookup_set_eq.
    + assert (Hl : lookup day d = []) by (unfold lookup; now rewrite Hg).
      rewrite dict_get_set_eq, Hl. apply lookup_set_eq.
  - assert (Hne' : day <> key) by congruence.
    destruct (dict_get day d) as [l|] eqn:Hg.
    + rewrite Hg. now apply lookup_set_neq.
    + rewrite dict_get_set_eq. rewrite !lookup_set_neq by assumption.
      reflexivity.
Qed.

Section CallShapes.

Variable re_findall_capitalized : string -> list string.
Variable re_findall_phrases : string -> list string.
Variable set_iter : list string -> list string.
Variable set_intersection_iter : list Z -> list Z -> list Z.
Variable fromisoformat : string -> option datetime.
Variable strptime_Ymd : string -> option datetime.

Local Abbreviation exec' :=
  (exec re_findall_capitalized re_findall_phrases set_iter
        set_intersection_iter fromisoformat strptime_Ymd).
Local Abbreviation run' :=
  (run re_findall_capitalized re_findall_phrases set_iter
       set_intersection_iter fromisoformat strptime_Ymd).

(** A call reads, clears, or stores one entry under its day and its
    concepts. *)
Lemma exec_shape (c : call) (w : world) :
  (is_store_call c = false /\ is_clear_call c = false
   /\ snd (exec' c w) = w)
  \/ (c = ClearMemory
      /\ self (snd (exec' c w)) = empty_store (memory_file (self w)))
  \/ (is_store_call c = true
      /\ exists e day concepts,
           typed_entry e
           /\ self (snd (exec' c w)) = with_entry (self w) e day concepts).
Proof.
  destruct c; unfold exec; cbn [snd]; try (left; now repeat split).
  - right. right. split; [reflexivity|]. unfold store_query. cbn [snd].
    rewrite self_save_to_file. cbn [self]. unfold _index_concepts.
    eexists. eexists. eexists. split; [|reflexivity].
    destruct metadata as [[|kv md]|]; split; intros v; cbn; intros Hv;
      try discriminate; injection Hv as <-; eauto.
  - right. right. split; [reflexivity|]. unfold store_experience.
    cbn [snd]. rewrite self_save_to_file. cbn [self].
    eexists. eexists. eexists. split; [|reflexivity].
    destruct concepts as [[|c0 cs]|]; split; intros v; cbn; intros Hv;
      try discriminate; injection Hv as <-; eauto.
  - right. left. split; reflexivity.
Qed.

(** What holds of the empty store and is kept by storing one entry holds
    after any sequence of calls. *)
Lemma run_invariant (P : SullySearchMemory -> Prop) :
  (forall memory_file, P (empty_store memory_file)) ->
  (forall s e day concepts,
     typed_entry e -> P s -> P (with_entry s e day concepts)) ->
  forall calls w, P (self w) -> P (self (snd (run' calls w))).
Proof.
  intros Hempty Hstep calls.
  induction calls as [|c calls IH]; intros w Hw; [assumption|].
  cbn [run]. pose proof (exec_shape c w) as Hshape.
  destruct (exec' c w) as [r w']. cbn [snd] in Hshape.
  assert (Hw' : P (self w')).
  { destruct Hshape as [(_ & _ & ->)|[[_ ->]|[_ (e & day & cs & He & ->)]]];
      auto. }
  specialize (IH w' Hw'). now destruct (run' calls w').
Qed.

End CallShapes.

(** ** Storing never removes *)

Lemma entry_at_app (store more : list entry) (i : Z) :
  valid_id store i -> entry_at (store ++ more) i = entry_at store i.
Proof.
  unfold valid_id, entry_at, len. intros Hi. apply app_nth1. lia.
Qed.

Lemma entry_at_new (store : list entry) (e : entry) :
  entry_at (store ++ [e]) (len store) = e.
Proof.
  unfold entry_at, len. rewrite Nat2Z.id, app_nth2 by lia.
  now rewrite Nat.sub_diag.
Qed.

Section GrowthFacts.

Variable re_findall_capitalized : string -> list string.
Variable re_findall_phrases : string -> list string.
Variable set_iter : list string -> list string.
Variable set_intersection_iter : list Z -> list Z -> list Z.
Variable fromisoformat : string -> option datetime.
Variable strptime_Ymd : string -> option datetime.

Local Abbreviation exec' :=
  (exec re_findall_capitalized re_findall_phrases set_iter
        set_intersection_iter fromisoformat strptime_Ymd).
Local Abbreviation run' :=
  (run re_findall_capitalized re_findall_phrases set_iter
       set_intersection_iter fromisoformat strptime_Ymd).
Local Abbreviation exec_shape' :=
  (exec_shape re_findall_capitalized re_findall_phrases set_iter
              set_intersection_iter fromisoformat strptime_Ymd).

(** X1. As long as [clear_memory] is not called, nothing is removed or
    moved: the storage after any sequence of calls is the storage before
    with entries added at its end, so that every id keeps its entry, and
    the list of every concept and of every day is the list before with
    ids added at its end. *)
Theorem without_clear_nothing_is_removed (calls : list call) (w : world) :
  forallb (fun c => negb (is_clear_call c)) calls = true ->
  let s := self w in
  let s' := self (snd (run' calls w)) in
  (exists es, storage s' = storage s ++ es)
  /\ (forall i, valid_id (storage s) i ->
        entry_at (storage s') i = entry_at (storage s) i)
  /\ (forall concept, exists more,
        lookup concept (associations s')
        = lookup concept (associations s) ++ more)
  /\ (forall day, exists more,
        lookup day (temporal_index s')
        = lookup day (temporal_index s) ++ more)
  /\ memory_file s' = memory_file s.
Proof.
  revert w. induction calls as [|c calls IH]; intros w Hall s s'.
  - subst s s'. cbn [run snd].
    split; [exists []; now rewrite app_nil_r|].
    split; [reflexivity|].
    split; [intros k; exists []; now rewrite app_nil_r|].
    split; [intros k; exists []; now rewrite app_nil_r|reflexivity].
  - cbn [forallb] in Hall. apply andb_prop in Hall as [Hc Hall].
    subst s s'. cbn [run]. pose proof (exec_shape' c w) as Hshape.
    destruct (exec' c w) as [r w1]. cbn [snd] in Hshape.
    specialize (IH w1 Hall). cbn zeta in IH.
    destruct (run' calls w1) as [rs w2]. cbn [snd] in *.
    destruct IH as ([es Hes] & Hat & Hassoc & Htemp & Hmf).
    destruct Hshape as [(_ & _ & ->)|[[-> _]|[_ (e & day & cs & He & Hw1)]]].
    + repeat split; eauto.
    + discriminate Hc.
    + rewrite Hw1 in *. unfold with_entry in *.
      cbn [storage associations temporal_index memory_file] in *.
      split; [exists (e :: es); rewrite Hes, <- app_assoc; reflexivity|].
      split.
      { intros i Hi. rewrite Hat by now apply valid_id_grow.
        now apply entry_at_app. }
      split.
      { intros k. destruct (Hassoc k) as [more Hmore].
        rewrite Hmore, lookup_add_associations.
        destruct (existsb (fun c0 => String.eqb k (lower c0)) cs
                  && negb (int_in (len (storage (self w)))
                                  (lookup k (associations (self w))))).
        - eexists. rewrite <- app_assoc. reflexivity.
        - eauto. }
      split; [|assumption].
      intros k. destruct (Htemp k) as [more Hmore].
      rewrite Hmore, lookup_append_at.
      destruct (String.eqb k day).
      * eexists. rewrite <- app_assoc. reflexivity.
      * eauto.
Qed.

(** X2. [len(memory)] is the number of [store_query] and
    [store_experience] calls made since the store was created empty or
    last cleared, whatever queries came in between, and it is the id the
    next store call returns. *)
Theorem len_counts_the_stores_since_clear (calls : list call) (w : world) :
  __len__ (self (snd (run' calls w)))
  = stores_since_clear calls (__len__ (self w))
  /\ (forall c, is_store_call c = true ->
        fst (exec' c (snd (run' calls w)))
        = ret (RInt (__len__ (self (snd (run' calls w)))))).
Proof.
  split.
  - revert w. induction calls as [|c calls IH]; intros w; [reflexivity|].
    cbn [run stores_since_clear].
    pose proof (exec_shape' c w) as Hshape.
    destruct (exec' c w) as [r w1]. cbn [snd] in Hshape.
    specialize (IH w1). destruct (run' calls w1) as [rs w2]. cbn [snd] in *.
    rewrite IH.
    destruct Hshape as [(Hs & Hc & ->)|[[-> Hw1]|[Hs (e & d & cs & _ & Hw1)]]].
    + now rewrite Hc, Hs.
    + cbn [is_clear_call]. now rewrite Hw1.
    + assert (Hc : is_clear_call c = false) by (now destruct c).
      rewrite Hc, Hs, Hw1. unfold __len__, with_entry. cbn [storage].
      now rewrite len_app_one.
  - intros c Hc. unfold __len__.
    now destruct (exec_store_call re_findall_capitalized re_findall_phrases
                    set_iter set_intersection_iter fromisoformat
                    strptime_Ymd c (snd (run' calls w)) Hc).
Qed.

End GrowthFacts.

(** ** Concept keys *)

Lemma dict_set_set {V} (k : string) (v1 v2 : V) (d : dict string V) :
  dict_set k v2 (dict_set k v1 d) = dict_set k v2 d.
Proof.
  induction d as [|[k' v'] d IH]; cbn [dict_set].
  - now rewrite (keqb_refl k).
  - destruct (keqb k k') eqn:Hk; cbn [dict_set]; rewrite Hk;
      [reflexivity|now rewrite IH].
Qed.

(** A pair of the index after one association is a pair of the index
    before, or the concept in lower case with a list that ends with the
    id. *)
Lemma In_add_association_key (concept k : string) (i : Z) (ids : list Z)
  (d : dict string (list Z)) :
  In (k, ids) (_add_association concept i d) ->
  In (k, ids) d \/ (k = lower concept /\ exists l, ids = l ++ [i]).
Proof.
  unfold _add_association, dict_mem.
  destruct (dict_get (lower concept) d) as [l|] eqn:Hg.
  - rewrite Hg. destruct (int_in i l); [now left|].
    intros Hin. apply In_dict_set in Hin as [[-> ->]|Hin]; eauto.
  - rewrite dict_get_set_eq. cbn [int_in existsb app].
    rewrite dict_set_set. intros Hin.
    apply In_dict_set in Hin as [[-> ->]|Hin]; [|now left].
    right. split; [reflexivity|]. now exists [].
Qed.

Lemma In_add_associations_key (concepts : list string) (k : string) (i : Z)
  (ids : list Z) (d : dict string (list Z)) :
  In (k, ids) (add_associations concepts i d) ->
  In (k, ids) d
  \/ ((exists c, In c concepts /\ k = lower c) /\ exists l, ids = l ++ [i]).
Proof.
  unfold add_associations. revert d.
  induction concepts as [|c cs IH]; intros d; cbn [fold_left]; [now left|].
  intros Hin. apply IH in Hin as [Hin|[[c' [Hc' ->]] Hl]].
  - apply In_add_association_key in Hin as [Hin|[-> Hl]]; [now left|].
    right. split; [|assumption]. exists c. split; [now left|reflexivity].
  - right. split; [|assumption]. exists c'. split; [now right|reflexivity].
Qed.

Section ConceptKeyFacts.

Variable re_findall_capitalized : string -> list string.
Variable re_findall_phrases : string -> list string.
Variable set_iter : list string -> list string.
Variable set_intersection_iter : list Z -> list Z -> list Z.
Variable fromisoformat : string -> option datetime.
Variable strptime_Ymd : string -> option datetime.

Local Abbreviation run' :=
  (run re_findall_capitalized re_findall_phrases set_iter
       set_intersection_iter fromisoformat strptime_Ymd).

(** X3. After any sequence of calls on a store created empty, every key
    of the concept index is in lower case and lists at least one id, so
    that a concept is found under any spelling that differs from its key
    by case only. *)
Theorem concept_keys_are_lower_case (calls : list call)
  (memory_file : option string) (fs : filesystem) :
  let s := self (snd (run' calls {| self := empty_store memory_file;
                                    files := fs |})) in
  forall key ids,
    dict_get key (associations s) = Some ids ->
    lower key = key
    /\ ids <> []
    /\ (forall concept limit, lower concept = key ->
          get_associated_memories s concept limit
          = get_associated_memories s key limit).
Proof.
  intros s key ids Hg.
  assert (Hinv : forall k l, In (k, l) (associations s) ->
                             lower k = k /\ l <> []).
  { unfold s.
    apply (run_invariant re_findall_capitalized re_findall_phrases set_iter
             set_intersection_iter fromisoformat strptime_Ymd
             (fun s => forall k l, In (k, l) (associations s) ->
                                   lower k = k /\ l <> [])).
    - intros mf k l [].
    - intros s0 e day cs _ Hs0 k l Hin. unfold with_entry in Hin.
      cbn [associations] in Hin.
      apply In_add_associations_key in Hin as [Hin|[[c [_ ->]] [l' ->]]].
      + now apply Hs0.
      + split; [apply lower_idempotent|]. now destruct l'.
    - intros k l []. }
  apply dict_get_In in Hg as Hin. destruct (Hinv key ids Hin) as [Hk Hne].
  repeat split; try assumption.
  intros concept limit Hc. unfold get_associated_memories.
  now rewrite Hc, Hk.
Qed.

End ConceptKeyFacts.

(** ** More on searching *)

(** *** The case of the keyword *)

Lemma scan_entry_same_lower (keyword keyword' : string) (i : Z) (e : entry)
  (dm : dict Z entry) :
  lower keyword = lower keyword' ->
  scan_entry false keyword i e dm = scan_entry false keyword' i e dm.
Proof.
  intros Hlow. unfold scan_entry, field_matches. now rewrite Hlow.
Qed.

Lemma direct_scan_same_lower (keyword keyword' : string) (limit : option Z)
  (entries : list entry) (i : Z) (dm : dict Z entry) :
  lower keyword = lower keyword' ->
  direct_scan false keyword limit entries i dm
  = direct_scan false keyword' limit entries i dm.
Proof.
  intros Hlow. revert i dm.
  induction entries as [|e rest IH]; intros i dm; [reflexivity|].
  cbn [direct_scan]. rewrite (scan_entry_same_lower _ _ i e dm Hlow).
  destruct (scan_entry false keyword' i e dm) as [err|dm']; [reflexivity|].
  cbn [bind]. destruct (limit_reached limit (dict_len dm')); [reflexivity|].
  apply IH.
Qed.

(** X4. Queries do not see the case of what they look for: two keywords
    that are equal in lower case give the same result of a search that is
    not case sensitive, of [get_associated_memories] and, in either
    position, of [find_connections]; and each gives what its lower case
    gives. *)
Theorem queries_ignore_the_case_of_the_keyword (keyword keyword' : string) :
  lower keyword = lower keyword' ->
  (forall s limit include_associations,
     search s keyword false limit include_associations
     = search s keyword' false limit include_associations)
  /\ (forall s limit,
        get_associated_memories s keyword limit
        = get_associated_memories s keyword' limit)
  /\ (forall set_intersection_iter s other,
        find_connections set_intersection_iter s keyword other
        = find_connections set_intersection_iter s keyword' other
        /\ find_connections set_intersection_iter s other keyword
           = find_connections set_intersection_iter s other keyword')
  /\ (forall s limit include_associations,
        search s keyword false limit include_associations
        = search s (lower keyword) false limit include_associations).
Proof.
  intros Hlow.
  assert (Hsearch : forall k k', lower k = lower k' ->
            forall s limit ia,
              search s k false limit ia = search s k' false limit ia).
  { intros k k' Hk s limit ia. unfold search.
    now rewrite (direct_scan_same_lower k k' limit (storage s) 0 [] Hk), Hk. }
  split; [now apply Hsearch|].
  split; [intros s limit; unfold get_associated_memories; now rewrite Hlow|].
  split; [intros iter s other; unfold find_connections; now rewrite Hlow|].
  apply Hsearch. symmetry. apply lower_idempotent.
Qed.

(** *** Limits of any sign *)

Lemma search_at_limit_zero (s : SullySearchMemory) (keyword : string)
  (case_sensitive include_associations : bool) :
  search s keyword case_sensitive (Some 0) include_associations
  = search s keyword case_sensitive None include_associations.
Proof.
  unfold search. rewrite direct_scan_limit_zero.
  destruct (direct_scan case_sensitive keyword None (storage s) 0 [])
    as [err|dm]; [reflexivity|].
  cbn [bind]. unfold limit_reached, below_limit.
  change (0 =? 0) with true. cbn [negb andb]. rewrite orb_false_r.
  destruct include_associations; cbn [negb]; [|reflexivity].
  destruct (dict_get (lower keyword) (associations s)) as [ids|].
  - rewrite add_associated_limit_zero.
    destruct (add_associated (storage s) None ids dm) as [err|m];
      [reflexivity|].
    cbn [bind]. apply scan_concepts_limit_zero.
  - cbn [bind ret]. apply scan_concepts_limit_zero.
Qed.

Lemma limit_reached_below_zero (limit n : Z) :
  limit < 0 -> 0 <= n -> limit_reached (Some limit) n = true.
Proof.
  intros Hneg Hn. unfold limit_reached.
  destruct (Z.eqb_spec limit 0); [lia|].
  destruct (Z.leb_spec limit n); [reflexivity|lia].
Qed.

Lemma search_below_zero (s : SullySearchMemory) (keyword : string)
  (case_sensitive : bool) (limit : Z) (include_associations : bool) :
  Forall typed_entry (storage s) ->
  limit < 0 ->
  search s keyword case_sensitive (Some limit) include_associations
  = ret (match storage s with
         | [] => []
         | e :: _ =>
             if entry_matches case_sensitive keyword e then [(0, e)] else []
         end).
Proof.
  intros Hent Hneg. unfold search.
  destruct (storage s) as [|e rest].
  - cbn [direct_scan bind ret].
    rewrite limit_reached_below_zero by (unfold dict_len; simpl; lia).
    now rewrite orb_true_r.
  - inversion Hent as [|? ? He _]; subst.
    rewrite (direct_scan_negative_limit case_sensitive keyword limit e rest
               Hneg He), bind_ret.
    rewrite limit_reached_below_zero by (unfold dict_len; lia).
    now rewrite orb_true_r.
Qed.

(** *** The mapping a search returns *)

Lemma NoDup_truncate {A} (limit : option Z) (l : list A) :
  NoDup l -> NoDup (truncate limit l).
Proof.
  destruct limit as [n|]; simpl; [|auto]. intros Hnd.
  rewrite <- (firstn_skipn (Z.to_nat n) l) in Hnd.
  now apply NoDup_app_remove_r in Hnd.
Qed.

Lemma In_truncate {A} (limit : option Z) (l : list A) (x : A) :
  In x (truncate limit l) -> In x l.
Proof.
  destruct limit as [n|]; simpl; [|auto]. intros Hin.
  rewrite <- (firstn_skipn (Z.to_nat n) l). apply in_or_app. now left.
Qed.

Lemma discovery_order_NoDup (s : SullySearchMemory) (keyword : string)
  (case_sensitive include_associations : bool) :
  NoDup (discovery_order s keyword case_sensitive include_associations).
Proof.
  unfold discovery_order. destruct include_associations.
  - apply uniq_NoDup.
  - apply direct_ids_NoDup.
Qed.

Lemma lookup_containing_valid (store : list entry) (needle : string)
  (index : dict string (list Z)) :
  index_ok store index ->
  Forall (valid_id store) (lookup_containing needle index).
Proof.
  intros Hok. unfold lookup_containing. apply Forall_concat.
  apply Forall_forall. intros l Hl.
  apply in_map_iff in Hl as [[k l'] [<- Hin]].
  apply filter_In in Hin as [Hin _]. now apply (Hok k).
Qed.

Lemma lookup_valid (store : list entry) (key : string)
  (index : dict string (list Z)) :
  index_ok store index -> Forall (valid_id store) (lookup key index).
Proof.
  intros Hok. destruct (lookup_In key index) as [Hl|Hl].
  - rewrite Hl. constructor.
  - now apply Hok in Hl.
Qed.

Lemma discovery_order_valid (s : SullySearchMemory) (keyword : string)
  (case_sensitive include_associations : bool) :
  store_ok s ->
  Forall (valid_id (storage s))
         (discovery_order s keyword case_sensitive include_associations).
Proof.
  intros [_ Ha _]. apply Forall_forall. intros i.
  unfold discovery_order.
  assert (Hdirect : In i (direct_ids case_sensitive keyword (storage s)) ->
                    valid_id (storage s) i).
  { intros Hin. now apply direct_ids_In in Hin. }
  destruct include_associations; [|assumption].
  rewrite uniq_In, !in_app_iff. intros [[Hin|[Hin|Hin]] _]; [auto| |].
  - pose proof (lookup_valid (storage s) (lower keyword) _ Ha) as Hv.
    rewrite Forall_forall in Hv. now apply Hv.
  - pose proof (lookup_containing_valid (storage s) (lower keyword) _ Ha)
      as Hv.
    rewrite Forall_forall in Hv. now apply Hv.
Qed.

Lemma entries_by_id_keys (store : list entry) (ids : list Z) :
  dict_keys (entries_by_id store ids) = ids.
Proof.
  unfold dict_keys, entries_by_id. rewrite map_map. simpl. apply map_id.
Qed.

Lemma In_entries_by_id (store : list entry) (ids : list Z) (i : Z)
  (e : entry) :
  In (i, e) (entries_by_id store ids) <-> In i ids /\ e = entry_at store i.
Proof.
  unfold entries_by_id. rewrite in_map_iff. split.
  - intros [j [[= <- <-] Hin]]. now split.
  - intros [Hin ->]. now exists i.
Qed.

(** X5. On a well-formed store, one whose entries hold strings in their
    "query" and "content" fields and whose two indexes list ids of stored
    entries only ([store_ok]), [search] raises for no keyword, no flag and
    no limit, be it zero or negative; the mapping it returns has each id
    once, and every id in it is the id of a stored entry, mapped to that
    entry. *)
Theorem search_returns_a_mapping_of_stored_entries (s : SullySearchMemory)
  (keyword : string) (case_sensitive : bool) (limit : option Z)
  (include_associations : bool) :
  store_ok s ->
  exists m,
    search s keyword case_sensitive limit include_associations = ret m
    /\ NoDup (dict_keys m)
    /\ (forall i e, In (i, e) m ->
          valid_id (storage s) i
          /\ py_index (storage s) i = ret e
          /\ dict_get i m = Some e).
Proof.
  intros Hok.
  assert (Hspec : forall l ia,
    usable_limit l ->
    let m := search_spec s keyword case_sensitive l ia in
    NoDup (dict_keys m)
    /\ (forall i e, In (i, e) m ->
          valid_id (storage s) i
          /\ py_index (storage s) i = ret e
          /\ dict_get i m = Some e)).
  { intros l ia _ m. unfold m, search_spec.
    set (ids := truncate l (discovery_order s keyword case_sensitive ia)).
    assert (Hnd : NoDup ids)
      by apply NoDup_truncate, discovery_order_NoDup.
    assert (Hval : forall i, In i ids -> valid_id (storage s) i).
    { intros i Hin. apply In_truncate in Hin.
      pose proof (discovery_order_valid s keyword case_sensitive ia Hok)
        as Hv.
      rewrite Forall_forall in Hv. now apply Hv. }
    rewrite entries_by_id_keys. split; [assumption|].
    intros i e Hin. apply In_entries_by_id in Hin as [Hin ->].
    split; [now apply Hval|]. split; [now apply py_index_valid, Hval|].
    rewrite dict_get_entries_by_id.
    now replace (int_in i ids) with true by (symmetry; now apply int_in_In). }
  destruct limit as [n|].
  - destruct (Z.lt_trichotomy n 0) as [Hneg|[->|Hpos]].
    + destruct Hok as [Hent _ _].
      rewrite (search_below_zero s keyword case_sensitive n
                 include_associations Hent Hneg).
      eexists. split; [reflexivity|].
      destruct (storage s) as [|e0 rest] eqn:Hst.
      * split; [constructor|]. intros i e [].
      * destruct (entry_matches case_sensitive keyword e0).
        -- split; [repeat constructor; intros []|].
           intros i e [[= <- <-]|[]].
           split; [unfold valid_id, len; simpl; lia|]. now split.
        -- split; [constructor|]. intros i e [].
    + rewrite search_at_limit_zero,
        (search_refines s keyword case_sensitive None include_associations
           Hok I).
      eexists. split; [reflexivity|]. now apply Hspec.
    + rewrite (search_refines s keyword case_sensitive (Some n)
                 include_associations Hok Hpos).
      eexists. split; [reflexivity|]. now apply Hspec.
  - rewrite (search_refines s keyword case_sensitive None
               include_associations Hok I).
    eexists. split; [reflexivity|]. now apply Hspec.
Qed.

(** X6. On a well-formed store a positive limit only cuts: the search
    with limit [n] returns the first [n] items of the mapping the search
    without a limit returns. The associations only add: the search with
    them returns the mapping of the search without them, followed by the
    associated entries. *)
Theorem a_limit_cuts_and_associations_add (s : SullySearchMemory)
  (keyword : string) (case_sensitive : bool) (n : Z) :
  store_ok s ->
  0 < n ->
  (forall include_associations, exists all,
     search s keyword case_sensitive None include_associations = ret all
     /\ search s keyword case_sensitive (Some n) include_associations
        = ret (firstn (Z.to_nat n) all))
  /\ (exists direct more,
        search s keyword case_sensitive None false = ret direct
        /\ search s keyword case_sensitive None true = ret (direct ++ more)).
Proof.
  intros Hok Hpos. split.
  - intros ia.
    rewrite (search_refines s keyword case_sensitive None ia Hok I),
      (search_refines s keyword case_sensitive (Some n) ia Hok Hpos).
    eexists. split; [reflexivity|].
    unfold search_spec. cbn [truncate]. unfold entries_by_id.
    now rewrite firstn_map.
  - rewrite (search_refines s keyword case_sensitive None false Hok I),
      (search_refines s keyword case_sensitive None true Hok I).
    unfold search_spec. cbn [truncate]. rewrite discovery_order_phases.
    unfold discovery_order. rewrite <- app_assoc.
    unfold entries_by_id. rewrite map_app.
    eexists. eexists. split; reflexivity.
Qed.

(** X7. Every entry associated with a concept is found by the search for
    that concept: on a well-formed store, the mapping that a search with
    associations and without a limit returns for a keyword holds every id
    that the concept index lists for the keyword in lower case, and every
    id it lists for a key that contains it, each with its entry. *)
Theorem search_finds_the_associated_entries (s : SullySearchMemory)
  (concept : string) (case_sensitive : bool) :
  store_ok s ->
  exists m,
    search s concept case_sensitive None true = ret m
    /\ (forall i, In i (lookup (lower concept) (associations s)) ->
          In (i, entry_at (storage s) i) m)
    /\ (forall key ids i,
          dict_get key (associations s) = Some ids ->
          str_in (lower concept) key = true ->
          In i ids ->
          In (i, entry_at (storage s) i) m)
    /\ (forall es,
          get_associated_memories s concept None = ret es ->
          forall e, In e es -> exists i, In (i, e) m).
Proof.
  intros Hok.
  rewrite (search_refines s concept case_sensitive None true Hok I).
  eexists. split; [reflexivity|].
  unfold search_spec, discovery_order. cbn [truncate].
  assert (Hexact : forall i,
    In i (lookup (lower concept) (associations s)) ->
    In (i, entry_at (storage s) i)
       (entries_by_id (storage s)
          (uniq [] (direct_ids case_sensitive concept (storage s)
                    ++ lookup (lower concept) (associations s)
                    ++ lookup_containing (lower concept) (associations s))))).
  { intros i Hin. apply In_entries_by_id. split; [|reflexivity].
    apply uniq_In. split; [|tauto]. rewrite !in_app_iff. tauto. }
  split; [exact Hexact|]. split.
  - intros key ids i Hg Hsub Hi.
    destruct (String.eqb_spec key (lower concept)) as [->|Hne].
    + apply Hexact. unfold lookup. now rewrite Hg.
    + apply dict_get_In in Hg.
      apply In_entries_by_id. split; [|reflexivity].
      apply uniq_In. split; [|tauto]. rewrite !in_app_iff. right. right.
      unfold lookup_containing. apply in_concat. exists ids.
      split; [|assumption].
      change ids with (snd (key, ids)). apply in_map. apply filter_In.
      split; [assumption|]. cbn [fst]. rewrite Hsub.
      destruct (String.eqb_spec key (lower concept)); [contradiction|].
      reflexivity.
  - intros es Hes e He.
    rewrite (get_associated_memories_all s concept Hok) in Hes.
    injection Hes as <-. apply in_map_iff in He as [i [<- Hi]].
    exists i. now apply Hexact.
Qed.

(** ** What is stored is found *)

Lemma with_entry_inv (s : SullySearchMemory) (e : entry) (day : string)
  (concepts : list string) :
  typed_entry e -> store_inv s -> store_inv (with_entry s e day concepts).
Proof. apply store_step_inv. Qed.

Lemma new_id_not_listed (s : SullySearchMemory) (key : string)
  (index : dict string (list Z)) :
  index_ok (storage s) index ->
  int_in (len (storage s)) (lookup key index) = false.
Proof.
  intros Hok. apply int_in_false. intros Hin.
  pose proof (lookup_valid (storage s) key index Hok) as Hv.
  rewrite Forall_forall in Hv. apply Hv in Hin. unfold valid_id in Hin. lia.
Qed.

Lemma map_entry_at_app (store : list entry) (e : entry) (ids : list Z) :
  Forall (valid_id store) ids ->
  map (entry_at (store ++ [e])) (ids ++ [len store])
  = map (entry_at store) ids ++ [e].
Proof.
  intros Hv. rewrite map_app. cbn [map]. rewrite entry_at_new. f_equal.
  apply map_ext_in. intros i Hi. apply entry_at_app.
  rewrite Forall_forall in Hv. now apply Hv.
Qed.

(** The new entry is found by a keyword that it matches. *)
Lemma with_entry_search (s : SullySearchMemory) (e : entry) (day : string)
  (concepts : list string) (keyword : string)
  (case_sensitive include_associations : bool) :
  store_inv s ->
  typed_entry e ->
  entry_matches case_sensitive keyword e = true ->
  exists m,
    search (with_entry s e day concepts) keyword case_sensitive None
           include_associations = ret m
    /\ In (len (storage s), e) m.
Proof.
  intros Hinv He Hm.
  pose proof (inv_ok _ (with_entry_inv s e day concepts He Hinv)) as Hok.
  rewrite (search_refines _ keyword case_sensitive None include_associations
             Hok I).
  eexists. split; [reflexivity|]. unfold search_spec. cbn [truncate].
  apply In_entries_by_id. cbn [with_entry storage].
  split; [|now rewrite entry_at_new].
  assert (Hdirect : In (len (storage s))
            (direct_ids case_sensitive keyword (storage s ++ [e]))).
  { apply direct_ids_In. split; [apply valid_id_new|].
    now rewrite entry_at_new. }
  unfold discovery_order. cbn [with_entry storage].
  destruct include_associations; [|assumption].
  apply uniq_In. split; [|tauto]. apply in_or_app. now left.
Qed.

(** The new entry comes last under each of its concepts. *)
Lemma with_entry_associated (s : SullySearchMemory) (e : entry)
  (day : string) (concepts : list string) (concept : string) :
  store_inv s ->
  typed_entry e ->
  existsb (fun c => String.eqb (lower concept) (lower c)) concepts = true ->
  get_associated_memories (with_entry s e day concepts) concept None
  = ret (map (entry_at (storage s))
             (lookup (lower concept) (associations s)) ++ [e]).
Proof.
  intros Hinv He Hc.
  pose proof (inv_ok _ (with_entry_inv s e day concepts He Hinv)) as Hok.
  destruct Hinv as [[_ Ha _] _ _ _ _ _].
  rewrite (get_associated_memories_all _ concept Hok).
  cbn [with_entry storage associations].
  rewrite lookup_add_associations, Hc, (new_id_not_listed s _ _ Ha).
  cbn [andb negb]. f_equal. apply map_entry_at_app.
  now apply lookup_valid.
Qed.

(** The list of any other concept is as it was. *)
Lemma with_entry_not_associated (s : SullySearchMemory) (e : entry)
  (day : string) (concepts : list string) (concept : string) :
  store_inv s ->
  typed_entry e ->
  existsb (fun c => String.eqb (lower concept) (lower c)) concepts = false ->
  get_associated_memories (with_entry s e day concepts) concept None
  = get_associated_memories s concept None.
Proof.
  intros Hinv He Hc.
  pose proof (inv_ok _ (with_entry_inv s e day concepts He Hinv)) as Hok.
  pose proof (inv_ok _ Hinv) as Hok0.
  rewrite (get_associated_memories_all _ concept Hok),
    (get_associated_memories_all _ concept Hok0).
  cbn [with_entry storage associations].
  rewrite lookup_add_associations, Hc. cbn [andb]. f_equal.
  apply map_ext_in. intros i Hi. apply entry_at_app.
  destruct Hok0 as [_ Ha _].
  pose proof (lookup_valid (storage s) (lower concept) _ Ha) as Hv.
  rewrite Forall_forall in Hv. now apply Hv.
Qed.

Section RoundTripFacts.

Variable re_findall_capitalized : string -> list string.
Variable re_findall_phrases : string -> list string.
Variable set_iter : list string -> list string.
Variable fromisoformat : string -> option datetime.
Variable strptime_Ymd : string -> option datetime.

Local Abbreviation store_query' :=
  (store_query re_findall_capitalized re_findall_phrases set_iter).
Local Abbreviation store_experience' :=
  (store_experience re_findall_capitalized re_findall_phrases set_iter).
Local Abbreviation get_temporal_context' :=
  (get_temporal_context fromisoformat strptime_Ymd).

(** The new entry comes last in the context of its day. *)
Lemma with_entry_temporal (s : SullySearchMemory) (e : entry)
  (concepts : list string) (t : datetime) :
  store_inv s ->
  typed_entry e ->
  1 <= dt_date t < MAXORDINAL ->
  get_temporal_context'
    (with_entry s e (strftime_Ymd (dt_date t)) concepts) (OfDatetime t) 0 None
  = ret (map (entry_at (storage s)) (bucket (temporal_index s) (dt_date t))
         ++ [e]).
Proof.
  intros Hinv He Hrange.
  pose proof (inv_ok _ (with_entry_inv s e (strftime_Ymd (dt_date t))
                          concepts He Hinv)) as Hok.
  destruct Hinv as [[_ _ Ht] _ _ _ _ _].
  rewrite (get_temporal_context_window fromisoformat strptime_Ymd _
             (OfDatetime t) t 0 None Hok eq_refl); try lia; [|exact I].
  cbn [truncate with_entry storage temporal_index]. unfold window.
  change (Z.to_nat (2 * 0 + 1)) with 1%nat.
  cbn [days_from map List.concat]. rewrite Z.sub_0_r, app_nil_r.
  unfold bucket. rewrite lookup_append_at, String.eqb_refl.
  f_equal. apply map_entry_at_app. now apply lookup_valid.
Qed.

(** X8. An experience that is stored is found: by its id, by a search
    for any keyword its content holds, last in the list of each concept
    given with it (the lists of the other concepts staying as they were),
    and last in the temporal context of its day. *)
Theorem a_stored_experience_is_found (t : datetime)
  (content source : string) (concept : string) (others : list string)
  (importance : float) (w : world) :
  store_inv (self w) ->
  let concepts := concept :: others in
  let stored := store_experience' t content source (Some concepts)
                                  importance w in
  let id := fst stored in
  let s' := self (snd stored) in
  exists e,
    py_index (storage s') id = ret e
    /\ dict_get "content" e = Some (PStr content)
    /\ dict_get "source" e = Some (PStr source)
    /\ (forall keyword case_sensitive include_associations,
          text_contains case_sensitive keyword (Some content) = true ->
          exists m,
            search s' keyword case_sensitive None include_associations
            = ret m
            /\ In (id, e) m)
    /\ (forall c, In c concepts ->
          exists es,
            get_associated_memories (self w) c None = ret es
            /\ get_associated_memories s' c None = ret (es ++ [e]))
    /\ (forall c,
          (forall c', In c' concepts -> lower c <> lower c') ->
          get_associated_memories s' c None
          = get_associated_memories (self w) c None)
    /\ (1 <= dt_date t < MAXORDINAL ->
        exists es,
          get_temporal_context' (self w) (OfDatetime t) 0 None = ret es
          /\ get_temporal_context' s' (OfDatetime t) 0 None
             = ret (es ++ [e])).
Proof.
  intros Hinv concepts stored id s'.
  set (e := [("content", PStr content); ("source", PStr source);
             ("timestamp", PStr (isoformat t));
             ("importance", PFloat importance);
             ("type", PStr "experience");
             ("concepts", PList (map PStr concepts))]).
  assert (Hs' : s' = with_entry (self w) e (strftime_Ymd (dt_date t))
                                concepts).
  { unfold s', stored, store_experience. cbn [snd].
    now rewrite self_save_to_file. }
  assert (He : typed_entry e).
  { split; intros v; cbn; intros Hv; try discriminate;
      injection Hv as <-; eauto. }
  pose proof (inv_ok _ Hinv) as Hok.
  exists e. rewrite Hs'. change id with (len (storage (self w))).
  split.
  { cbn [with_entry storage]. rewrite py_index_valid by apply valid_id_new.
    now rewrite entry_at_new. }
  split; [reflexivity|]. split; [reflexivity|].
  split.
  { intros keyword cs ia Hm. now apply with_entry_search. }
  split.
  { intros c Hc. eexists. split.
    - now apply get_associated_memories_all.
    - apply with_entry_associated; auto.
      apply existsb_exists. exists c. split; [assumption|].
      apply String.eqb_refl. }
  split.
  { intros c Hc. apply with_entry_not_associated; auto.
    destruct (existsb (fun c0 => String.eqb (lower c) (lower c0)) concepts)
      eqn:Hex; [|reflexivity].
    apply existsb_exists in Hex as [c' [Hin Heq]].
    apply String.eqb_eq in Heq. now apply Hc in Hin. }
  intros Hrange. eexists. split.
  - apply (get_temporal_context_window fromisoformat strptime_Ymd (self w)
             (OfDatetime t) t 0 None Hok eq_refl); try lia. exact I.
  - rewrite with_entry_temporal by assumption.
    cbn [truncate]. unfold window.
    change (Z.to_nat (2 * 0 + 1)) with 1%nat.
    cbn [days_from map List.concat]. now rewrite Z.sub_0_r, app_nil_r.
Qed.

(** X9. A query that is stored is found: by its id, by a search for any
    keyword its query text holds, or its result holds when the result is a
    string, and last in the temporal context of its day. *)
Theorem a_stored_query_is_found (t : datetime) (query : string)
  (result : pyval) (metadata : option (dict string pyval)) (w : world) :
  store_inv (self w) ->
  let stored := store_query' t query result metadata w in
  let id := fst stored in
  let s' := self (snd stored) in
  exists e,
    py_index (storage s') id = ret e
    /\ dict_get "query" e = Some (PStr query)
    /\ dict_get "result" e = Some result
    /\ (forall keyword case_sensitive include_associations,
          text_contains case_sensitive keyword (Some query) = true
          \/ (exists text, result = PStr text
                /\ text_contains case_sensitive keyword (Some text) = true) ->
          exists m,
            search s' keyword case_sensitive None include_associations
            = ret m
            /\ In (id, e) m)
    /\ (1 <= dt_date t < MAXORDINAL ->
        exists es,
          get_temporal_context' (self w) (OfDatetime t) 0 None = ret es
          /\ get_temporal_context' s' (OfDatetime t) 0 None
             = ret (es ++ [e])).
Proof.
  intros Hinv stored id s'.
  set (e0 := [("query", PStr query); ("result", result);
              ("timestamp", PStr (isoformat t)); ("type", PStr "query")]).
  set (e := match metadata with
            | Some ((_ :: _) as md) => dict_set "metadata" (PDict md) e0
            | _ => e0
            end).
  assert (Hs' : exists cs,
            s' = with_entry (self w) e (strftime_Ymd (dt_date t)) cs).
  { unfold s', stored, store_query. cbn [snd]. rewrite self_save_to_file.
    unfold _index_concepts. eexists. reflexivity. }
  destruct Hs' as [cs Hs'].
  assert (Hq : dict_get "query" e = Some (PStr query))
    by (unfold e; destruct metadata as [[|kv md]|]; reflexivity).
  assert (Hr : dict_get "result" e = Some result)
    by (unfold e; destruct metadata as [[|kv md]|]; reflexivity).
  assert (Hc : dict_get "content" e = None)
    by (unfold e; destruct metadata as [[|kv md]|]; reflexivity).
  assert (He : typed_entry e).
  { split; intros v Hv; [rewrite Hq in Hv|rewrite Hc in Hv];
      [injection Hv as <-; eauto|discriminate]. }
  pose proof (inv_ok _ Hinv) as Hok.
  exists e. rewrite Hs'. change id with (len (storage (self w))).
  split.
  { cbn [with_entry storage]. rewrite py_index_valid by apply valid_id_new.
    now rewrite entry_at_new. }
  split; [assumption|]. split; [assumption|].
  split.
  { intros keyword csens ia Hm. apply with_entry_search; auto.
    unfold entry_matches, field_text. rewrite Hq, Hr.
    destruct Hm as [Hm|[text [-> Hm]]]; rewrite Hm;
      [reflexivity|now rewrite orb_true_r]. }
  intros Hrange. eexists. split.
  - apply (get_temporal_context_window fromisoformat strptime_Ymd (self w)
             (OfDatetime t) t 0 None Hok eq_refl); try lia. exact I.
  - rewrite with_entry_temporal by assumption.
    cbn [truncate]. unfold window.
    change (Z.to_nat (2 * 0 + 1)) with 1%nat.
    cbn [days_from map List.concat]. now rewrite Z.sub_0_r, app_nil_r.
Qed.

End RoundTripFacts.

(** ** Write-through *)

Section DictDelFacts.
Context {K V : Type} `{EqKey K}.

Lemma dict_get_del_neq (k k' : K) (d : dict K V) :
  k <> k' -> dict_get k (dict_del k' d) = dict_get k d.
Proof.
  intros Hne. induction d as [|[k0 v0] d IH]; [reflexivity|]. simpl.
  destruct (keqb_spec k' k0) as [->|Hk0].
  - now rewrite (keqb_neq k k0).
  - simpl. now rewrite IH.
Qed.

Lemma dict_keys_del_incl (k k' : K) (d : dict K V) :
  In k (dict_keys (dict_del k' d)) -> In k (dict_keys d).
Proof.
  induction d as [|[k0 v0] d IH]; [easy|]. simpl.
  destruct (keqb k' k0); simpl; tauto.
Qed.

Lemma dict_keys_del_NoDup (k : K) (d : dict K V) :
  NoDup (dict_keys d) -> NoDup (dict_keys (dict_del k d)).
Proof.
  induction d as [|[k0 v0] d IH]; [easy|]. simpl. intros Hnd.
  inversion Hnd as [|? ? Hnotin Hrest]; subst.
  destruct (keqb k k0); [assumption|]. simpl. constructor; auto.
  intros Hin. now apply dict_keys_del_incl in Hin.
Qed.

Lemma dict_get_del_eq (k : K) (d : dict K V) :
  NoDup (dict_keys d) -> dict_get k (dict_del k d) = None.
Proof.
  induction d as [|[k0 v0] d IH]; [easy|]. simpl. intros Hnd.
  inversion Hnd as [|? ? Hnotin Hrest]; subst.
  destruct (keqb_spec k k0) as [->|Hk0].
  - now apply dict_get_None.
  - simpl. rewrite (keqb_neq k k0) by assumption. auto.
Qed.

End DictDelFacts.

Lemma restore_export_empty (s : SullySearchMemory) :
  restore (export_full_system s) (empty_store (memory_file s)) = s.
Proof. now destruct s. Qed.

Section WriteThrough.

Variable re_findall_capitalized : string -> list string.
Variable re_findall_phrases : string -> list string.
Variable set_iter : list string -> list string.
Variable set_intersection_iter : list Z -> list Z -> list Z.
Variable fromisoformat : string -> option datetime.
Variable strptime_Ymd : string -> option datetime.

Local Abbreviation exec' :=
  (exec re_findall_capitalized re_findall_phrases set_iter
        set_intersection_iter fromisoformat strptime_Ymd).
Local Abbreviation run' :=
  (run re_findall_capitalized re_findall_phrases set_iter
       set_intersection_iter fromisoformat strptime_Ymd).

(** What a call does to the files: nothing, or it writes the whole store
    to the memory file, or it removes the memory file. *)
Lemma exec_files (c : call) (w : world) :
  memory_file (self (snd (exec' c w))) = memory_file (self w)
  /\ match truthy_path (memory_file (self w)) with
     | None => files (snd (exec' c w)) = files w
     | Some path =>
         snd (exec' c w) = w
         \/ (self (snd (exec' c w)) = empty_store (memory_file (self w))
             /\ files (snd (exec' c w)) = dict_del path (files w))
         \/ files (snd (exec' c w))
            = dict_set path (export_full_system (self (snd (exec' c w))))
                       (files w)
     end.
Proof.
  destruct c; unfold exec, store_query, store_experience, clear_memory,
    _save_to_file; cbn [snd self files memory_file];
    (split; [now destruct (truthy_path (memory_file (self w)))|]);
    destruct (truthy_path (memory_file (self w))) as [path|];
    cbn [self files]; auto.
Qed.

Lemma init_after_write (mf : option string) (path : string)
  (s : SullySearchMemory) (fs : filesystem) :
  truthy_path mf = Some path ->
  memory_file s = mf ->
  __init__ mf (dict_set path (export_full_system s) fs)
  = {| self := s; files := dict_set path (export_full_system s) fs |}.
Proof.
  intros Hpath <-. unfold __init__, _load_from_file.
  cbn [self files memory_file]. rewrite Hpath, dict_get_set_eq. cbn [snd].
  f_equal. apply restore_export_empty.
Qed.

Lemma init_after_removal (mf : option string) (path : string)
  (fs : filesystem) :
  truthy_path mf = Some path ->
  NoDup (dict_keys fs) ->
  __init__ mf (dict_del path fs)
  = {| self := empty_store mf; files := dict_del path fs |}.
Proof.
  intros Hpath Hnd. unfold __init__, _load_from_file.
  cbn [self files memory_file]. rewrite Hpath, dict_get_del_eq by assumption.
  reflexivity.
Qed.

Lemma init_idempotent (mf : option string) (fs : filesystem) :
  __init__ mf (files (__init__ mf fs)) = __init__ mf fs
  /\ memory_file (self (__init__ mf fs)) = mf
  /\ files (__init__ mf fs) = fs.
Proof.
  unfold __init__, _load_from_file. cbn [self files memory_file].
  destruct (truthy_path mf) as [path|]; cbn [snd self files memory_file];
    [|now rewrite ?Hpath].
  destruct (dict_get path fs) as [data|] eqn:Hdata;
    cbn [snd self files memory_file].
  - rewrite Hdata. cbn [snd]. repeat split.
    destruct data as [[st|] [assoc|] [ti|]|]; reflexivity.
  - rewrite Hdata. repeat split.
Qed.

(** X10. With a memory file, whatever is called, a new instance made on
    the same file afterwards holds the records and both indices of the
    instance that was used: every store call writes the whole store
    through, and [clear_memory] removes the file. *)
Theorem a_new_instance_holds_what_was_stored (calls : list call)
  (mf : option string) (path : string) (fs : filesystem) :
  truthy_path mf = Some path ->
  NoDup (dict_keys fs) ->
  let w := snd (run' calls (__init__ mf fs)) in
  __init__ mf (files w) = w.
Proof.
  intros Hpath Hnd.
  assert (Hgen : forall w0,
            memory_file (self w0) = mf ->
            NoDup (dict_keys (files w0)) ->
            __init__ mf (files w0) = w0 ->
            __init__ mf (files (snd (run' calls w0))) = snd (run' calls w0)).
  { induction calls as [|c calls IH]; intros w0 Hmf Hnd0 Hre;
      [assumption|].
    cbn [run]. pose proof (exec_files c w0) as [Hmf' Hfiles].
    rewrite Hmf, Hpath in Hfiles.
    destruct (exec' c w0) as [r w1]. cbn [snd] in Hmf', Hfiles.
    assert (Hw1 : memory_file (self w1) = mf
                  /\ NoDup (dict_keys (files w1))
                  /\ __init__ mf (files w1) = w1).
    { split; [congruence|].
      destruct Hfiles as [-> | [[Hself Hdel] | Hset]]; [auto| |].
      - rewrite Hdel. split; [now apply dict_keys_del_NoDup|].
        rewrite (init_after_removal mf path) by assumption.
        destruct w1 as [s1 f1]. cbn [self files] in *. now subst.
      - rewrite Hset. split; [now apply dict_keys_set_NoDup|].
        rewrite (init_after_write mf path) by congruence.
        destruct w1 as [s1 f1]. cbn [self files] in *. now subst. }
    destruct Hw1 as (Hmf1 & Hnd1 & Hre1).
    specialize (IH w1 Hmf1 Hnd1 Hre1). now destruct (run' calls w1). }
  destruct (init_idempotent mf fs) as (Hre & Hmf & Hfs).
  apply Hgen; [assumption|now rewrite Hfs|assumption].
Qed.

(** X11. No call touches a file other than the memory file, and an
    instance without a memory file leaves the files as they are. *)
Theorem only_the_memory_file_is_written (calls : list call) (w : world) :
  let w' := snd (run' calls w) in
  (truthy_path (memory_file (self w)) = None -> files w' = files w)
  /\ (forall p, truthy_path (memory_file (self w)) <> Some p ->
        dict_get p (files w') = dict_get p (files w)).
Proof.
  revert w. induction calls as [|c calls IH]; intros w; [now split|].
  cbn [run]. pose proof (exec_files c w) as [Hmf Hfiles].
  destruct (exec' c w) as [r w1]. cbn [snd] in Hmf, Hfiles.
  specialize (IH w1). rewrite Hmf in IH.
  destruct (run' calls w1) as [rs w2]. cbn [snd] in IH |- *.
  destruct IH as [IHnone IHother]. split.
  - intros Hnone. rewrite Hnone in Hfiles. rewrite IHnone by assumption.
    assumption.
  - intros p Hp. rewrite IHother by assumption.
    destruct (truthy_path (memory_file (self w))) as [path|];
      [|now rewrite Hfiles].
    assert (Hne : p <> path) by congruence.
    destruct Hfiles as [-> | [[_ ->] | ->]]; [reflexivity| |].
    + now apply dict_get_del_neq.
    + now apply dict_get_set_neq.
Qed.

End WriteThrough.

(** ** The summary by time *)

Lemma count_in_eq (key : string) (summary : dict string Z) :
  count_in key summary
  = dict_set key (match dict_get key summary with
                  | Some n => n + 1
                  | None => 1
                  end) summary.
Proof.
  unfold count_in, dict_mem. destruct (dict_get key summary) eqn:Hg.
  - now rewrite Hg.
  - rewrite dict_get_set_eq. now rewrite dict_set_set.
Qed.

Lemma append_at_eq (key : string) (x : Z) (d : dict string (list Z)) :
  append_at key x d = dict_set key (lookup key d ++ [x]) d.
Proof.
  unfold append_at, dict_mem, lookup. destruct (dict_get key d) eqn:Hg.
  - now rewrite Hg.
  - rewrite dict_get_set_eq. now rewrite dict_set_set.
Qed.

Lemma dict_get_sizes (key : string) (index : dict string (list Z)) :
  dict_get key (sizes index) = option_map len (dict_get key index).
Proof.
  induction index as [|[k ids] index IH]; [reflexivity|]. cbn.
  now destruct (String.eqb key k).
Qed.

Lemma sizes_dict_set (key : string) (ids : list Z)
  (index : dict string (list Z)) :
  sizes (dict_set key ids index) = dict_set key (len ids) (sizes index).
Proof.
  induction index as [|[k l] index IH]; [reflexivity|]. cbn.
  destruct (String.eqb key k); cbn; [reflexivity|]. f_equal. apply IH.
Qed.

(** Counting one more entry under a day is recording one more id under
    it. *)
Lemma count_in_sizes (key : string) (id : Z) (index : dict string (list Z)) :
  count_in key (sizes index) = sizes (append_at key id index).
Proof.
  rewrite count_in_eq, append_at_eq, sizes_dict_set, dict_get_sizes.
  f_equal. unfold lookup. destruct (dict_get key index) as [ids|]; cbn.
  - now rewrite len_app_one.
  - reflexivity.
Qed.

Lemma total_dict_set (key : string) (v : Z) (summary : dict string Z) :
  total (dict_set key v summary)
  = total summary + v - match dict_get key summary with
                        | Some n => n
                        | None => 0
                        end.
Proof.
  unfold total. induction summary as [|[k n] summary IH]; cbn; [lia|].
  destruct (String.eqb key k); cbn; [lia|]. rewrite IH. lia.
Qed.

Lemma total_count_in (key : string) (summary : dict string Z) :
  total (count_in key summary) = total summary + 1.
Proof.
  rewrite count_in_eq, total_dict_set.
  destruct (dict_get key summary); lia.
Qed.

Lemma count_in_positive (key : string) (summary : dict string Z) :
  Forall (fun kv => 1 <= snd kv) summary ->
  Forall (fun kv => 1 <= snd kv) (count_in key summary).
Proof.
  rewrite !Forall_forall, count_in_eq. intros Hpos [k v] Hin.
  apply In_dict_set in Hin as [[-> ->]|Hin]; [|now apply Hpos].
  cbn. destruct (dict_get key summary) as [n|] eqn:Hg; [|lia].
  apply dict_get_In, Hpos in Hg. cbn in Hg. lia.
Qed.

Lemma count_in_NoDup (key : string) (summary : dict string Z) :
  NoDup (dict_keys summary) -> NoDup (dict_keys (count_in key summary)).
Proof. rewrite count_in_eq. apply dict_keys_set_NoDup. Qed.

Lemma period_key_other (period : string) (t : datetime) :
  period <> "month" -> period <> "year" ->
  period_key period t = period_key "day" t.
Proof.
  intros Hm Hy. unfold period_key.
  destruct (String.eqb_spec period "day"); [now subst|].
  destruct (String.eqb_spec period "month"); [contradiction|].
  destruct (String.eqb_spec period "year"); [contradiction|reflexivity].
Qed.

Section SummaryFacts.

Variable re_findall_capitalized : string -> list string.
Variable re_findall_phrases : string -> list string.
Variable set_iter : list string -> list string.
Variable set_intersection_iter : list Z -> list Z -> list Z.
Variable fromisoformat : string -> option datetime.
Variable strptime_Ymd : string -> option datetime.

Local Abbreviation exec' :=
  (exec re_findall_capitalized re_findall_phrases set_iter
        set_intersection_iter fromisoformat strptime_Ymd).
Local Abbreviation run' :=
  (run re_findall_capitalized re_findall_phrases set_iter
       set_intersection_iter fromisoformat strptime_Ymd).
Local Abbreviation summarize_entries' := (summarize_entries fromisoformat).
Local Abbreviation summarize_by_time' := (summarize_by_time fromisoformat).
Local Abbreviation counted' := (counted fromisoformat).
Local Abbreviation reads_back' := (reads_back fromisoformat).

Lemma summarize_entries_app (period : string) (l1 l2 : list entry)
  (summary : dict string Z) :
  summarize_entries' period (l1 ++ l2) summary
  = (m <- summarize_entries' period l1 summary ;;
     summarize_entries' period l2 m).
Proof.
  revert summary. induction l1 as [|e l1 IH]; intros summary; [reflexivity|].
  cbn [app summarize_entries].
  destruct (dict_get "timestamp" e) as [[]|]; auto.
  destruct (fromisoformat _); auto.
Qed.

Lemma summarize_entries_counts (period : string) (entries : list entry)
  (summary : dict string Z) :
  forallb timestamp_is_text entries = true ->
  NoDup (dict_keys summary) ->
  Forall (fun kv => 1 <= snd kv) summary ->
  exists m,
    summarize_entries' period entries summary = ret m
    /\ NoDup (dict_keys m)
    /\ Forall (fun kv => 1 <= snd kv) m
    /\ total m
       = total summary + Z.of_nat (List.length (filter counted' entries)).
Proof.
  revert summary.
  induction entries as [|e entries IH]; intros summary Htext Hnd Hpos.
  - exists summary. cbn. repeat split; auto. lia.
  - cbn [forallb] in Htext. apply andb_prop in Htext as [He Htext].
    cbn [summarize_entries filter]. unfold timestamp_is_text in He.
    unfold counted at 1.
    destruct (dict_get "timestamp" e) as [[]|]; try discriminate;
      [|now apply IH].
    destruct (fromisoformat _) as [t|]; [|now apply IH].
    destruct (IH (count_in (period_key period t) summary) Htext
                (count_in_NoDup _ _ Hnd) (count_in_positive _ _ Hpos))
      as (m & Hm & Hndm & Hposm & Htotal).
    exists m. repeat split; auto. rewrite Htotal, total_count_in.
    cbn [List.length]. lia.
Qed.

Lemma summarize_entries_raises (period : string) (entries : list entry)
  (summary : dict string Z) :
  forallb timestamp_is_text entries = false ->
  summarize_entries' period entries summary = raise TypeError.
Proof.
  revert summary.
  induction entries as [|e entries IH]; intros summary Htext;
    [discriminate|].
  cbn [forallb] in Htext. cbn [summarize_entries].
  unfold timestamp_is_text in Htext at 1.
  destruct (dict_get "timestamp" e) as [[]|]; cbn [andb] in Htext;
    try reflexivity; [|now apply IH].
  destruct (fromisoformat _); now apply IH.
Qed.

Lemma summarize_entries_other (period : string) (entries : list entry)
  (summary : dict string Z) :
  period <> "month" -> period <> "year" ->
  summarize_entries' period entries summary
  = summarize_entries' "day" entries summary.
Proof.
  intros Hm Hy. revert summary.
  induction entries as [|e entries IH]; intros summary; [reflexivity|].
  cbn [summarize_entries].
  destruct (dict_get "timestamp" e) as [[]|]; auto.
  destruct (fromisoformat _); auto. now rewrite period_key_other, IH.
Qed.

(** A store call at a time [t] adds an entry stamped [t] under the day of
    [t]. *)
Lemma exec_shape_timed (c : call) (w : world) :
  (call_timestamp c = None /\ is_clear_call c = false
   /\ snd (exec' c w) = w)
  \/ (c = ClearMemory
      /\ self (snd (exec' c w)) = empty_store (memory_file (self w)))
  \/ (exists t e concepts,
        call_timestamp c = Some t
        /\ dict_get "timestamp" e = Some (PStr (isoformat t))
        /\ self (snd (exec' c w))
           = with_entry (self w) e (strftime_Ymd (dt_date t)) concepts).
Proof.
  destruct c; unfold exec; cbn [snd]; try (left; now repeat split).
  - right. right. unfold store_query. cbn [snd].
    rewrite self_save_to_file. cbn [self]. unfold _index_concepts.
    eexists. eexists. eexists. split; [reflexivity|].
    split; [|reflexivity]. now destruct metadata as [[|kv md]|].
  - right. right. unfold store_experience. cbn [snd].
    rewrite self_save_to_file. cbn [self].
    eexists. eexists. eexists. split; [reflexivity|].
    split; [|reflexivity]. now destruct concepts as [[|c0 cs]|].
  - right. left. split; reflexivity.
Qed.

Lemma day_summary_kept (calls : list call) (w : world) :
  forallb reads_back' calls = true ->
  summarize_by_time' (self w) "day"
  = ret (sizes (temporal_index (self w))) ->
  summarize_by_time' (self (snd (run' calls w))) "day"
  = ret (sizes (temporal_index (self (snd (run' calls w))))).
Proof.
  revert w. induction calls as [|c calls IH]; intros w Hback Hw;
    [assumption|].
  cbn [forallb] in Hback. apply andb_prop in Hback as [Hc Hback].
  cbn [run]. pose proof (exec_shape_timed c w) as Hshape.
  destruct (exec' c w) as [r w1]. cbn [snd] in Hshape.
  assert (Hw1 : summarize_by_time' (self w1) "day"
                = ret (sizes (temporal_index (self w1)))).
  { destruct Hshape
      as [(_ & _ & ->) | [[_ ->] | (t & e & cs & Ht & He & ->)]];
      [assumption|reflexivity|].
    unfold reads_back in Hc. rewrite Ht in Hc.
    destruct (fromisoformat (isoformat t)) as [t'|] eqn:Hparse;
      [|discriminate].
    apply Z.eqb_eq in Hc.
    unfold summarize_by_time in *. cbn [with_entry storage temporal_index].
    rewrite summarize_entries_app, Hw, bind_ret.
    cbn [summarize_entries]. rewrite He, Hparse.
    unfold period_key. cbn [String.eqb Ascii.eqb Bool.eqb]. rewrite Hc.
    now rewrite (count_in_sizes _ (len (storage (self w)))). }
  specialize (IH w1 Hback Hw1). now destruct (run' calls w1).
Qed.

(** X12. After any calls on an empty store, the summary by day is the
    temporal index with each list of ids replaced by its length, days in
    the same order, when [fromisoformat] reads the timestamps that were
    written back to their day. *)
Theorem the_day_summary_is_the_size_of_the_temporal_index
  (calls : list call) (memory_file : option string) (fs : filesystem) :
  forallb reads_back' calls = true ->
  let s := self (snd (run' calls {| self := empty_store memory_file;
                                    files := fs |})) in
  summarize_by_time' s "day" = ret (sizes (temporal_index s)).
Proof.
  intros Hback. now apply day_summary_kept.
Qed.

(** X13. The summary counts the entries whose timestamp parses: its
    periods are distinct, each has a count of at least one, and the counts
    add up to the number of these entries. A timestamp that is no string
    raises [TypeError], and a period other than month and year is
    summarized by day. *)
Theorem the_summary_counts_the_entries_that_parse (s : SullySearchMemory)
  (period : string) :
  (forallb timestamp_is_text (storage s) = true ->
   exists m,
     summarize_by_time' s period = ret m
     /\ NoDup (dict_keys m)
     /\ Forall (fun kv => 1 <= snd kv) m
     /\ total m = Z.of_nat (List.length (filter counted' (storage s))))
  /\ (forallb timestamp_is_text (storage s) = false ->
      summarize_by_time' s period = raise TypeError)
  /\ (period <> "month" -> period <> "year" ->
      summarize_by_time' s period = summarize_by_time' s "day").
Proof.
  split; [|split].
  - intros Htext.
    destruct (summarize_entries_counts period (storage s) [] Htext)
      as (m & Hm & Hnd & Hpos & Htotal); [constructor|constructor|].
    exists m. repeat split; auto.
  - apply summarize_entries_raises.
  - apply summarize_entries_other.
Qed.

End SummaryFacts.

(** ** The list queries under any limit *)

Lemma py_slice_to_cut {A} (l : list A) (n : Z) :
  n <> 0 -> py_slice_to l n = cut (Some n) l.
Proof.
  intros Hn. unfold py_slice_to, cut, len.
  destruct (Z.eqb_spec n 0); [contradiction|].
  destruct (Z.ltb_spec n 0), (Z.ltb_spec 0 n); try lia; [|reflexivity].
  f_equal. lia.
Qed.

Lemma cut_map {A B} (f : A -> B) (limit : option Z) (l : list A) :
  cut limit (map f l) = map f (cut limit l).
Proof.
  unfold cut. destruct limit as [n|]; [|reflexivity].
  destruct (n =? 0); [reflexivity|].
  rewrite length_map. destruct (0 <? n); apply firstn_map.
Qed.

Lemma cut_incl {A} (limit : option Z) (l : list A) : incl (cut limit l) l.
Proof.
  assert (Hfirst : forall k, incl (firstn k l) l).
  { intros k x Hx. rewrite <- (firstn_skipn k l). apply in_or_app.
    now left. }
  unfold cut. destruct limit as [n|]; [|apply incl_refl].
  destruct (n =? 0); [apply incl_refl|]. destruct (0 <? n); apply Hfirst.
Qed.

Lemma Forall_cut {A} (P : A -> Prop) (limit : option Z) (l : list A) :
  Forall P l -> Forall P (cut limit l).
Proof.
  rewrite !Forall_forall. intros Hl x Hx. apply Hl.
  now apply (cut_incl limit).
Qed.

Lemma limited_is_cut {A} (limit : option Z) (l : list A) :
  match limit with
  | Some n => if n =? 0 then l else py_slice_to l n
  | None => l
  end = cut limit l.
Proof.
  destruct limit as [n|]; [|reflexivity].
  destruct (Z.eqb_spec n 0) as [->|Hn]; [reflexivity|].
  now apply py_slice_to_cut.
Qed.

(** What the loop over the days of a window returns was collected from
    the buckets of the index. *)
Lemma window_loop_collects (P : list Z -> Prop)
  (index : dict string (list Z)) (end_date : Z) :
  (forall wm day, P wm -> P (wm ++ bucket index day)) ->
  forall current_date window_memories out,
    P window_memories ->
    window_loop index end_date current_date window_memories = ret out ->
    P out.
Proof.
  intros Hstep.
  assert (Hgen : forall n current_date window_memories out,
            (Z.to_nat (end_date + 1 - current_date) <= n)%nat ->
            P window_memories ->
            window_loop index end_date current_date window_memories
            = ret out ->
            P out).
  { induction n as [|n IH]; intros current wm out Hn Hwm;
      rewrite window_loop_step;
      destruct (Z.leb_spec current end_date); try lia;
      try (intros [= <-]; assumption).
    unfold date_add.
    destruct ((1 <=? current + 1) && (current + 1 <=? MAXORDINAL));
      [|discriminate].
    cbn [ret]. apply IH; [lia|]. now apply Hstep. }
  intros current wm out. now apply (Hgen _ _ _ _ (le_n _)).
Qed.

Lemma window_loop_fails_with_overflow (index : dict string (list Z))
  (end_date : Z) :
  forall current_date window_memories e,
    window_loop index end_date current_date window_memories = raise e ->
    e = OverflowError.
Proof.
  assert (Hgen : forall n current_date window_memories e,
            (Z.to_nat (end_date + 1 - current_date) <= n)%nat ->
            window_loop index end_date current_date window_memories
            = raise e ->
            e = OverflowError).
  { induction n as [|n IH]; intros current wm e Hn;
      rewrite window_loop_step;
      destruct (Z.leb_spec current end_date); try lia; try discriminate.
    unfold date_add.
    destruct ((1 <=? current + 1) && (current + 1 <=? MAXORDINAL)).
    - cbn [ret]. apply IH. lia.
    - now intros [= <-]. }
  intros current wm e. now apply (Hgen _ _ _ _ (le_n _)).
Qed.

Lemma bucket_listed (index : dict string (list Z)) (day : Z) :
  incl (bucket index day) (List.concat (map snd index)).
Proof.
  intros i Hi. unfold bucket in Hi.
  destruct (lookup_In (strftime_Ymd day) index) as [Hnil|Hin].
  - rewrite Hnil in Hi. destruct Hi.
  - apply in_concat. exists (lookup (strftime_Ymd day) index).
    split; [|assumption].
    change (lookup (strftime_Ymd day) index)
      with (snd (strftime_Ymd day, lookup (strftime_Ymd day) index)).
    now apply in_map.
Qed.

Lemma index_ok_listed (store : list entry) (index : dict string (list Z)) :
  index_ok store index ->
  Forall (valid_id store) (List.concat (map snd index)).
Proof.
  intros Hok. apply Forall_forall. intros i Hi.
  apply in_concat in Hi as [ids [Hids Hi]].
  apply in_map_iff in Hids as [[key ids'] [<- Hin]].
  apply Hok in Hin. rewrite Forall_forall in Hin. now apply Hin.
Qed.

Lemma get_associated_memories_cut (s : SullySearchMemory) (concept : string)
  (limit : option Z) :
  store_ok s ->
  get_associated_memories s concept limit
  = ret (map (entry_at (storage s))
             (cut limit (lookup (lower concept) (associations s)))).
Proof.
  intros [_ Ha _]. unfold get_associated_memories, lookup.
  destruct (dict_get (lower concept) (associations s)) as [ids|] eqn:Hg.
  - rewrite limited_is_cut. apply materialize_valid, Forall_cut.
    apply (Ha (lower concept)). now apply dict_get_In.
  - assert (Hnil : cut limit (@nil Z) = []).
    { apply incl_l_nil. apply cut_incl. }
    now rewrite Hnil.
Qed.

Section ListQueryFacts.

Variable fromisoformat : string -> option datetime.
Variable strptime_Ymd : string -> option datetime.

Local Abbreviation get_temporal_context' :=
  (get_temporal_context fromisoformat strptime_Ymd).

(** The ids of a temporal context do not depend on the limit: the day
    arithmetic fails or gives ids of the temporal index, and the limit
    cuts them. *)
Lemma get_temporal_context_ids (s : SullySearchMemory)
  (anchor : timestamp_or_date) (window_days : Z) :
  store_ok s ->
  exists r : outcome (list Z),
    (forall limit,
       get_temporal_context' s anchor window_days limit
       = (ids <- r ;; ret (map (entry_at (storage s)) (cut limit ids))))
    /\ (forall e, r = raise e -> e = OverflowError)
    /\ (forall ids, r = ret ids ->
          incl ids (List.concat (map snd (temporal_index s)))).
Proof.
  intros [_ _ Ht]. unfold get_temporal_context.
  assert (Hnil : forall limit, cut limit (@nil Z) = []).
  { intros limit. apply incl_l_nil. apply cut_incl. }
  assert (Hover : exists r : outcome (list Z),
            (forall limit,
               @raise (list entry) OverflowError
               = (ids <- r ;;
                  ret (map (entry_at (storage s)) (cut limit ids))))
            /\ (forall e, r = raise e -> e = OverflowError)
            /\ (forall ids, r = ret ids ->
                  incl ids (List.concat (map snd (temporal_index s))))).
  { exists (raise OverflowError).
    split; [reflexivity|split; [now intros e [= <-]|discriminate]]. }
  match goal with
  | |- context [match ?target with Some _ => _ | None => ret [] end] =>
      destruct target as [target_date|]
  end.
  2:{ exists (ret []). split; [|split]; [|discriminate|].
      - intros limit. rewrite bind_ret. now rewrite Hnil.
      - intros ids [= <-]. apply incl_nil_l. }
  unfold timedelta_days.
  destruct (Z.abs window_days <=? 999999999); [|exact Hover].
  cbn [bind ret]. unfold date_add at 1.
  destruct ((1 <=? target_date + - window_days)
            && (target_date + - window_days <=? MAXORDINAL));
    [|exact Hover].
  cbn [bind ret]. unfold date_add at 1.
  destruct ((1 <=? target_date + window_days)
            && (target_date + window_days <=? MAXORDINAL));
    [|exact Hover].
  cbn [bind ret].
  destruct (window_loop (temporal_index s) (target_date + window_days)
              (target_date + - window_days) []) as [e|ids] eqn:Hloop.
  - apply window_loop_fails_with_overflow in Hloop. subst e. exact Hover.
  - assert (Hincl : incl ids (List.concat (map snd (temporal_index s)))).
    { apply (window_loop_collects
               (fun l => incl l (List.concat (map snd (temporal_index s))))
               (temporal_index s) (target_date + window_days)) in Hloop;
        [assumption| |easy].
      intros wm day Hwm. apply incl_app; [assumption|].
      apply bucket_listed. }
    assert (Hvalid : Forall (valid_id (storage s)) ids).
    { apply Forall_forall. intros i Hi. apply Hincl in Hi.
      pose proof (index_ok_listed _ _ Ht) as Hall.
      rewrite Forall_forall in Hall. now apply Hall. }
    exists (ret ids). split; [|split]; [|discriminate|].
    + intros limit. cbn [bind ret]. rewrite limited_is_cut.
      apply materialize_valid. now apply Forall_cut.
    + now intros ids' [= <-].
Qed.

(** X14. On a well-formed store the list queries return, under a limit,
    what they return without one, cut: whole for the limit zero, the
    first [n] entries for a positive limit [n], and all but the last
    [-n] entries for a negative one. [get_associated_memories] always
    returns, and [get_temporal_context] fails under a limit as it does
    without. *)
Theorem a_limit_cuts_the_list_of_a_query (s : SullySearchMemory)
  (concept : string) (anchor : timestamp_or_date) (window_days : Z)
  (limit : option Z) :
  store_ok s ->
  (exists es,
     get_associated_memories s concept None = ret es
     /\ get_associated_memories s concept limit = ret (cut limit es))
  /\ get_temporal_context' s anchor window_days limit
     = (es <- get_temporal_context' s anchor window_days None ;;
        ret (cut limit es)).
Proof.
  intros Hok. split.
  - eexists. split; [now apply get_associated_memories_all|].
    rewrite cut_map. now apply get_associated_memories_cut.
  - destruct (get_temporal_context_ids s anchor window_days Hok)
      as (r & Hr & _ & _).
    rewrite (Hr limit), (Hr None). destruct r as [e|ids]; [reflexivity|].
    cbn [bind ret cut]. now rewrite cut_map.
Qed.

(** X15. On a well-formed store [get_temporal_context] raises nothing but
    [OverflowError], which is the day arithmetic leaving the calendar,
    and never [IndexError]; the entries it returns are entries of the
    temporal index. A string that neither parser reads gives the empty
    list, and so does a negative window inside the calendar. *)
Theorem temporal_context_fails_only_on_the_calendar (s : SullySearchMemory)
  (anchor : timestamp_or_date) (window_days : Z) (limit : option Z) :
  store_ok s ->
  (forall e,
     get_temporal_context' s anchor window_days limit = raise e ->
     e = OverflowError)
  /\ (forall es,
        get_temporal_context' s anchor window_days limit = ret es ->
        exists ids,
          es = map (entry_at (storage s)) ids
          /\ incl ids (List.concat (map snd (temporal_index s))))
  /\ (forall text,
        anchor = OfStr text ->
        fromisoformat text = None -> strptime_Ymd text = None ->
        get_temporal_context' s anchor window_days limit = ret [])
  /\ (forall t,
        anchored_at fromisoformat strptime_Ymd anchor t ->
        window_days < 0 ->
        1 <= dt_date t + window_days ->
        dt_date t - window_days <= MAXORDINAL ->
        get_temporal_context' s anchor window_days limit = ret []).
Proof.
  intros Hok.
  destruct (get_temporal_context_ids s anchor window_days Hok)
    as (r & Hr & Hfail & Hids).
  split; [|split; [|split]].
  - intros e. rewrite (Hr limit). destruct r as [e'|ids]; [|discriminate].
    intros [= <-]. now apply Hfail.
  - intros es. rewrite (Hr limit). destruct r as [e'|ids]; [discriminate|].
    intros [= <-]. exists (cut limit ids). split; [reflexivity|].
    intros i Hi. apply (Hids ids eq_refl). now apply (cut_incl limit).
  - intros text -> Hiso Hymd. unfold get_temporal_context.
    now rewrite Hiso, Hymd.
  - intros t Hanchor Hneg Hlo Hhi. unfold get_temporal_context.
    assert (Htarget :
      match anchor with
      | OfStr str =>
          match fromisoformat str with
          | Some dt => Some (dt_date dt)
          | None => match strptime_Ymd str with
                    | Some dt => Some (dt_date dt)
                    | None => None
                    end
          end
      | OfDatetime dt => Some (dt_date dt)
      end = Some (dt_date t)).
    { destruct anchor as [str|dt]; cbn in Hanchor.
      - destruct Hanchor as [-> | [-> ->]]; reflexivity.
      - now subst. }
    rewrite Htarget. unfold timedelta_days.
    assert (Hmax : MAXORDINAL = 3652059) by reflexivity.
    destruct (Z.leb_spec (Z.abs window_days) 999999999); [|lia].
    rewrite !bind_ret.
    rewrite (date_add_in_range (dt_date t) (- window_days)) by lia.
    rewrite !bind_ret.
    rewrite (date_add_in_range (dt_date t) window_days) by lia.
    rewrite !bind_ret, window_loop_step.
    destruct (Z.leb_spec (dt_date t + - window_days)
                (dt_date t + window_days)); [lia|].
    rewrite bind_ret.
    assert (Hnil : cut limit (@nil Z) = []).
    { apply incl_l_nil. apply cut_incl. }
    rewrite limited_is_cut, Hnil. reflexivity.
Qed.

End ListQueryFacts.

(** ** After a clear *)

Section ClearFacts.

Variable re_findall_capitalized : string -> list string.
Variable re_findall_phrases : string -> list string.
Variable set_iter : list string -> list string.
Variable set_intersection_iter : list Z -> list Z -> list Z.
Variable fromisoformat : string -> option datetime.
Variable strptime_Ymd : string -> option datetime.

Local Abbreviation store_query' :=
  (store_query re_findall_capitalized re_findall_phrases set_iter).
Local Abbreviation store_experience' :=
  (store_experience re_findall_capitalized re_findall_phrases set_iter).
Local Abbreviation get_temporal_context' :=
  (get_temporal_context fromisoformat strptime_Ymd).
Local Abbreviation find_connections' :=
  (find_connections set_intersection_iter).
Local Abbreviation summarize_by_time' := (summarize_by_time fromisoformat).

(** X16. After [clear_memory] the store is empty and every query returns
    nothing, whatever its arguments (a temporal context may still leave
    the calendar); the memory file is the one it was, and the next entry
    stored gets the id 0. *)
Theorem after_a_clear_every_query_is_empty (w : world) :
  let w' := snd (clear_memory w) in
  let s := self w' in
  __len__ s = 0
  /\ export_memory s = []
  /\ memory_file s = memory_file (self w)
  /\ (forall keyword case_sensitive limit include_associations,
        search s keyword case_sensitive limit include_associations = ret [])
  /\ (forall concept limit, get_associated_memories s concept limit = ret [])
  /\ (forall concept1 concept2,
        find_connections' s concept1 concept2 = ret [])
  /\ (forall anchor window_days limit,
        get_temporal_context' s anchor window_days limit = ret []
        \/ get_temporal_context' s anchor window_days limit
           = raise OverflowError)
  /\ (forall period, summarize_by_time' s period = ret [])
  /\ (forall t query result metadata,
        fst (store_query' t query result metadata w') = 0)
  /\ (forall t content source concepts importance,
        fst (store_experience' t content source concepts importance w') = 0).
Proof.
  intros w' s. repeat split; try reflexivity.
  - intros keyword cs limit ia. unfold search. cbn.
    destruct (negb ia || limit_reached limit 0); [reflexivity|].
    now destruct (below_limit limit 0).
  - intros anchor window_days limit.
    assert (Hok : store_ok s)
      by apply (inv_ok _ (store_inv_empty (memory_file (self w)))).
    destruct (get_temporal_context_ids fromisoformat strptime_Ymd s anchor
                window_days Hok) as (r & Hr & Hfail & Hids).
    rewrite (Hr limit). destruct r as [e|ids].
    + right. now rewrite (Hfail e eq_refl).
    + left. specialize (Hids ids eq_refl). apply incl_l_nil in Hids.
      subst ids. cbn [bind ret].
      assert (Hnil : cut limit (@nil Z) = []).
      { apply incl_l_nil. apply cut_incl. }
      now rewrite Hnil.
Qed.

End ClearFacts.

(** ** Connections and concepts *)

Section ConnectionOrderFacts.

Variable set_intersection_iter : list Z -> list Z -> list Z.
Hypothesis set_intersection_iter_spec :
  forall l1 l2,
    NoDup (set_intersection_iter l1 l2)
    /\ (forall i, In i (set_intersection_iter l1 l2) <-> In i l1 /\ In i l2).

Local Abbreviation find_connections' :=
  (find_connections set_intersection_iter).

Lemma find_connections_ids (s : SullySearchMemory)
  (concept1 concept2 : string) :
  store_ok s ->
  find_connections' s concept1 concept2
  = ret (map (entry_at (storage s))
             (set_intersection_iter
                (lookup (lower concept1) (associations s))
                (lookup (lower concept2) (associations s)))).
Proof.
  intros [_ Ha _]. unfold find_connections, lookup.
  assert (Hnone : forall l1 l2,
            l1 = [] \/ l2 = [] -> set_intersection_iter l1 l2 = []).
  { intros l1 l2 Hnil.
    destruct (set_intersection_iter l1 l2) as [|i l] eqn:Hl; [reflexivity|].
    exfalso.
    assert (Hi : In i (set_intersection_iter l1 l2))
      by (rewrite Hl; now left).
    apply set_intersection_iter_spec in Hi as [Hi1 Hi2].
    destruct Hnil; subst; contradiction. }
  destruct (dict_get (lower concept1) (associations s)) as [l1|] eqn:Hg1;
    [|rewrite (Hnone [] _) by auto; reflexivity].
  destruct (dict_get (lower concept2) (associations s)) as [l2|] eqn:Hg2;
    [|rewrite (Hnone _ []) by auto; reflexivity].
  apply materialize_valid. apply Forall_forall. intros i Hi.
  apply set_intersection_iter_spec in Hi as [Hi _].
  apply dict_get_In, Ha in Hg1. rewrite Forall_forall in Hg1.
  now apply Hg1.
Qed.

(** X17. The order of the two concepts does not matter to
    [find_connections] beyond the order of the result: both orders give
    the same entries, each as often. The connections of a concept with
    itself are the entries associated with it, and with a concept that
    differs from it only by case as well. *)
Theorem connections_are_symmetric (s : SullySearchMemory)
  (concept1 concept2 : string) :
  store_inv s ->
  exists es es',
    find_connections' s concept1 concept2 = ret es
    /\ find_connections' s concept2 concept1 = ret es'
    /\ Permutation es es'
    /\ (lower concept1 = lower concept2 ->
        exists all,
          get_associated_memories s concept1 None = ret all
          /\ Permutation es all).
Proof.
  intros Hinv. pose proof (inv_ok _ Hinv) as Hok.
  eexists. eexists.
  split; [now apply find_connections_ids|].
  split; [now apply find_connections_ids|].
  set (ids1 := lookup (lower concept1) (associations s)).
  set (ids2 := lookup (lower concept2) (associations s)).
  destruct (set_intersection_iter_spec ids1 ids2) as [Hnd Hin].
  destruct (set_intersection_iter_spec ids2 ids1) as [Hnd' Hin'].
  split.
  - apply Permutation_map. apply NoDup_Permutation; auto.
    intros i. rewrite Hin, Hin'. tauto.
  - intros Hsame. eexists.
    split; [now apply get_associated_memories_all|].
    apply Permutation_map. fold ids1.
    assert (Hids : ids2 = ids1) by (unfold ids1, ids2; now rewrite Hsame).
    apply NoDup_Permutation; auto.
    + destruct (lookup_In (lower concept1) (associations s)) as [Hnil|Hl].
      * fold ids1 in Hnil. rewrite Hnil. constructor.
      * now apply (inv_concept_ids _ Hinv) in Hl.
    + intros i. rewrite Hin, Hids. tauto.
Qed.

End ConnectionOrderFacts.

Lemma keys_listing_incl (id : Z) (index : dict string (list Z)) :
  incl (keys_listing id index) (dict_keys index).
Proof.
  unfold keys_listing, dict_keys. intros k Hk.
  apply in_map_iff in Hk as [kv [<- Hkv]]. apply filter_In in Hkv as [Hkv _].
  now apply in_map.
Qed.

Lemma keys_listing_NoDup (id : Z) (index : dict string (list Z)) :
  NoDup (dict_keys index) -> NoDup (keys_listing id index).
Proof.
  unfold keys_listing, dict_keys.
  induction index as [|[k ids] index IH]; [constructor|].
  cbn [map filter fst snd]. intros Hnd.
  inversion Hnd as [|? ? Hnotin Hrest]; subst.
  destruct (int_in id ids); [|auto]. cbn [map fst]. constructor; [|auto].
  intros Hin. apply Hnotin. now apply (keys_listing_incl id index).
Qed.

(** The new id is listed under concepts of the call only. *)
Lemma keys_listing_new (s : SullySearchMemory) (e : entry) (day : string)
  (concepts : list string) :
  typed_entry e ->
  store_inv s ->
  (List.length
     (keys_listing (len (storage s))
        (associations (with_entry s e day concepts)))
   <= List.length concepts)%nat.
Proof.
  intros He Hinv.
  pose proof (with_entry_inv s e day concepts He Hinv) as Hinv'.
  rewrite <- (length_map lower concepts).
  apply NoDup_incl_length.
  - apply keys_listing_NoDup. apply (inv_concept_keys _ Hinv').
  - intros key Hkey. unfold keys_listing in Hkey.
    apply in_map_iff in Hkey as [[k ids] [<- Hkv]].
    apply filter_In in Hkv as [Hin Hid]. cbn [fst snd] in *.
    apply int_in_In in Hid.
    apply (In_dict_get _ _ _ (inv_concept_keys _ Hinv')) in Hin.
    assert (Hl : lookup k (associations (with_entry s e day concepts)) = ids)
      by (unfold lookup; now rewrite Hin).
    cbn [with_entry associations] in Hl.
    rewrite lookup_add_associations in Hl.
    destruct (existsb (fun c => String.eqb k (lower c)) concepts) eqn:Hex.
    + apply existsb_exists in Hex as [c [Hc Heq]].
      apply String.eqb_eq in Heq. subst k. now apply in_map.
    + cbn [andb] in Hl. exfalso. subst ids.
      pose proof (new_id_not_listed s k _
                    (ok_associations _ (inv_ok _ Hinv))) as Hnot.
      apply int_in_false in Hnot. contradiction.
Qed.

Section ConceptBoundFacts.

Variable re_findall_capitalized : string -> list string.
Variable re_findall_phrases : string -> list string.
Variable set_iter : list string -> list string.

(** A set has no more members than the list it is made of. *)
Hypothesis set_iter_length :
  forall l, (List.length (set_iter l) <= List.length l)%nat.

Local Abbreviation _extract_key_concepts' :=
  (_extract_key_concepts re_findall_capitalized re_findall_phrases set_iter).
Local Abbreviation store_query' :=
  (store_query re_findall_capitalized re_findall_phrases set_iter).
Local Abbreviation store_experience' :=
  (store_experience re_findall_capitalized re_findall_phrases set_iter).

Lemma extract_at_most_ten (text : string) :
  (List.length (_extract_key_concepts' text) <= 10)%nat.
Proof. unfold _extract_key_concepts. apply firstn_le_length. Qed.

(** X18. At most ten concepts are extracted from a text, so that a store
    call lists the new entry under a bounded number of concepts: at most
    ten for an experience stored without concepts, at most twenty for a
    query (ten from the query text and ten from the result), and no more
    than were given with an experience. *)
Theorem a_store_call_indexes_a_bounded_number_of_concepts (t : datetime)
  (w : world) :
  store_inv (self w) ->
  let listed (stored : Z * world) :=
    List.length (keys_listing (fst stored)
                   (associations (self (snd stored)))) in
  (forall text, (List.length (_extract_key_concepts' text) <= 10)%nat)
  /\ (forall content source importance,
        (listed (store_experience' t content source None importance w)
         <= 10)%nat)
  /\ (forall content source concepts importance,
        concepts <> [] ->
        (listed (store_experience' t content source (Some concepts)
                                   importance w)
         <= List.length concepts)%nat)
  /\ (forall query result metadata,
        (listed (store_query' t query result metadata w) <= 20)%nat).
Proof.
  intros Hinv listed. split; [exact extract_at_most_ten|].
  assert (Htyped : forall (e : entry) text,
            (dict_get "query" e = Some (PStr text)
             /\ dict_get "content" e = None)
            \/ (dict_get "query" e = None
                /\ dict_get "content" e = Some (PStr text)) ->
            typed_entry e).
  { intros e text [[Hq Hc]|[Hq Hc]]; split; intros v Hv;
      rewrite ?Hq, ?Hc in Hv; try discriminate; injection Hv as <-; eauto. }
  split; [|split].
  - intros content source importance. unfold listed, store_experience.
    cbn [fst snd]. rewrite self_save_to_file. cbn [self].
    etransitivity; [|apply (extract_at_most_ten content)].
    apply (keys_listing_new (self w) _ (strftime_Ymd (dt_date t))).
    + apply (Htyped _ content). now right.
    + assumption.
  - intros content source concepts importance Hne.
    destruct concepts as [|c cs]; [contradiction|].
    unfold listed, store_experience. cbn [fst snd].
    rewrite self_save_to_file. cbn [self].
    apply (keys_listing_new (self w) _ (strftime_Ymd (dt_date t))
             (c :: cs)).
    + apply (Htyped _ content). now right.
    + assumption.
  - intros query result metadata. unfold listed, store_query.
    cbn [fst snd]. rewrite self_save_to_file. cbn [self].
    unfold _index_concepts.
    etransitivity;
      [apply (keys_listing_new (self w) _ (strftime_Ymd (dt_date t)))|].
    + apply (Htyped _ query). left.
      now destruct metadata as [[|kv md]|].
    + assumption.
    + etransitivity; [apply set_iter_length|]. rewrite length_app.
      pose proof (extract_at_most_ten query) as Hq.
      assert (Hr : (List.length
                      match result with
                      | PStr s => _extract_key_concepts' s
                      | PDict d =>
                          match dict_get "response" d with
                          | Some (PStr r) => _extract_key_concepts' r
                          | _ => []
                          end
                      | _ => []
                      end <= 10)%nat).
      { destruct result; cbn; try lia; try apply extract_at_most_ten.
        destruct (dict_get "response" _) as [[]|]; cbn; try lia.
        apply extract_at_most_ten. }
      lia.
Qed.

End ConceptBoundFacts.

(** ** The further statements at concrete inputs *)

Lemma gravity_store_inv : store_inv gravity_store.
Proof.
  rewrite <- gravity_store_reached. apply run_inv, store_inv_empty.
Qed.

Lemma connections_store_inv : store_inv connections_store.
Proof. apply run_inv, store_inv_empty. Qed.

Lemma first_seen_length (seen l : list string) :
  (List.length (first_seen seen l) <= List.length l)%nat.
Proof.
  revert seen. induction l as [|x l IH]; intros seen; [apply le_n|].
  cbn [first_seen List.length].
  destruct (existsb (String.eqb x) seen).
  - apply Nat.le_le_succ_r, IH.
  - cbn [List.length]. apply le_n_S, IH.
Qed.

Lemma without_clear_nothing_is_removed_witness :
  forallb (fun c => negb (is_clear_call c)) gravity_calls = true
  /\ exists es,
       storage (self (snd (run findall_capitalized findall_phrases
                               insertion_ordered_set
                               insertion_ordered_intersection
                               parse_Ymd parse_Ymd gravity_calls
                               fresh_world)))
       = storage (self fresh_world) ++ es.
Proof.
  split; [reflexivity|].
  pose proof (without_clear_nothing_is_removed
                findall_capitalized findall_phrases insertion_ordered_set
                insertion_ordered_intersection parse_Ymd parse_Ymd
                gravity_calls fresh_world eq_refl) as H.
  cbv zeta in H. destruct H as [H _]. exact H.
Defined.

Lemma concept_keys_are_lower_case_witness :
  dict_get "gravity" (associations gravity_store) = Some [0; 1]
  /\ lower "gravity" = "gravity"
  /\ [0; 1] <> []
  /\ (forall concept limit, lower concept = "gravity" ->
        get_associated_memories gravity_store concept limit
        = get_associated_memories gravity_store "gravity" limit).
Proof.
  split; [reflexivity|].
  pose proof (concept_keys_are_lower_case
                findall_capitalized findall_phrases insertion_ordered_set
                insertion_ordered_intersection parse_Ymd parse_Ymd
                gravity_calls None [] "gravity" [0; 1]) as H.
  cbv zeta in H. change (self fresh_world) with (empty_store None) in H.
  apply H. vm_compute. reflexivity.
Defined.

Lemma queries_ignore_the_case_of_the_keyword_witness :
  lower "Gravity" = lower "GRAVITY"
  /\ search gravity_store "Gravity" false None true
     = search gravity_store "GRAVITY" false None true.
Proof.
  split; [reflexivity|].
  destruct (queries_ignore_the_case_of_the_keyword "Gravity" "GRAVITY"
              eq_refl) as [H _].
  apply H.
Defined.

Lemma search_returns_a_mapping_of_stored_entries_witness :
  store_ok gravity_store
  /\ exists m,
       search gravity_store "gravity" true (Some (-1)) true = ret m
       /\ NoDup (dict_keys m).
Proof.
  split; [exact gravity_store_ok|].
  destruct (search_returns_a_mapping_of_stored_entries gravity_store
              "gravity" true (Some (-1)) true gravity_store_ok)
    as (m & Hm & Hnd & _).
  exists m. split; assumption.
Defined.

Lemma a_limit_cuts_and_associations_add_witness :
  store_ok gravity_store
  /\ 0 < 1
  /\ exists all,
       search gravity_store "gravity" false None true = ret all
       /\ search gravity_store "gravity" false (Some 1) true
          = ret (firstn (Z.to_nat 1) all).
Proof.
  split; [exact gravity_store_ok|]. split; [reflexivity|].
  destruct (a_limit_cuts_and_associations_add gravity_store "gravity" false
              1 gravity_store_ok eq_refl) as [H _].
  apply H.
Defined.

Lemma search_finds_the_associated_entries_witness :
  store_ok gravity_store
  /\ exists m,
       search gravity_store "Gravity" true None true = ret m
       /\ (forall i, In i (lookup (lower "Gravity")
                                  (associations gravity_store)) ->
             In (i, entry_at (storage gravity_store) i) m).
Proof.
  split; [exact gravity_store_ok|].
  destruct (search_finds_the_associated_entries gravity_store "Gravity"
              true gravity_store_ok) as (m & Hm & Hin & _).
  exists m. split; assumption.
Defined.

Lemma a_stored_experience_is_found_witness :
  store_inv gravity_store
  /\ exists e,
       py_index
         (storage (self (snd (store_experience
                                findall_capitalized findall_phrases
                                insertion_ordered_set a_timestamp
                                "Apples fall" "orchard"
                                (Some ["Gravity"; "fruit"]) 0.5%float
                                {| self := gravity_store; files := [] |}))))
         2
       = ret e
       /\ dict_get "content" e = Some (PStr "Apples fall").
Proof.
  split; [exact gravity_store_inv|].
  destruct (a_stored_experience_is_found
              findall_capitalized findall_phrases insertion_ordered_set
              parse_Ymd parse_Ymd a_timestamp "Apples fall" "orchard"
              "Gravity" ["fruit"] 0.5%float
              {| self := gravity_store; files := [] |} gravity_store_inv)
    as (e & Hid & Hcontent & _).
  exists e. split; assumption.
Defined.

Lemma a_stored_query_is_found_witness :
  store_inv gravity_store
  /\ exists e,
       py_index
         (storage (self (snd (store_query
                                findall_capitalized findall_phrases
                                insertion_ordered_set a_timestamp
                                "Why do apples fall?" (PStr "Gravity.")
                                None
                                {| self := gravity_store; files := [] |}))))
         2
       = ret e
       /\ dict_get "query" e = Some (PStr "Why do apples fall?").
Proof.
  split; [exact gravity_store_inv|].
  destruct (a_stored_query_is_found
              findall_capitalized findall_phrases insertion_ordered_set
              parse_Ymd parse_Ymd a_timestamp "Why do apples fall?"
              (PStr "Gravity.") None
              {| self := gravity_store; files := [] |} gravity_store_inv)
    as (e & Hid & Hquery & _).
  exists e. split; assumption.
Defined.

Lemma a_new_instance_holds_what_was_stored_witness :
  truthy_path (Some "memory.json") = Some "memory.json"
  /\ NoDup (dict_keys (@nil (string * document)))
  /\ __init__ (Some "memory.json")
       (files (snd (run findall_capitalized findall_phrases
                        insertion_ordered_set insertion_ordered_intersection
                        parse_Ymd parse_Ymd gravity_calls
                        (__init__ (Some "memory.json") []))))
     = snd (run findall_capitalized findall_phrases
                insertion_ordered_set insertion_ordered_intersection
                parse_Ymd parse_Ymd gravity_calls
                (__init__ (Some "memory.json") [])).
Proof.
  split; [reflexivity|]. split; [constructor|].
  exact (a_new_instance_holds_what_was_stored
           findall_capitalized findall_phrases insertion_ordered_set
           insertion_ordered_intersection parse_Ymd parse_Ymd
           gravity_calls (Some "memory.json") "memory.json" []
           eq_refl (NoDup_nil _)).
Defined.

Lemma the_day_summary_is_the_size_of_the_temporal_index_witness :
  forallb (reads_back parse_isoformat) gravity_calls = true
  /\ summarize_by_time parse_isoformat
       (self (snd (run findall_capitalized findall_phrases
                       insertion_ordered_set insertion_ordered_intersection
                       parse_isoformat parse_Ymd gravity_calls fresh_world)))
       "day"
     = ret [("2024-01-02", 2)].
Proof.
  split; [vm_compute; reflexivity|].
  exact (the_day_summary_is_the_size_of_the_temporal_index
           findall_capitalized findall_phrases insertion_ordered_set
           insertion_ordered_intersection parse_isoformat parse_Ymd
           gravity_calls None [] eq_refl).
Defined.

Lemma a_limit_cuts_the_list_of_a_query_witness :
  store_ok gravity_store
  /\ exists es,
       get_associated_memories gravity_store "gravity" None = ret es
       /\ get_associated_memories gravity_store "gravity" (Some (-1))
          = ret (cut (Some (-1)) es).
Proof.
  split; [exact gravity_store_ok|].
  destruct (a_limit_cuts_the_list_of_a_query parse_Ymd parse_Ymd
              gravity_store "gravity" (OfDatetime a_timestamp) 0
              (Some (-1)) gravity_store_ok) as [H _].
  exact H.
Defined.

Lemma temporal_context_fails_only_on_the_calendar_witness :
  store_ok gravity_store
  /\ get_temporal_context parse_Ymd parse_Ymd gravity_store
       (OfDatetime a_timestamp) (-1) None
     = ret [].
Proof.
  split; [exact gravity_store_ok|].
  destruct (temporal_context_fails_only_on_the_calendar parse_Ymd parse_Ymd
              gravity_store (OfDatetime a_timestamp) (-1) None
              gravity_store_ok) as (_ & _ & _ & H).
  apply (H a_timestamp); [reflexivity|reflexivity| |]; vm_compute;
    discriminate.
Defined.

Lemma connections_are_symmetric_witness :
  (forall l1 l2,
     NoDup (insertion_ordered_intersection l1 l2)
     /\ (forall i, In i (insertion_ordered_intersection l1 l2)
                   <-> In i l1 /\ In i l2))
  /\ store_inv connections_store
  /\ exists es es',
       find_connections insertion_ordered_intersection connections_store
                        "a" "b" = ret es
       /\ find_connections insertion_ordered_intersection connections_store
                           "b" "a" = ret es'
       /\ Permutation es es'.
Proof.
  split; [exact insertion_ordered_intersection_spec|].
  split; [exact connections_store_inv|].
  destruct (connections_are_symmetric insertion_ordered_intersection
              insertion_ordered_intersection_spec connections_store
              "a" "b" connections_store_inv)
    as (es & es' & H1 & H2 & Hperm & _).
  exists es, es'. repeat split; assumption.
Defined.

Lemma a_store_call_indexes_a_bounded_number_of_concepts_witness :
  (forall l,
     (List.length (insertion_ordered_set l) <= List.length l)%nat)
  /\ store_inv gravity_store
  /\ (List.length
        (keys_listing 2
           (associations
              (self (snd (store_query
                            findall_capitalized findall_phrases
                            insertion_ordered_set a_timestamp
                            "Why do apples fall?" (PStr "Gravity.") None
                            {| self := gravity_store; files := [] |})))))
      <= 20)%nat.
Proof.
  split; [exact (first_seen_length [])|].
  split; [exact gravity_store_inv|].
  pose proof (a_store_call_indexes_a_bounded_number_of_concepts
                findall_capitalized findall_phrases insertion_ordered_set
                (first_seen_length []) a_timestamp
                {| self := gravity_store; files := [] |} gravity_store_inv)
    as H.
  cbv zeta in H. destruct H as (_ & _ & _ & H).
  exact (H "Why do apples fall?" (PStr "Gravity.") None).
Defined.

